(** * polyester/image.py: mounts, layers, images and the join protocol

    A shallow embedding of [src/polyester/image.py].  Python objects live in
    a store indexed by address (object identity); every remote call, every
    hashing future awaited and every file read by the coroutine is appended
    to a trace, so that statements about "which RPCs were issued, in which
    order" are statements about that trace. *)

From Stdlib Require Import ZArith Lia DecimalString Ascii String.
From stdpp Require Import gmap strings list fin_maps.

Local Open Scope string_scope.
Local Open Scope list_scope.
Local Open Scope nat_scope.

(** ** Python values *)

(** Exceptions raised on the paths of this file: the plain [Exception] of
    [Image.join], the [KeyError] of a dict subscript, the [OSError] of
    [open(...).read()], and whatever the RPC layer raises. *)
Inductive PyExn : Type :=
  | Exception (msg : string)
  | KeyError (key : string)
  | OSError (msg : string)
  | RpcError (msg : string).

Inductive Res (A : Type) : Type :=
  | Ok (a : A)
  | Raise (e : PyExn).
Arguments Ok {A} a.
Arguments Raise {A} e.

Abbreviation bytes := (list Byte.byte).

(** Object identity: the address of an object in its store. *)
Abbreviation addr := nat.

(** Truth value of an optional string ([None] and [''] are falsy). *)
Definition truthy (o : option string) : bool :=
  match o with
  | None => false
  | Some s => negb (String.eqb s "")
  end.

(** ['%s' % n] for an integer [n]. *)
Definition str_of_Z (z : Z) : string := NilZero.string_of_int (Z.to_int z).

(** [os.path.join(a, b)] of posixpath, for two components. *)
Definition os_path_join (a b : string) : string :=
  if String.prefix "/" b then b
  else if String.eqb a "" then b
  else if String.eqb (String.substring (String.length a - 1) 1 a) "/" then a +:+ b
  else a +:+ "/" +:+ b.

(** ** Messages of [api_pb2]

    The generated message classes are not part of the sources; each record
    has the fields that [image.py] passes to, or reads from, the message. *)

Record MountCreateRequest := { mcq_client_id : string }.
Record MountCreateResponse := { mcr_mount_id : string }.
Record MountRegisterFileRequest :=
  { rfq_filename : string; rfq_sha256_hex : string; rfq_mount_id : string }.
Record MountRegisterFileResponse := { rfr_filename : string; rfr_exists : bool }.
Record MountUploadFileRequest :=
  { ufq_data : bytes; ufq_sha256_hex : string; ufq_size : nat; ufq_mount_id : string }.
Record MountDoneRequest := { mdq_mount_id : string }.

Record BaseLayer := { bl_docker_tag : string; bl_layer_id : string }.
Record LayerContextFile := { lcf_filename : string; lcf_data : bytes }.
Record LayerDef :=
  { ld_tag : option string;
    ld_base_layers : list BaseLayer;
    ld_dockerfile_commands : list string;
    ld_context_files : list LayerContextFile }.
Record LayerCreateRequest := { lcq_client_id : string; lcq_layer : LayerDef }.
Record LayerCreateResponse := { lcr_layer_id : string }.

Record ImageDef := { id_layer_id : option string; id_mount_ids : list string }.
Record ImageCreateRequest := { icq_client_id : string; icq_image : ImageDef }.
Record ImageCreateResponse := { icr_image_id : string }.

Record ImageJoinRequest := { ijq_image_id : option string; ijq_timeout : Z }.
(** Modelled from the spec: [GenericResult] of [api_pb2] is not in the
    sources.  [join] reads its [status] and [exception]; the payload of a
    success is the third field that the specification gives it. *)
Record GenericResult := { gr_status : Z; gr_exception : string; gr_payload : Z }.
Record ImageJoinResponse := { ijr_result : GenericResult }.

(** ** The trace *)

(** The trace is the sequence of steps of the coroutine that runs [start]
    or [join]: the RPC messages it sends and receives, the files it reads
    itself, and the hashing futures it awaits.  The reads of
    [get_sha256_hex] are done by the worker threads of the executor,
    concurrently with the coroutine and at moments of their own; they are
    not steps of the coroutine and have no position in the trace.  What the
    trace has is [EvHashDone]: [await fut] has returned, or raised, for the
    hashing job of [filename]. *)
Inductive Event : Type :=
  | EvHashDone (filename : string) (out : Res bytes)
  | EvOpenRead (filename : string) (out : Res bytes)
  | EvMountCreate (req : MountCreateRequest) (out : Res MountCreateResponse)
  | EvRegisterFile (req : MountRegisterFileRequest)
  | EvRegisterResponse (resp : MountRegisterFileResponse)
  | EvRegisterFailed (e : PyExn)
  | EvUploadFile (req : MountUploadFileRequest)
  | EvUploadFinished (out : Res unit)
  | EvMountDone (req : MountDoneRequest) (out : Res unit)
  | EvLayerCreate (self : addr) (req : LayerCreateRequest) (out : Res LayerCreateResponse)
  | EvImageCreate (self : addr) (req : ImageCreateRequest) (out : Res ImageCreateResponse)
  | EvImageJoin (req : ImageJoinRequest) (out : Res ImageJoinResponse).

(** ** The remote side

    [client.stub]: every handler sees the history so far, so a handler is an
    arbitrary deterministic server.  A streaming call is a resumption: the
    RPC layer pulls requests out of the request iterator it was given
    ([None] when the iterator is exhausted) and, for the bidirectional call,
    emits responses. *)

Inductive RegStream : Type :=
  | RegPull (k : option MountRegisterFileRequest → RegStream)
  | RegEmit (resp : MountRegisterFileResponse) (k : RegStream)
  | RegEnd
  | RegRaise (e : PyExn).

Inductive UpStream : Type :=
  | UpPull (k : option MountUploadFileRequest → UpStream)
  | UpReturn
  | UpRaise (e : PyExn).

Record Stub := {
  MountCreate : list Event → MountCreateRequest → Res MountCreateResponse;
  MountRegisterFile : list Event → RegStream;
  MountUploadFile : list Event → UpStream;
  MountDone : list Event → MountDoneRequest → Res unit;
  LayerCreate : list Event → LayerCreateRequest → Res LayerCreateResponse;
  ImageCreate : list Event → ImageCreateRequest → Res ImageCreateResponse;
  (** [retry(client.stub.ImageJoin)]: one call of the wrapped function, that
      is one round trip as [Image.join] sees it.  [retry] is not part of the
      sources: whatever it does before it returns a response or gives up
      with an error is inside this handler. *)
  ImageJoin : list Event → ImageJoinRequest → Res ImageJoinResponse;
}.

Record Client := { client_id : string; stub : Stub }.

(** ** The local side *)

Record Env := {
  (** [get_files]' view of the directory: the [(filename, rel_filename)]
      pairs of [os.walk(local_dir)], in the order in which the executor
      completes their hashing futures. *)
  walk : string → list (string * string);
  (** [open(filename, 'rb').read()].  For the read that the coroutine does
      for an upload, the history is the moment of the read.  For the read
      of a hashing job, which a worker thread does at some moment between
      the submission of the job and the end of [await fut], the history is
      the moment of that [await]; the function is arbitrary, so nothing is
      assumed about the moment at which the thread read the file. *)
  open_read : list Event → string → Res bytes;
  (** [hashlib.sha256(data).hexdigest()] *)
  sha256_hex : bytes → string;
  (** ['%d.%d.%d' % sys.version_info[:3]] *)
  sys_version : string;
}.

(** ** Objects and the store *)

Record MountObj := {
  local_dir : string;
  remote_dir : string;
  mount_id : option string;
  condition : string → bool;
  _hashes : gmap string string;
  _remote_to_local_filename : gmap string string;
}.

Record LayerObj := {
  layer_id : option string;
  tag : option string;
  (** a dict, iterated in insertion order *)
  base_layers : list (string * addr);
  dockerfile_commands : list string;
  context_files : list (string * bytes);
}.

Record ImageObj := {
  layer : addr;
  mounts : list addr;
  image_id : option string;
  (** set by [DebianSlim.__init__] only *)
  python_version : option string;
}.

Record World := {
  mount_store : list MountObj;
  layer_store : list LayerObj;
  image_store : list ImageObj;
  trace : list Event;
}.

Definition log (e : Event) (w : World) : World :=
  {| mount_store := mount_store w; layer_store := layer_store w;
     image_store := image_store w; trace := trace w ++ [e] |}.

Definition set_mount (a : addr) (m : MountObj) (w : World) : World :=
  {| mount_store := <[a := m]> (mount_store w); layer_store := layer_store w;
     image_store := image_store w; trace := trace w |}.

Definition set_layer (a : addr) (l : LayerObj) (w : World) : World :=
  {| mount_store := mount_store w; layer_store := <[a := l]> (layer_store w);
     image_store := image_store w; trace := trace w |}.

Definition set_image (a : addr) (i : ImageObj) (w : World) : World :=
  {| mount_store := mount_store w; layer_store := layer_store w;
     image_store := <[a := i]> (image_store w); trace := trace w |}.

Definition with_mount_id (v : option string) (m : MountObj) : MountObj :=
  {| local_dir := local_dir m; remote_dir := remote_dir m; mount_id := v;
     condition := condition m; _hashes := _hashes m;
     _remote_to_local_filename := _remote_to_local_filename m |}.

Definition with_layer_id (v : option string) (l : LayerObj) : LayerObj :=
  {| layer_id := v; tag := tag l; base_layers := base_layers l;
     dockerfile_commands := dockerfile_commands l; context_files := context_files l |}.

Definition with_image_id (v : option string) (i : ImageObj) : ImageObj :=
  {| layer := layer i; mounts := mounts i; image_id := v;
     python_version := python_version i |}.

(** ** [class Layer] *)

Module Layer.

(** [Layer(tag, base_layers, dockerfile_commands, context_files)]: the new
    object gets the next free address.  The default arguments ([{}], [[]])
    are shared between instances in Python, but nothing in this file writes
    to them, so they are plain values here. *)
Definition __init__ (tag : option string) (base_layers : list (string * addr))
    (dockerfile_commands : list string) (context_files : list (string * bytes))
    (w : World) : addr * World :=
  (length (layer_store w),
   {| mount_store := mount_store w;
      layer_store := layer_store w ++
        [{| layer_id := None; tag := tag; base_layers := base_layers;
            dockerfile_commands := dockerfile_commands;
            context_files := context_files |}];
      image_store := image_store w; trace := trace w |}).

(** The [for docker_tag, layer in self.base_layers.items()] loop, with the
    recursive call [layer.start(client)] as a parameter. *)
Definition start_base_layers (rec : addr → World → option (Res string * World)) :
    list (string * addr) → list BaseLayer → World →
    option (Res (list BaseLayer) * World) :=
  fix loop items acc w :=
    match items with
    | [] => Some (Ok acc, w)
    | (docker_tag, layer) :: items' =>
        match rec layer w with
        | None => None
        | Some (Raise e, w1) => Some (Raise e, w1)
        | Some (Ok layer_id, w1) =>
            loop items' (acc ++ [{| bl_docker_tag := docker_tag; bl_layer_id := layer_id |}]) w1
        end
    end.

Definition layer_definition (l : LayerObj) (base_layers : list BaseLayer) : LayerDef :=
  {| ld_tag := tag l;
     ld_base_layers := base_layers;
     ld_dockerfile_commands := dockerfile_commands l;
     ld_context_files :=
       map (λ '(filename, data), {| lcf_filename := filename; lcf_data := data |})
           (context_files l) |}.

(** [Layer.start(self, client)].  The recursion follows object references,
    so it is bounded by [fuel]; [None] is "out of fuel" (or a dangling
    address, which Python cannot have). *)
Fixpoint start (fuel : nat) (client : Client) (self : addr) (w : World)
    : option (Res string * World) :=
  match fuel with
  | O => None
  | S fuel' =>
      match layer_store w !! self with
      | None => None
      | Some l =>
          match layer_id l with
          | Some id => Some (Ok id, w)
          | None =>
              match start_base_layers (start fuel' client) (base_layers l) [] w with
              | None => None
              | Some (Raise e, w1) => Some (Raise e, w1)
              | Some (Ok base_layers, w1) =>
                  match layer_store w1 !! self with
                  | None => None
                  | Some l1 =>
                      let request :=
                        {| lcq_client_id := client_id client;
                           lcq_layer := layer_definition l1 base_layers |} in
                      let out := LayerCreate (stub client) (trace w1) request in
                      let w2 := log (EvLayerCreate self request out) w1 in
                      match out with
                      | Raise e => Some (Raise e, w2)
                      | Ok response =>
                          Some (Ok (lcr_layer_id response),
                                set_layer self (with_layer_id (Some (lcr_layer_id response)) l1) w2)
                      end
                  end
              end
          end
      end
  end.

End Layer.

(** ** Reading the store and the trace *)

(** The cached [layer_id] of the Layer at [a]. *)
Definition cached (w : World) (a : addr) : option string :=
  layer_store w !! a ≫= layer_id.

Definition is_LayerCreate_of (a : addr) (e : Event) : bool :=
  match e with
  | EvLayerCreate self _ _ => Nat.eqb self a
  | _ => false
  end.

Definition count_events (p : Event → bool) (tr : list Event) : nat :=
  length (List.filter p tr).

(** What a call appended to the trace. *)
Definition new_events (w w' : World) : list Event :=
  drop (length (trace w)) (trace w').

(** References point to older objects: a base layer is constructed before
    the layer that is built from it. *)
Definition dag (w : World) : Prop :=
  ∀ a l, layer_store w !! a = Some l → Forall (λ p, p.2 < a) (base_layers l).

Definition same_fields (l l' : LayerObj) : Prop :=
  tag l' = tag l ∧ base_layers l' = base_layers l ∧
  dockerfile_commands l' = dockerfile_commands l ∧
  context_files l' = context_files l.

(** What any number of [Layer.start] calls may do to the world: only layer
    ids that were unset get set, and the trace grows. *)
Definition world_le (w w' : World) : Prop :=
  mount_store w' = mount_store w ∧ image_store w' = image_store w ∧
  (∀ b, match layer_store w !! b with
        | Some l => ∃ l', layer_store w' !! b = Some l' ∧ same_fields l l' ∧
                          (∀ id, layer_id l = Some id → layer_id l' = Some id)
        | None => layer_store w' !! b = None
        end) ∧
  trace w' = trace w ++ new_events w w'.

(** A call that stays below address [k]. *)
Definition below (k : addr) (w w' : World) : Prop :=
  (∀ b, k ≤ b → layer_store w' !! b = layer_store w !! b) ∧
  Forall (λ e, ∃ s q o, e = EvLayerCreate s q o ∧ s < k) (new_events w w').

(** On a successful run, a layer gets a [LayerCreate] exactly when its id
    goes from unset to set. *)
Definition counts (w w' : World) : Prop :=
  ∀ b, count_events (is_LayerCreate_of b) (new_events w w') =
       match cached w b, cached w' b with
       | None, Some _ => 1
       | _, _ => 0
       end.

(** The [(docker_tag, layer_id)] list of base layers that are all realized. *)
Fixpoint resolved (w : World) (items : list (string * addr)) : option (list BaseLayer) :=
  match items with
  | [] => Some []
  | (docker_tag, b) :: items' =>
      match cached w b, resolved w items' with
      | Some id, Some r => Some ({| bl_docker_tag := docker_tag; bl_layer_id := id |} :: r)
      | _, _ => None
      end
  end.

(** A run below [k] that only sets unset layer ids. *)
Definition sound (k : addr) (w w' : World) : Prop := world_le w w' ∧ below k w w'.



(** [dag], as a check on a given store. *)
Fixpoint dag_from (a : addr) (ls : list LayerObj) : bool :=
  match ls with
  | [] => true
  | l :: ls' => forallb (λ p, p.2 <? a) (base_layers l) && dag_from (S a) ls'
  end.

Definition dag_check (w : World) : bool := dag_from 0 (layer_store w).

(** ** [get_files] and [class Mount] *)

Module Mount.

Section WithEnv.
Context (env : Env).

(** [Mount(local_dir, remote_dir, condition)] *)
Definition __init__ (local_dir remote_dir : string) (condition : string → bool)
    (w : World) : addr * World :=
  (length (mount_store w),
   {| mount_store := mount_store w ++
        [{| local_dir := local_dir; remote_dir := remote_dir; mount_id := None;
            condition := condition; _hashes := ∅; _remote_to_local_filename := ∅ |}];
      layer_store := layer_store w; image_store := image_store w; trace := trace w |}).

(** [get_files(local_dir, condition)].  Before its first [yield] the
    generator walks the directory and submits one hashing job per file that
    satisfies the condition; the jobs run in the worker threads of the
    executor.  [asyncio.as_completed] then hands the futures out in the
    order in which they complete: [get_files] is the list of the submitted
    jobs in that order, and the state of the generator is the list of the
    futures that have not been awaited yet. *)
Definition get_files (local_dir : string) (condition : string → bool)
    : list (string * string) :=
  List.filter (λ p, condition p.1) (walk env local_dir).

(** One [__anext__] of [get_files]: [await fut] for the next future to
    complete.  The coroutine gets the result of [get_sha256_hex], the digest
    of the bytes that the worker thread read; if the thread could not read
    the file, the error of the read surfaces here, when its future is
    awaited, and ends the generator.  Files whose futures completed earlier
    have been yielded (and so registered, and possibly uploaded) by then. *)
Definition get_files_next (pending : list (string * string)) (tr : list Event)
    : Res (option (string * string * string)) * list (string * string) * list Event :=
  match pending with
  | [] => (Ok None, [], tr)
  | (filename, rel_filename) :: rest =>
      let out := open_read env tr filename in
      let tr1 := tr ++ [EvHashDone filename out] in
      match out with
      | Ok data => (Ok (Some (filename, rel_filename, sha256_hex env data)), rest, tr1)
      | Raise e => (Raise e, [], tr1)
      end
  end.

Definition with_remote_to_local (k v : string) (m : MountObj) : MountObj :=
  {| local_dir := local_dir m; remote_dir := remote_dir m; mount_id := mount_id m;
     condition := condition m; _hashes := _hashes m;
     _remote_to_local_filename := <[k := v]> (_remote_to_local_filename m) |}.

Definition with_hash (k v : string) (m : MountObj) : MountObj :=
  {| local_dir := local_dir m; remote_dir := remote_dir m; mount_id := mount_id m;
     condition := condition m; _hashes := <[k := v]> (_hashes m);
     _remote_to_local_filename := _remote_to_local_filename m |}.

(** One [__anext__] of [self._register_file_requests(mount_id)]: the body of
    the [async for] up to its [yield request]. *)
Definition _register_file_requests_next (mount_id : string)
    (pending : list (string * string)) (self : MountObj) (tr : list Event)
    : Res (option MountRegisterFileRequest) * list (string * string) * MountObj * list Event :=
  match get_files_next pending tr with
  | (Raise e, pending', tr1) => (Raise e, pending', self, tr1)
  | (Ok None, pending', tr1) => (Ok None, pending', self, tr1)
  | (Ok (Some (filename, rel_filename, sha256_hex)), pending', tr1) =>
      let remote_filename := os_path_join (remote_dir self) rel_filename in
      let self1 := with_remote_to_local remote_filename filename self in
      let request :=
        {| rfq_filename := remote_filename; rfq_sha256_hex := sha256_hex;
           rfq_mount_id := mount_id |} in
      let self2 := with_hash filename sha256_hex self1 in
      (Ok (Some request), pending', self2, tr1 ++ [EvRegisterFile request])
  end.

(** One [__anext__] of [self._upload_file_requests(client, mount_id)]: the
    [async for response in client.stub.MountRegisterFile(...)] loop runs
    until it yields an upload request, ends, or raises.  The response stream
    [reg] pulls its requests from [_register_file_requests]. *)
Fixpoint _upload_file_requests_next (mount_id : string) (reg : RegStream)
    (pending : list (string * string)) (self : MountObj) (tr : list Event)
    : Res (option MountUploadFileRequest) * (RegStream * list (string * string))
      * MountObj * list Event :=
  match reg with
  | RegPull k =>
      match _register_file_requests_next mount_id pending self tr with
      | (Ok request, pending', self1, tr1) =>
          _upload_file_requests_next mount_id (k request) pending' self1 tr1
      | (Raise e, pending', self1, tr1) => (Raise e, (RegEnd, []), self1, tr1)
      end
  | RegEmit response k =>
      let tr1 := tr ++ [EvRegisterResponse response] in
      if rfr_exists response then
        _upload_file_requests_next mount_id k pending self tr1
      else
        match _remote_to_local_filename self !! rfr_filename response with
        | None => (Raise (KeyError (rfr_filename response)), (RegEnd, []), self, tr1)
        | Some filename =>
            let out := open_read env tr1 filename in
            let tr2 := tr1 ++ [EvOpenRead filename out] in
            match out with
            | Raise e => (Raise e, (RegEnd, []), self, tr2)
            | Ok data =>
                match _hashes self !! filename with
                | None => (Raise (KeyError filename), (RegEnd, []), self, tr2)
                | Some sha256_hex =>
                    let request :=
                      {| ufq_data := data; ufq_sha256_hex := sha256_hex;
                         ufq_size := length data; ufq_mount_id := mount_id |} in
                    (Ok (Some request), (k, pending), self, tr2 ++ [EvUploadFile request])
                end
            end
        end
  | RegEnd => (Ok None, (RegEnd, []), self, tr)
  | RegRaise e => (Raise e, (RegEnd, []), self, tr ++ [EvRegisterFailed e])
  end.

(** [await client.stub.MountUploadFile(self._upload_file_requests(...))]:
    the call pulls upload requests until it returns or raises; an exception
    of the request generator ends the call with that exception. *)
Fixpoint MountUploadFile_call (mount_id : string) (up : UpStream)
    (gen : RegStream * list (string * string)) (self : MountObj) (tr : list Event)
    : Res unit * MountObj * list Event :=
  match up with
  | UpPull k =>
      match _upload_file_requests_next mount_id gen.1 gen.2 self tr with
      | (Ok request, gen', self1, tr1) =>
          MountUploadFile_call mount_id (k request) gen' self1 tr1
      | (Raise e, _, self1, tr1) => (Raise e, self1, tr1)
      end
  | UpReturn => (Ok (), self, tr ++ [EvUploadFinished (Ok ())])
  | UpRaise e => (Raise e, self, tr ++ [EvUploadFinished (Raise e)])
  end.

(** The body of [start] after the [if self.mount_id:] test. *)
Definition synchronize (client : Client) (self : MountObj) (tr : list Event)
    : Res string * MountObj * list Event :=
  let req := {| mcq_client_id := client_id client |} in
  let out := MountCreate (stub client) tr req in
  let tr1 := tr ++ [EvMountCreate req out] in
  match out with
  | Raise e => (Raise e, self, tr1)
  | Ok resp =>
      let mount_id := mcr_mount_id resp in
      let gen := (MountRegisterFile (stub client) tr1,
                  get_files (local_dir self) (condition self)) in
      match MountUploadFile_call mount_id (MountUploadFile (stub client) tr1) gen self tr1 with
      | (Raise e, self1, tr2) => (Raise e, self1, tr2)
      | (Ok _, self1, tr2) =>
          let req := {| mdq_mount_id := mount_id |} in
          let out := MountDone (stub client) tr2 req in
          let tr3 := tr2 ++ [EvMountDone req out] in
          match out with
          | Raise e => (Raise e, self1, tr3)
          | Ok _ => (Ok mount_id, with_mount_id (Some mount_id) self1, tr3)
          end
      end
  end.

(** [Mount.start] on the object itself. *)
Definition start_obj (client : Client) (self : MountObj) (tr : list Event)
    : Res string * MountObj * list Event :=
  match mount_id self with
  | Some id => if truthy (Some id) then (Ok id, self, tr) else synchronize client self tr
  | None => synchronize client self tr
  end.

(** [Mount.start(self, client)]: nothing but [self] and the trace changes,
    so the object is taken out of the store and put back. *)
Definition start (client : Client) (self : addr) (w : World)
    : option (Res string * World) :=
  match mount_store w !! self with
  | None => None
  | Some m =>
      let '(r, m', tr') := start_obj client m (trace w) in
      Some (r, {| mount_store := <[self := m']> (mount_store w);
                  layer_store := layer_store w; image_store := image_store w;
                  trace := tr' |})
  end.

End WithEnv.

End Mount.

(** ** Reading the trace of a mount synchronization *)

(** The error of a remote call that failed, if the event is one. *)
Definition rpc_failure (ev : Event) : option PyExn :=
  match ev with
  | EvMountCreate _ (Raise e) => Some e
  | EvRegisterFailed e => Some e
  | EvUploadFinished (Raise e) => Some e
  | EvMountDone _ (Raise e) => Some e
  | EvLayerCreate _ _ (Raise e) => Some e
  | EvImageCreate _ _ (Raise e) => Some e
  | EvImageJoin _ (Raise e) => Some e
  | _ => None
  end.

Definition quiet (evs : list Event) : Prop :=
  Forall (λ ev, rpc_failure ev = None) evs.

(** Either no remote call failed, or the last thing that happened is the
    failure of a remote call, and its error is the result. *)
Definition aborts_on_rpc_failure {A} (r : Res A) (evs : list Event) : Prop :=
  quiet evs ∨
  ∃ evs0 ev e, evs = evs0 ++ [ev] ∧ quiet evs0 ∧ rpc_failure ev = Some e ∧ r = Raise e.

(** A registration stream that reports only on files that were registered
    with it ([seen] are the names pulled so far). *)
Fixpoint echoes (seen : list string) (reg : RegStream) : Prop :=
  match reg with
  | RegPull k =>
      ∀ o, echoes (match o with
                   | Some q => rfq_filename q :: seen
                   | None => seen
                   end) (k o)
  | RegEmit r k => rfr_filename r ∈ seen ∧ echoes seen k
  | RegEnd => True
  | RegRaise _ => True
  end.

(** [filename] is a local file of the walk [files] whose remote name under
    [rdir] is [name]. *)
Definition local_file_of (files : list (string * string)) (rdir name filename : string) : Prop :=
  ∃ rel_filename, (filename, rel_filename) ∈ files ∧ os_path_join rdir rel_filename = name.

Section SyncProps.

(** The position where the synchronization starts in the trace, its mount
    id, the files of the walk and the remote directory. *)
Variables (n0 : nat) (mount_id : string) (files : list (string * string)) (rdir : string).

(** What must hold around the event [e] at position [i] of the trace [tr]:
    - a response "does not exist" is followed at once by the read of the
      local file it names and by the upload of the bytes read, with their
      length, the mount id, and the digest of an earlier registration of
      that name;
    - an upload is what follows, two events later, such a response. *)
Definition ok_at (tr : list Event) (i : nat) (e : Event) : Prop :=
  match e with
  | EvRegisterResponse r =>
      if rfr_exists r then True
      else
        ∃ filename data sha j,
          local_file_of files rdir (rfr_filename r) filename ∧
          tr !! (i + 1) = Some (EvOpenRead filename (Ok data)) ∧
          tr !! (i + 2) =
            Some (EvUploadFile {| ufq_data := data; ufq_sha256_hex := sha;
                                  ufq_size := length data; ufq_mount_id := mount_id |}) ∧
          n0 ≤ j ∧ j < i ∧
          tr !! j =
            Some (EvRegisterFile {| rfq_filename := rfr_filename r; rfq_sha256_hex := sha;
                                    rfq_mount_id := mount_id |})
  | EvUploadFile u =>
      ∃ r, n0 + 2 ≤ i ∧ tr !! (i - 2) = Some (EvRegisterResponse r) ∧ rfr_exists r = false
  | _ => True
  end.

Definition uploads_follow_responses (tr : list Event) : Prop :=
  ∀ i e, n0 ≤ i → tr !! i = Some e → ok_at tr i e.

(** The state of a synchronization in progress: the files still to be
    registered are distinct files of the walk; every name the server has
    seen belongs to a local file that is done, whose digest is the one that
    was registered. *)
Definition registered (self : MountObj) (pending : list (string * string))
    (tr : list Event) (name : string) : Prop :=
  ∃ filename sha j,
    local_file_of files rdir name filename ∧
    (filename ∉ map fst pending) ∧
    _remote_to_local_filename self !! name = Some filename ∧
    _hashes self !! filename = Some sha ∧
    n0 ≤ j ∧
    tr !! j = Some (EvRegisterFile {| rfq_filename := name; rfq_sha256_hex := sha;
                                      rfq_mount_id := mount_id |}).

Definition sync_inv (seen : list string) (self : MountObj)
    (pending : list (string * string)) (tr : list Event) : Prop :=
  NoDup (map fst pending) ∧
  (∀ p, p ∈ pending → p ∈ files) ∧
  remote_dir self = rdir ∧
  (∀ name, name ∈ seen → registered self pending tr name) ∧
  uploads_follow_responses tr.

End SyncProps.

Section OwnRegistration.

(** The hashing and reading functions, the position where the
    synchronization starts in the trace, its mount id, the files of the
    walk and the remote directory. *)
Variables (env : Env) (n0 : nat) (mount_id : string)
  (files : list (string * string)) (rdir : string).

(** The event at position [j] is the registration of the local file
    [filename] itself: it is the step that follows the end of the hashing
    job of [filename], and the request has the remote name of that file and
    the digest that the job returned. *)
Definition registration_of (tr : list Event) (j : nat) (filename name sha : string) : Prop :=
  ∃ rel_filename data0,
    (filename, rel_filename) ∈ files ∧ name = os_path_join rdir rel_filename ∧
    sha = sha256_hex env data0 ∧
    n0 < j ∧ tr !! (j - 1) = Some (EvHashDone filename (Ok data0)) ∧
    tr !! j = Some (EvRegisterFile {| rfq_filename := name; rfq_sha256_hex := sha;
                                      rfq_mount_id := mount_id |}).

(** The upload [u] at position [k] is the upload of a file that was
    registered and found missing before: the two events before it are the
    response "does not exist" for the remote name of a local file and the
    read of that file, whose bytes [u] carries; and that file's own
    registration, whose digest [u] carries, is earlier than the response. *)
Definition upload_of_registered (tr : list Event) (k : nat) (u : MountUploadFileRequest)
    : Prop :=
  ∃ filename resp j,
    registration_of tr j filename (rfr_filename resp) (ufq_sha256_hex u) ∧
    j + 2 < k ∧
    tr !! (k - 2) = Some (EvRegisterResponse resp) ∧ rfr_exists resp = false ∧
    tr !! (k - 1) = Some (EvOpenRead filename (Ok (ufq_data u))) ∧
    ufq_mount_id u = mount_id.

Definition uploads_follow_registrations (tr : list Event) : Prop :=
  ∀ k u, n0 ≤ k → tr !! k = Some (EvUploadFile u) → upload_of_registered tr k u.

(** The state of a synchronization in progress, for [registration_of]. *)
Definition registered_own (self : MountObj) (pending : list (string * string))
    (tr : list Event) (name : string) : Prop :=
  ∃ filename sha j,
    registration_of tr j filename name sha ∧
    (filename ∉ map fst pending) ∧
    _remote_to_local_filename self !! name = Some filename ∧
    _hashes self !! filename = Some sha.

Definition own_inv (seen : list string) (self : MountObj)
    (pending : list (string * string)) (tr : list Event) : Prop :=
  NoDup (map fst pending) ∧
  (∀ p, p ∈ pending → p ∈ files) ∧
  remote_dir self = rdir ∧
  (∀ name, name ∈ seen → registered_own self pending tr name) ∧
  uploads_follow_registrations tr.

End OwnRegistration.

(** C6 as the specification words it: every registration and every
    response comes before every upload. *)
Definition registration_phase_first (evs : list Event) : Prop :=
  ∀ i j u,
    evs !! i = Some (EvUploadFile u) →
    (∀ q, evs !! j = Some (EvRegisterFile q) → j < i) ∧
    (∀ r, evs !! j = Some (EvRegisterResponse r) → j < i).

(** What a synchronization leaves alone in the Mount object as long as it
    has not succeeded. *)
Definition mount_frame (m m' : MountObj) : Prop :=
  mount_id m' = mount_id m ∧ local_dir m' = local_dir m ∧
  remote_dir m' = remote_dir m ∧ condition m' = condition m.

(** ** [class Image] *)

Module Image.

(** [Image(layer, mounts)]; [python_version] is the attribute that the
    subclass [DebianSlim] sets before calling [super().__init__]. *)
Definition __init__ (layer : addr) (mounts : list addr) (python_version : option string)
    (w : World) : addr * World :=
  (length (image_store w),
   {| mount_store := mount_store w; layer_store := layer_store w;
      image_store := image_store w ++
        [{| layer := layer; mounts := mounts; image_id := None;
            python_version := python_version |}];
      trace := trace w |}).

Section WithEnv.
Context (env : Env).

(** [for mount in self.mounts: mount_ids.append(await mount.start(client))] *)
Fixpoint start_mounts (client : Client) (mounts : list addr) (mount_ids : list string)
    (w : World) : option (Res (list string) * World) :=
  match mounts with
  | [] => Some (Ok mount_ids, w)
  | mount :: mounts' =>
      match Mount.start env client mount w with
      | None => None
      | Some (Raise e, w1) => Some (Raise e, w1)
      | Some (Ok id, w1) => start_mounts client mounts' (mount_ids ++ [id]) w1
      end
  end.

(** [Image.start(self, client)]; [fuel] bounds the recursion of
    [Layer.start]. *)
Definition start (fuel : nat) (client : Client) (self : addr) (w : World)
    : option (Res string * World) :=
  match image_store w !! self with
  | None => None
  | Some img =>
      match image_id img with
      | Some id => Some (Ok id, w)
      | None =>
          match Layer.start fuel client (layer img) w with
          | None => None
          | Some (Raise e, w1) => Some (Raise e, w1)
          | Some (Ok layer_id, w1) =>
              match start_mounts client (mounts img) [] w1 with
              | None => None
              | Some (Raise e, w2) => Some (Raise e, w2)
              | Some (Ok mount_ids, w2) =>
                  match image_store w2 !! self with
                  | None => None
                  | Some img2 =>
                      let image :=
                        {| id_layer_id := cached w2 (layer img2);
                           id_mount_ids := mount_ids |} in
                      let request :=
                        {| icq_client_id := client_id client; icq_image := image |} in
                      let out := ImageCreate (stub client) (trace w2) request in
                      let w3 := log (EvImageCreate self request out) w2 in
                      match out with
                      | Raise e => Some (Raise e, w3)
                      | Ok response =>
                          Some (Ok (icr_image_id response),
                                set_image self
                                  (with_image_id (Some (icr_image_id response)) img2) w3)
                      end
                  end
              end
          end
      end
  end.

End WithEnv.

Section Join.

(** [api_pb2.GenericResult.Status.SUCCESS], [.FAILURE] and
    [BLOCKING_REQUEST_TIMEOUT] of [grpc_utils]: their values are not in the
    sources. *)
Variables (SUCCESS FAILURE : Z) (BLOCKING_REQUEST_TIMEOUT : Z).

(** [Image.join(self, client)]: [while True] polls until a status arrives;
    [fuel] bounds the number of polls and [None] is "still polling". *)
Fixpoint join (fuel : nat) (client : Client) (self : addr) (w : World)
    : option (Res ImageJoinResponse * World) :=
  match fuel with
  | O => None
  | S fuel' =>
      match image_store w !! self with
      | None => None
      | Some img =>
          let request :=
            {| ijq_image_id := image_id img; ijq_timeout := BLOCKING_REQUEST_TIMEOUT |} in
          let out := ImageJoin (stub client) (trace w) request in
          let w1 := log (EvImageJoin request out) w in
          match out with
          | Raise e => Some (Raise e, w1)
          | Ok response =>
              let status := gr_status (ijr_result response) in
              if (status =? 0)%Z then join fuel' client self w1
              else if (status =? FAILURE)%Z then
                Some (Raise (Exception (gr_exception (ijr_result response))), w1)
              else if (status =? SUCCESS)%Z then Some (Ok response, w1)
              else Some (Raise (Exception ("Unknown status " +:+ str_of_Z status +:+ "!")), w1)
          end
      end
  end.

End Join.

End Image.

(** ** Module-level objects and [class DebianSlim] *)

Fixpoint take_while {A} (p : A → bool) (l : list A) : list A :=
  match l with
  | x :: l' => if p x then x :: take_while p l' else []
  | [] => []
  end.

(** The extension that [os.path.splitext(p)[-1]] returns: from the last dot
    of the last path component, unless only dots come before it. *)
Definition splitext_ext (p : string) : string :=
  let is_dot c := Ascii.eqb c "."%char in
  let is_sep c := Ascii.eqb c "/"%char in
  let r := rev (list_ascii_of_string p) in
  let suffix := take_while (λ c, negb (is_dot c || is_sep c)) r in
  match drop (length suffix) r with
  | c :: before =>
      if is_dot c && existsb (λ c, negb (is_dot c))
                       (take_while (λ c, negb (is_sep c)) before)
      then string_of_list_ascii ("."%char :: rev suffix)
      else ""
  | [] => ""
  end.

(** [mount_py_in_workdir_into_root] is the first Mount that the module
    creates, [debian_slim] the first Layer and the first Image. *)
Definition mount_py_in_workdir_into_root : addr := 0.

Module DebianSlim.

Section WithEnv.
Context (env : Env).

(** [DebianSlim(layer=None, python_version=None)] *)
Definition __init__ (layer : option addr) (python_version : option string)
    (w : World) : addr * World :=
  let python_version :=
    match python_version with
    | None => sys_version env
    | Some v => v
    end in
  let '(layer, w1) :=
    match layer with
    | None => Layer.__init__ (Some ("python-" +:+ python_version +:+ "-slim-buster-base"))
                [] [] [] w
    | Some l => (l, w)
    end in
  Image.__init__ layer [mount_py_in_workdir_into_root] (Some python_version) w1.

(** [self.add_python_packages(python_packages)] *)
Definition add_python_packages (self : addr) (python_packages : list string)
    (w : World) : option (addr * World) :=
  match image_store w !! self with
  | None => None
  | Some img =>
      match python_version img with
      | None => None
      | Some version =>
          let '(builder, w1) :=
            Layer.__init__ (Some ("python-" +:+ version +:+ "-slim-buster-builder"))
              [] [] [] w in
          let '(layer, w2) :=
            Layer.__init__ None
              [("base", layer img); ("builder", builder)]
              [ "FROM builder as builder-vehicle";
                "RUN pip wheel " +:+ String.concat " " python_packages +:+ " -w /tmp/wheels";
                "FROM base";
                "COPY --from=builder-vehicle /tmp/wheels /tmp/wheels";
                "RUN pip install /tmp/wheels/*";
                "RUN rm -rf /tmp/wheels" ]
              [] w1 in
          Some (__init__ (Some layer) None w2)
      end
  end.

(** [self.run_commands(commands)] *)
Definition run_commands (self : addr) (commands : list string)
    (w : World) : option (addr * World) :=
  match image_store w !! self with
  | None => None
  | Some img =>
      let '(layer, w1) :=
        Layer.__init__ None
          [("base", layer img)]
          ("FROM base" :: map (λ command, "RUN " +:+ command) commands)
          [] w in
      Some (__init__ (Some layer) None w1)
  end.

End WithEnv.

End DebianSlim.

(** The world after [import polyester.image]. *)
Definition empty_world : World :=
  {| mount_store := []; layer_store := []; image_store := []; trace := [] |}.

Definition module_init (env : Env) : World :=
  let '(_, w1) :=
    Mount.__init__ "." "/root" (λ filename, String.eqb (splitext_ext filename) ".py")
      empty_world in
  let '(_, w2) := DebianSlim.__init__ env None None w1 in
  w2.

Definition debian_slim : addr := 0.
Definition base_image : addr := debian_slim.

(** ** Statements about joins, and scripted servers *)

(** The first calls of [ImageJoin] during a join that starts with history
    [tr] answer [rs], in this order. *)
Fixpoint join_answers (client : Client) (tr : list Event) (req : ImageJoinRequest)
    (rs : list ImageJoinResponse) : Prop :=
  match rs with
  | [] => True
  | r :: rs' =>
      ImageJoin (stub client) tr req = Ok r ∧
      join_answers client (tr ++ [EvImageJoin req (Ok r)]) req rs'
  end.

Definition is_ImageJoin (e : Event) : bool :=
  match e with EvImageJoin _ _ => true | _ => false end.

Definition is_LayerCreate (e : Event) : bool :=
  match e with EvLayerCreate _ _ _ => true | _ => false end.

Definition is_MountCreate (e : Event) : bool :=
  match e with EvMountCreate _ _ => true | _ => false end.

Definition unavailable {A} : Res A := Raise (RpcError "unavailable").

(** The bidirectional stream of a server that answers every registered
    file, as it arrives, with the flag [exists_remotely] gives it; [n]
    bounds the number of files it serves. *)
Fixpoint echo_register (exists_remotely : string → bool) (n : nat) : RegStream :=
  match n with
  | O => RegEnd
  | S n' =>
      RegPull (λ o,
        match o with
        | None => RegEnd
        | Some req =>
            RegEmit {| rfr_filename := rfq_filename req;
                       rfr_exists := exists_remotely (rfq_filename req) |}
                    (echo_register exists_remotely n')
        end)
  end.

(** The client stream of a server that takes every upload it is sent. *)
Fixpoint drain_upload (n : nat) : UpStream :=
  match n with
  | O => UpReturn
  | S n' =>
      UpPull (λ o, match o with None => UpReturn | Some _ => drain_upload n' end)
  end.

(** A server that hands out numbered ids, serves mounts as above, and
    answers the [n]-th [ImageJoin] with the [n]-th entry of [joins]. *)
Definition server (exists_remotely : string → bool) (joins : list ImageJoinResponse) : Stub :=
  {| MountCreate := λ tr _,
       Ok {| mcr_mount_id := "mo-" +:+ str_of_Z (Z.of_nat (count_events is_MountCreate tr)) |};
     MountRegisterFile := λ _, echo_register exists_remotely 8;
     MountUploadFile := λ _, drain_upload 8;
     MountDone := λ _ _, Ok ();
     LayerCreate := λ tr _,
       Ok {| lcr_layer_id := "la-" +:+ str_of_Z (Z.of_nat (count_events is_LayerCreate tr)) |};
     ImageCreate := λ _ _, Ok {| icr_image_id := "im-0" |};
     ImageJoin := λ tr _,
       match joins !! count_events is_ImageJoin tr with
       | Some r => Ok r
       | None => unavailable
       end |}.

Definition pending : ImageJoinResponse :=
  {| ijr_result := {| gr_status := 0; gr_exception := ""; gr_payload := 0 |} |}.
Definition result (status : Z) (exception : string) (payload : Z) : ImageJoinResponse :=
  {| ijr_result := {| gr_status := status; gr_exception := exception; gr_payload := payload |} |}.

(** A world with one realized image. *)
Definition realized_image_world : World :=
  {| mount_store := []; layer_store := [];
     image_store := [{| layer := 0; mounts := []; image_id := Some "im-7";
                        python_version := None |}];
     trace := [] |}.

(** What the caller of a join has in hand afterwards: the code ends with
    [return response], the message itself; the specification speaks of the
    payload of the result. *)
Inductive JoinValue : Type :=
  | ResponseValue (response : ImageJoinResponse)
  | PayloadValue (payload : Z).

Definition join_value (response : ImageJoinResponse) : JoinValue :=
  ResponseValue response.

(** C2 as the specification words it, for the successful sequence: after
    [Pending, Pending, Success(payload)] the join returns the payload. *)
Definition join_returns_payload (SUCCESS FAILURE TIMEOUT : Z) : Prop :=
  ∀ client self w img p1 p2 r fuel response w',
    image_store w !! self = Some img →
    gr_status (ijr_result p1) = 0%Z → gr_status (ijr_result p2) = 0%Z →
    gr_status (ijr_result r) = SUCCESS →
    join_answers client (trace w)
      {| ijq_image_id := image_id img; ijq_timeout := TIMEOUT |} [p1; p2; r] →
    Image.join SUCCESS FAILURE TIMEOUT fuel client self w = Some (Ok response, w') →
    join_value response = PayloadValue (gr_payload (ijr_result r)).

(** The error of a protocol violation. *)
Definition unknown_status_error (status : Z) : PyExn :=
  Exception ("Unknown status " +:+ str_of_Z status +:+ "!").

(** C7 as the specification words it: whenever one join ends on a response
    with an unrecognized status and another on a [FAILURE] response, the two
    errors differ. *)
Definition join_errors_distinguishable (SUCCESS FAILURE TIMEOUT : Z) : Prop :=
  ∀ client1 self1 w1 img1 r1 client2 self2 w2 img2 r2 fuel e1 e2 w1' w2',
    image_store w1 !! self1 = Some img1 →
    image_store w2 !! self2 = Some img2 →
    ImageJoin (stub client1) (trace w1)
      {| ijq_image_id := image_id img1; ijq_timeout := TIMEOUT |} = Ok r1 →
    ImageJoin (stub client2) (trace w2)
      {| ijq_image_id := image_id img2; ijq_timeout := TIMEOUT |} = Ok r2 →
    gr_status (ijr_result r1) ≠ 0%Z →
    gr_status (ijr_result r1) ≠ FAILURE →
    gr_status (ijr_result r1) ≠ SUCCESS →
    gr_status (ijr_result r2) = FAILURE →
    Image.join SUCCESS FAILURE TIMEOUT fuel client1 self1 w1 = Some (Raise e1, w1') →
    Image.join SUCCESS FAILURE TIMEOUT fuel client2 self2 w2 = Some (Raise e2, w2') →
    e1 ≠ e2.

(** What [Image.join] makes of a response that carries a status. *)
Definition join_outcome (SUCCESS FAILURE : Z) (r : ImageJoinResponse) : Res ImageJoinResponse :=
  let status := gr_status (ijr_result r) in
  if (status =? FAILURE)%Z then Raise (Exception (gr_exception (ijr_result r)))
  else if (status =? SUCCESS)%Z then Ok r
  else Raise (unknown_status_error status).

(** The round trips of a join that received the responses [rs]. *)
Definition join_events (req : ImageJoinRequest) (rs : list ImageJoinResponse) : list Event :=
  map (λ r, EvImageJoin req (Ok r)) rs.

Definition extend (evs : list Event) (w : World) : World :=
  {| mount_store := mount_store w; layer_store := layer_store w;
     image_store := image_store w; trace := trace w ++ evs |}.

Definition client_of (s : Stub) : Client := {| client_id := "cl-1"; stub := s |}.

Definition nothing_exists : string → bool := λ _, false.

Definition new_layer (tag : option string) (base_layers : list (string * addr))
    (dockerfile_commands : list string) : LayerObj :=
  {| layer_id := None; tag := tag; base_layers := base_layers;
     dockerfile_commands := dockerfile_commands; context_files := [] |}.

(** Layer 0 is a base layer of the layers 1 and 2; the layers 3 and 4 were
    constructed separately with the same content. *)
Definition sharing_world : World :=
  {| mount_store := [];
     layer_store :=
       [ new_layer (Some "child") [] [];
         new_layer None [("base", 0)] ["FROM base"; "RUN make left"];
         new_layer None [("base", 0)] ["FROM base"; "RUN make right"];
         new_layer (Some "twin") [] ["RUN true"];
         new_layer (Some "twin") [] ["RUN true"] ];
     image_store := []; trace := [] |}.

(** A server whose second [LayerCreate] fails. *)
Definition flaky_server : Stub :=
  {| MountCreate := λ _ _, unavailable;
     MountRegisterFile := λ _, RegEnd;
     MountUploadFile := λ _, UpReturn;
     MountDone := λ _ _, unavailable;
     LayerCreate := λ tr _,
       if count_events is_LayerCreate tr =? 1 then Raise (RpcError "deadline exceeded")
       else Ok {| lcr_layer_id := "la-" +:+ str_of_Z (Z.of_nat (count_events is_LayerCreate tr)) |};
     ImageCreate := λ _ _, unavailable;
     ImageJoin := λ _ _, unavailable |}.

(** [sharing_world] after [start] of layer 1 failed against [flaky_server]. *)
Definition after_failed_start : World :=
  Eval vm_compute in
    match Layer.start 2 (client_of flaky_server) 1 sharing_world with
    | Some (_, w) => w
    | None => sharing_world
    end.

(** C8 as the specification words it: no Mount instance is in the mounts
    lists of two distinct Image instances. *)
Definition mounts_exclusive (w : World) : Prop :=
  ∀ i j imgi imgj m,
    i ≠ j → image_store w !! i = Some imgi → image_store w !! j = Some imgj →
    m ∈ mounts imgi → m ∉ mounts imgj.

(** The events that report bytes of [f]: its hashing job, or a read for an
    upload. *)
Definition is_OpenRead_of (f : string) (e : Event) : bool :=
  match e with
  | EvHashDone f' _ | EvOpenRead f' _ => String.eqb f' f
  | _ => false
  end.

(** A working directory with two Python files and a text file.  [a.py] is
    rewritten after it has been hashed; the stand-in for SHA-256 prints the
    bytes it is given. *)
Definition test_env : Env :=
  {| walk := λ _, [("./a.py", "a.py"); ("./notes.txt", "notes.txt");
                   ("./pkg/b.py", "pkg/b.py")];
     open_read := λ tr f,
       if String.eqb f "./a.py" then
         if count_events (is_OpenRead_of f) tr =? 0
         then Ok (list_byte_of_string "print(1)")
         else Ok (list_byte_of_string "print(22)")
       else if String.eqb f "./pkg/b.py" then Ok (list_byte_of_string "pass")
       else Raise (OSError "No such file or directory");
     sha256_hex := λ data, "sha256(" +:+ string_of_list_byte data +:+ ")";
     sys_version := "3.9.7" |}.

(** [debian_slim.run_commands(['apt-get update'])] after the import. *)
Definition two_images_world : World :=
  Eval vm_compute in
    match DebianSlim.run_commands test_env debian_slim ["apt-get update"]
            (module_init test_env) with
    | Some (_, w) => w
    | None => empty_world
    end.

(** What a builder call leaves unchanged and what it adds: every object of
    [w] is still there, untouched; [new] is a new image, unrealized, whose
    layer is a new unrealized layer with the receiver's layer as its
    ['base']. *)
Definition built_from (self : addr) (w : World) (new : addr) (w' : World) : Prop :=
  mount_store w' = mount_store w ∧
  (∀ a l, layer_store w !! a = Some l → layer_store w' !! a = Some l) ∧
  (∀ a i, image_store w !! a = Some i → image_store w' !! a = Some i) ∧
  trace w' = trace w ∧
  image_store w !! new = None ∧
  ∃ receiver img l,
    image_store w !! self = Some receiver ∧
    image_store w' !! new = Some img ∧ image_id img = None ∧
    layer_store w !! layer img = None ∧
    layer_store w' !! layer img = Some l ∧ layer_id l = None ∧
    ("base", layer receiver) ∈ base_layers l.

(** A server whose upload stream breaks after the first upload. *)
Definition broken_upload_server : Stub :=
  {| MountCreate := λ _ _, Ok {| mcr_mount_id := "mo-0" |};
     MountRegisterFile := λ _, echo_register nothing_exists 8;
     MountUploadFile := λ _, UpPull (λ _, UpRaise (RpcError "connection reset"));
     MountDone := λ _ _, Ok ();
     LayerCreate := λ _ _, unavailable;
     ImageCreate := λ _ _, unavailable;
     ImageJoin := λ _ _, unavailable |}.

(** The world after the default mount failed to synchronize against it. *)
Definition after_failed_sync : World :=
  Eval vm_compute in
    match Mount.start test_env (client_of broken_upload_server)
            mount_py_in_workdir_into_root (module_init test_env) with
    | Some (_, w) => w
    | None => empty_world
    end.

(** A server whose [MountCreateResponse] leaves [mount_id] at the default
    value of a string field. *)
Definition blank_id_server : Stub :=
  {| MountCreate := λ _ _, Ok {| mcr_mount_id := "" |};
     MountRegisterFile := λ _, echo_register nothing_exists 8;
     MountUploadFile := λ _, drain_upload 8;
     MountDone := λ _ _, Ok ();
     LayerCreate := λ _ _, unavailable;
     ImageCreate := λ _ _, unavailable;
     ImageJoin := λ _ _, unavailable |}.

(** A store that already has [/root/a.py]. *)
Definition has_a_py : string → bool := String.eqb "/root/a.py".

(** The world after the default mount was synchronized with an empty store,
    and with a store that has [/root/a.py]. *)
Definition synced_world : World :=
  Eval vm_compute in
    match Mount.start test_env (client_of (server nothing_exists []))
            mount_py_in_workdir_into_root (module_init test_env) with
    | Some (_, w) => w
    | None => empty_world
    end.

Definition partly_synced_world : World :=
  Eval vm_compute in
    match Mount.start test_env (client_of (server has_a_py []))
            mount_py_in_workdir_into_root (module_init test_env) with
    | Some (_, w) => w
    | None => empty_world
    end.

(** ** Errors and their causes *)

(** The error that an event reports: a remote call that failed, a hashing
    future that raised when it was awaited, or a read for an upload that
    failed. *)
Definition failure_of (ev : Event) : option PyExn :=
  match ev with
  | EvHashDone _ (Raise e) => Some e
  | EvOpenRead _ (Raise e) => Some e
  | _ => rpc_failure ev
  end.

Definition calm (evs : list Event) : Prop :=
  Forall (λ ev, failure_of ev = None) evs.

(** The two subscripts of [_upload_file_requests] that can raise
    [KeyError]: [self._remote_to_local_filename[response.filename]], right
    after a response "does not exist", and [self._hashes[filename]], right
    after the file has been read. *)
Definition key_error_cause (ev : Event) (e : PyExn) : Prop :=
  match ev with
  | EvRegisterResponse resp => rfr_exists resp = false ∧ e = KeyError (rfr_filename resp)
  | EvOpenRead f (Ok _) => e = KeyError f
  | _ => False
  end.

(** How the result of a call relates to what the call did: either nothing
    failed, and then an error is a [KeyError] caused by the last event; or
    the last event is the first failure, and its error is the result. *)
Definition explained {A} (r : Res A) (evs : list Event) : Prop :=
  (calm evs ∧
   match r with
   | Ok _ => True
   | Raise e => ∃ evs0 ev, evs = evs0 ++ [ev] ∧ key_error_cause ev e
   end) ∨
  (∃ evs0 ev e, evs = evs0 ++ [ev] ∧ calm evs0 ∧ failure_of ev = Some e ∧ r = Raise e).

(** ** Events of the two streams *)

(** What [_upload_file_requests] appends outside a registration step. *)
Definition stream_reply (ev : Event) : Prop :=
  match ev with
  | EvRegisterResponse _ | EvOpenRead _ _ | EvUploadFile _
  | EvRegisterFailed _ | EvUploadFinished _ => True
  | _ => False
  end.

(** Events that belong to the transfer of files: a hashing future awaited,
    a registration sent, a response received, a file read for its upload,
    an upload sent. *)
Definition transfer_event (ev : Event) : Prop :=
  match ev with
  | EvHashDone _ _ | EvOpenRead _ _ | EvRegisterFile _ | EvRegisterResponse _
  | EvUploadFile _ => True
  | _ => False
  end.

(** The registration requests among some events, in order. *)
Definition registrations (evs : list Event) : list MountRegisterFileRequest :=
  omap (λ ev, match ev with EvRegisterFile q => Some q | _ => None end) evs.

(** The registration request for a file of the walk. *)
Definition registers_file (rdir mount_id : string) (p : string * string)
    (q : MountRegisterFileRequest) : Prop :=
  rfq_filename q = os_path_join rdir p.2 ∧ rfq_mount_id q = mount_id.

(** A local file that cannot be read. *)
Definition unreadable_env : Env :=
  {| walk := walk test_env;
     open_read := λ tr f,
       if String.eqb f "./pkg/b.py" then Raise (OSError "Permission denied")
       else open_read test_env tr f;
     sha256_hex := sha256_hex test_env;
     sys_version := sys_version test_env |}.

Definition after_unreadable_sync : World :=
  Eval vm_compute in
    match Mount.start unreadable_env (client_of (server nothing_exists []))
            mount_py_in_workdir_into_root (module_init unreadable_env) with
    | Some (_, w) => w
    | None => empty_world
    end.

Section RegistrationProps.

Variables (env : Env) (files : list (string * string)) (rdir mount_id : string).

(** Every registration request is the coroutine's next step after the
    hashing future of a file of the walk has returned, and carries the
    remote name of that file, the mount id, and the digest that the future
    returned (the digest of the bytes that the worker thread read). *)
Definition registration_after_hash (evs : list Event) : Prop :=
  ∀ i q, evs !! i = Some (EvRegisterFile q) →
    ∃ f rel data,
      (f, rel) ∈ files ∧
      rfq_filename q = os_path_join rdir rel ∧ rfq_mount_id q = mount_id ∧
      1 ≤ i ∧ evs !! (i - 1) = Some (EvHashDone f (Ok data)) ∧
      rfq_sha256_hex q = sha256_hex env data.

(** The registration requests so far are those of the first files of the
    walk, in order; [pending] is what is left, or nothing once the
    generator has finished. *)
Definition registered_in_order (pending : list (string * string)) (evs : list Event) : Prop :=
  ∃ done rest,
    files = done ++ rest ∧ (pending = rest ∨ pending = []) ∧
    Forall2 (registers_file rdir mount_id) done (registrations evs).

End RegistrationProps.

(** A transfer event that reports no failure. *)
Definition transfer_ok (ev : Event) : Prop := transfer_event ev ∧ failure_of ev = None.

(** A directory without Python files. *)
Definition no_py_env : Env :=
  {| walk := λ _, [("./notes.txt", "notes.txt"); ("./Makefile", "Makefile")];
     open_read := open_read test_env;
     sha256_hex := sha256_hex test_env;
     sys_version := sys_version test_env |}.

Section UnknownNames.

Variables (n0 : nat).

(** Every name in [_remote_to_local_filename] was registered in the trace,
    at or after position [n0]. *)
Definition names_registered (self : MountObj) (tr : list Event) : Prop :=
  ∀ name f, _remote_to_local_filename self !! name = Some f →
    ∃ j q, n0 ≤ j ∧ tr !! j = Some (EvRegisterFile q) ∧ rfq_filename q = name.

(** From position [from] on: a response "does not exist" for a name that
    was not registered before it ends the call with [KeyError], and is the
    last event. *)
Definition unknown_name_raises {A} (from : nat) (r : Res A) (tr' : list Event) : Prop :=
  ∀ i resp,
    from ≤ i → tr' !! i = Some (EvRegisterResponse resp) → rfr_exists resp = false →
    (∀ j q, n0 ≤ j → j < i → tr' !! j = Some (EvRegisterFile q) →
            rfq_filename q ≠ rfr_filename resp) →
    r = Raise (KeyError (rfr_filename resp)) ∧ length tr' = S i.

End UnknownNames.

(** A server that reports a file nobody registered. *)
Definition confused_server : Stub :=
  {| MountCreate := λ _ _, Ok {| mcr_mount_id := "mo-0" |};
     MountRegisterFile := λ _,
       RegPull (λ _, RegEmit {| rfr_filename := "/root/ghost.py"; rfr_exists := false |}
                       (echo_register nothing_exists 8));
     MountUploadFile := λ _, drain_upload 8;
     MountDone := λ _ _, Ok ();
     LayerCreate := λ _ _, unavailable;
     ImageCreate := λ _ _, unavailable;
     ImageJoin := λ _ _, unavailable |}.

Definition after_confused_sync : World :=
  Eval vm_compute in
    match Mount.start test_env (client_of confused_server)
            mount_py_in_workdir_into_root (module_init test_env) with
    | Some (_, w) => w
    | None => empty_world
    end.

(** ** Statements about [Image.start] *)

Definition is_ImageCreate (e : Event) : bool :=
  match e with EvImageCreate _ _ _ => true | _ => false end.

(** The steps of the synchronization of a Mount: its three RPCs with their
    messages, the hashing futures it awaits and the files it reads; never a
    layer or image RPC. *)
Definition mount_event (ev : Event) : Prop :=
  match ev with
  | EvMountCreate _ _ | EvHashDone _ _ | EvRegisterFile _ | EvRegisterResponse _
  | EvRegisterFailed _ | EvOpenRead _ _ | EvUploadFile _ | EvUploadFinished _
  | EvMountDone _ _ => True
  | EvLayerCreate _ _ _ | EvImageCreate _ _ _ | EvImageJoin _ _ => False
  end.

(** The Mount at [a] has the cached, non-empty id [id]. *)
Definition mount_cached (w : World) (a : addr) (id : string) : Prop :=
  ∃ m, mount_store w !! a = Some m ∧ mount_id m = Some id ∧ id ≠ "".

(** The Mount at [a] has some [mount_id]. *)
Definition mount_has_id (w : World) (a : addr) : Prop :=
  ∃ m, mount_store w !! a = Some m ∧ is_Some (mount_id m).

(** The two images of [two_images_world], started one after the other. *)
Definition first_image_started : World :=
  Eval vm_compute in
    match Image.start test_env 3 (client_of (server nothing_exists [])) 0 two_images_world with
    | Some (_, w) => w
    | None => empty_world
    end.

Definition both_images_started : World :=
  Eval vm_compute in
    match Image.start test_env 3 (client_of (server nothing_exists [])) 1 first_image_started with
    | Some (_, w) => w
    | None => empty_world
    end.

(** ** Statements about [Image.join], the builders and the default mount *)

(** A server that never reports a status for an image. *)
Definition never_reports (client : Client) : Prop :=
  ∀ tr req, ∃ p, ImageJoin (stub client) tr req = Ok p ∧ gr_status (ijr_result p) = 0%Z.

Definition patient_server : Stub :=
  {| MountCreate := MountCreate (server nothing_exists []);
     MountRegisterFile := MountRegisterFile (server nothing_exists []);
     MountUploadFile := MountUploadFile (server nothing_exists []);
     MountDone := MountDone (server nothing_exists []);
     LayerCreate := LayerCreate (server nothing_exists []);
     ImageCreate := ImageCreate (server nothing_exists []);
     ImageJoin := λ _ _, Ok pending |}.

(** References are not dangling: the layers form a DAG, the module-level
    Mount exists, and every image refers to a layer and to mounts of the
    store.  Python objects are like this by construction. *)
Definition well_formed (w : World) : Prop :=
  dag w ∧
  mount_py_in_workdir_into_root < length (mount_store w) ∧
  ∀ a img, image_store w !! a = Some img →
    layer img < length (layer_store w) ∧
    Forall (λ m, m < length (mount_store w)) (mounts img).

(** [well_formed], as a check on a given world. *)
Definition well_formed_check (w : World) : bool :=
  dag_check w &&
  (mount_py_in_workdir_into_root <? length (mount_store w)) &&
  forallb (λ img,
      (layer img <? length (layer_store w)) &&
      forallb (λ m, m <? length (mount_store w)) (mounts img))
    (image_store w).

(** The Mount that [import polyester.image] creates: the [.py] files of the
    working directory, mounted into [/root]. *)
Definition default_mount (m : MountObj) : Prop :=
  local_dir m = "." ∧ remote_dir m = "/root" ∧
  ∀ filename, condition m filename = String.eqb (splitext_ext filename) ".py".

(** The name ends in [.py], and the dot is not the first character of the
    last path component. *)
Definition py_file (filename : string) : Prop :=
  ∃ stem c,
    list_ascii_of_string filename = stem ++ [c; "."; "p"; "y"]%char ∧ c ≠ "/"%char.

(** The layer that [run_commands] describes, as the server is told. *)
Definition run_commands_layer (base_id : string) (commands : list string) : LayerDef :=
  {| ld_tag := None;
     ld_base_layers := [{| bl_docker_tag := "base"; bl_layer_id := base_id |}];
     ld_dockerfile_commands := "FROM base" :: map (λ command, "RUN " +:+ command) commands;
     ld_context_files := [] |}.

(** [DebianSlim(python_version='3.7')] after the import, and two builder
    calls on it. *)
Definition old_python_world : World :=
  Eval vm_compute in (DebianSlim.__init__ test_env None (Some "3.7.12") (module_init test_env)).2.

Definition old_python_numpy : World :=
  Eval vm_compute in
    match DebianSlim.add_python_packages test_env 1 ["numpy"] old_python_world with
    | Some (_, w) => w
    | None => empty_world
    end.

Definition old_python_numpy_scipy : World :=
  Eval vm_compute in
    match DebianSlim.add_python_packages test_env 2 ["scipy"] old_python_numpy with
    | Some (_, w) => w
    | None => empty_world
    end.

(** [first_image_started], and then [base_image.run_commands(['make'])]. *)
Definition extended_world : World :=
  Eval vm_compute in
    match DebianSlim.run_commands test_env debian_slim ["make"] first_image_started with
    | Some (_, w) => w
    | None => empty_world
    end.
Section LayerFacts.

Lemma count_events_app p tr1 tr2 :
  count_events p (tr1 ++ tr2) = count_events p tr1 + count_events p tr2.
Proof. unfold count_events. by rewrite List.filter_app, length_app. Qed.

Lemma new_events_refl w : new_events w w = [].
Proof. unfold new_events. apply drop_all. Qed.

Lemma new_events_app w evs w' :
  trace w' = trace w ++ evs → new_events w w' = evs.
Proof. unfold new_events. intros ->. by rewrite drop_app_length. Qed.

Lemma new_events_trans w w1 w2 :
  trace w1 = trace w ++ new_events w w1 →
  trace w2 = trace w1 ++ new_events w1 w2 →
  new_events w w2 = new_events w w1 ++ new_events w1 w2.
Proof.
  intros H1 H2. apply new_events_app. rewrite H2 at 1. rewrite H1 at 1.
  by rewrite <- app_assoc.
Qed.

Lemma new_events_log w e : new_events w (log e w) = [e].
Proof. by apply new_events_app. Qed.

Lemma same_fields_refl l : same_fields l l.
Proof. by repeat split. Qed.

Lemma same_fields_trans l1 l2 l3 :
  same_fields l1 l2 → same_fields l2 l3 → same_fields l1 l3.
Proof. unfold same_fields. intros (?&?&?&?) (?&?&?&?). repeat split; congruence. Qed.

Lemma world_le_refl w : world_le w w.
Proof.
  unfold world_le. rewrite new_events_refl, app_nil_r. repeat split; try done.
  intros b. destruct (layer_store w !! b) as [l|] eqn:E; [|done].
  exists l. split; [done|]. split; [apply same_fields_refl | done].
Qed.

Lemma world_le_trans w1 w2 w3 : world_le w1 w2 → world_le w2 w3 → world_le w1 w3.
Proof.
  intros (Hm1 & Hi1 & Hl1 & Ht1) (Hm2 & Hi2 & Hl2 & Ht2).
  split; [congruence|]. split; [congruence|]. split.
  - intros b. specialize (Hl1 b). specialize (Hl2 b).
    destruct (layer_store w1 !! b) as [l|].
    + destruct Hl1 as (l' & E' & Hf & Hid). rewrite E' in Hl2.
      destruct Hl2 as (l'' & E'' & Hf' & Hid'). exists l''. split; [done|].
      split; [by eapply same_fields_trans | auto].
    + by rewrite Hl1 in Hl2.
  - rewrite (new_events_trans w1 w2 w3) by done.
    rewrite Ht2 at 1. rewrite Ht1 at 1. by rewrite <- app_assoc.
Qed.

Lemma world_le_cached w w' b id : world_le w w' → cached w b = Some id → cached w' b = Some id.
Proof.
  intros (_ & _ & Hl & _). unfold cached. specialize (Hl b).
  destruct (layer_store w !! b) as [l|]; [|done]. simpl. intros Hid.
  destruct Hl as (l' & -> & _ & Hk). simpl. auto.
Qed.

Lemma world_le_dag w w' : world_le w w' → dag w → dag w'.
Proof.
  intros (_ & _ & Hl & _) Hd a l' E'. specialize (Hl a).
  destruct (layer_store w !! a) as [l|] eqn:E; [|congruence].
  destruct Hl as (l2 & E2 & (_ & Hb & _) & _). assert (l2 = l') as -> by congruence.
  rewrite Hb. by apply Hd.
Qed.

End LayerFacts.

Section LayerRuns.

Lemma sound_refl k w : sound k w w.
Proof.
  split; [apply world_le_refl|]. split; [done|]. rewrite new_events_refl. constructor.
Qed.

Lemma sound_mono k k' w w' : k ≤ k' → sound k w w' → sound k' w w'.
Proof.
  intros Hk (Hle & Hloc & Hev). split; [done|]. split.
  - intros b Hb. apply Hloc. lia.
  - eapply Forall_impl; [exact Hev|]. intros e (s & q & o & -> & Hs).
    exists s, q, o. split; [done | lia].
Qed.

Lemma sound_trans k w1 w2 w3 : sound k w1 w2 → sound k w2 w3 → sound k w1 w3.
Proof.
  intros (Hle1 & Hloc1 & Hev1) (Hle2 & Hloc2 & Hev2).
  split; [by eapply world_le_trans|]. split.
  - intros b Hb. rewrite Hloc2, Hloc1; done.
  - rewrite (new_events_trans w1 w2 w3); [by apply Forall_app| |].
    + by destruct Hle1 as (_&_&_&?).
    + by destruct Hle2 as (_&_&_&?).
Qed.

(** The step that ends a successful [start]: log the RPC, cache the id. *)
Lemma sound_create a l id e w :
  layer_store w !! a = Some l → layer_id l = None →
  (∃ q o, e = EvLayerCreate a q o) →
  sound (S a) w (set_layer a (with_layer_id (Some id) l) (log e w)).
Proof.
  intros El Hid (q & o & ->). split; [|split].
  - split; [done|]. split; [done|]. split.
    + intros b. simpl. destruct (decide (b = a)) as [->|Hne].
      * rewrite El. exists (with_layer_id (Some id) l). split.
        -- apply list_lookup_insert_eq. by eapply lookup_lt_Some.
        -- split; [by repeat split | congruence].
      * rewrite list_lookup_insert_ne by done.
        destruct (layer_store w !! b) as [l0|]; [|done].
        exists l0. split; [done|]. split; [apply same_fields_refl | done].
    + simpl. by rewrite (new_events_app w [EvLayerCreate a q o]).
  - intros b Hb. simpl. apply list_lookup_insert_ne. lia.
  - rewrite (new_events_app w [EvLayerCreate a q o]) by done.
    constructor; [|constructor]. exists a, q, o. split; [done | lia].
Qed.

Lemma sound_log_create a q o w : sound (S a) w (log (EvLayerCreate a q o) w).
Proof.
  split; [|split].
  - split; [done|]. split; [done|]. split.
    + intros b. simpl. destruct (layer_store w !! b) as [l0|]; [|done].
      exists l0. split; [done|]. split; [apply same_fields_refl | done].
    + simpl. by rewrite (new_events_app w [EvLayerCreate a q o]).
  - done.
  - rewrite (new_events_app w [EvLayerCreate a q o]) by done.
    constructor; [|constructor]. exists a, q, o. split; [done | lia].
Qed.

Lemma start_base_layers_sound rec k :
  (∀ b w r w', b < k → dag w → rec b w = Some (r, w') → sound (S b) w w') →
  ∀ items acc w r w',
    Forall (λ p : string * addr, p.2 < k) items → dag w →
    Layer.start_base_layers rec items acc w = Some (r, w') → sound k w w'.
Proof.
  intros Hrec. induction items as [|[t b] items IH]; intros acc w r w' Hk Hd; simpl.
  - intros [= <- <-]. apply sound_refl.
  - apply Forall_cons in Hk as [Hb Hk]. simpl in Hb.
    destruct (rec b w) as [[[id|e] w1]|] eqn:E; [| |done].
    + intros Hloop.
      assert (sound (S b) w w1) as Hs by (by eapply Hrec).
      eapply sound_trans; [eapply sound_mono; [|exact Hs]; lia|].
      eapply IH; [done| |exact Hloop].
      eapply world_le_dag; [apply Hs | done].
    + intros [= <- <-]. eapply sound_mono; [|by eapply Hrec]. lia.
Qed.

Lemma start_sound client fuel :
  ∀ a w r w', dag w → Layer.start fuel client a w = Some (r, w') → sound (S a) w w'.
Proof.
  induction fuel as [|fuel IH]; intros a w r w' Hd; simpl; [done|].
  destruct (layer_store w !! a) as [l|] eqn:El; [|done].
  destruct (layer_id l) as [id|] eqn:Hid.
  { intros [= <- <-]. apply sound_refl. }
  destruct (Layer.start_base_layers _ _ _ _) as [[[bls|e] w1]|] eqn:Eloop; [| |done].
  - assert (sound a w w1) as Hs.
    { eapply start_base_layers_sound; [|by apply Hd|done|exact Eloop].
      intros; by eapply IH. }
    assert (layer_store w1 !! a = Some l) as El1.
    { destruct Hs as (_ & Hloc & _). rewrite Hloc; [done | lia]. }
    rewrite El1.
    destruct (LayerCreate _ _ _) as [resp|e] eqn:Eout.
    + intros [= <- <-]. eapply sound_trans; [eapply sound_mono; [|exact Hs]; lia|].
      apply sound_create; eauto.
    + intros [= <- <-]. eapply sound_trans; [eapply sound_mono; [|exact Hs]; lia|].
      apply sound_log_create.
  - intros [= <- <-]. eapply sound_mono; [|eapply start_base_layers_sound; [|by apply Hd|done|exact Eloop]].
    + lia.
    + intros; by eapply IH.
Qed.

End LayerRuns.

Section LayerCounts.

Lemma counts_refl w : counts w w.
Proof.
  intros b. rewrite new_events_refl. by destruct (cached w b).
Qed.

Lemma counts_trans w1 w2 w3 :
  world_le w1 w2 → world_le w2 w3 → counts w1 w2 → counts w2 w3 → counts w1 w3.
Proof.
  intros H12 H23 C12 C23 b.
  rewrite (new_events_trans w1 w2 w3); [| by destruct H12 as (_&_&_&?) | by destruct H23 as (_&_&_&?)].
  rewrite count_events_app, C12, C23.
  pose proof (world_le_cached w1 w2 b) as M12. pose proof (world_le_cached w2 w3 b) as M23.
  destruct (cached w1 b) as [i1|], (cached w2 b) as [i2|], (cached w3 b) as [i3|];
    try done;
    try (by specialize (M12 _ H12 eq_refl));
    by specialize (M23 _ H23 eq_refl).
Qed.

Lemma cached_set_layer_eq a l w :
  a < length (layer_store w) → cached (set_layer a l w) a = layer_id l.
Proof. intros Hlt. unfold cached. simpl. by rewrite list_lookup_insert_eq. Qed.

Lemma cached_set_layer_ne a b l w : a ≠ b → cached (set_layer a l w) b = cached w b.
Proof. intros Hne. unfold cached. simpl. by rewrite list_lookup_insert_ne. Qed.

Lemma counts_create a l id q o w :
  layer_store w !! a = Some l → layer_id l = None →
  counts w (set_layer a (with_layer_id (Some id) l) (log (EvLayerCreate a q o) w)).
Proof.
  intros El Hid b. rewrite (new_events_app w [EvLayerCreate a q o]) by done.
  unfold count_events. simpl. destruct (decide (a = b)) as [<-|Hne].
  - rewrite Nat.eqb_refl. simpl.
    rewrite cached_set_layer_eq by (simpl; by eapply lookup_lt_Some).
    unfold cached. by rewrite El; simpl; rewrite Hid.
  - rewrite (proj2 (Nat.eqb_neq a b)) by done. simpl.
    rewrite cached_set_layer_ne by done.
    change (cached (log (EvLayerCreate a q o) w) b) with (cached w b).
    by destruct (cached w b).
Qed.

Lemma start_base_layers_counts rec k :
  (∀ b w r w', b < k → dag w → rec b w = Some (r, w') → sound (S b) w w') →
  (∀ b w id w', b < k → dag w → rec b w = Some (Ok id, w') →
     counts w w' ∧ cached w' b = Some id) →
  ∀ items acc w bls w',
    Forall (λ p : string * addr, p.2 < k) items → dag w →
    Layer.start_base_layers rec items acc w = Some (Ok bls, w') →
    counts w w' ∧ ∃ r, resolved w' items = Some r ∧ bls = acc ++ r.
Proof.
  intros Hsound Hrec. induction items as [|[t b] items IH]; intros acc w bls w' Hk Hd; simpl.
  - intros [= <- <-]. split; [apply counts_refl|]. exists []. by rewrite app_nil_r.
  - apply Forall_cons in Hk as [Hb Hk]. simpl in Hb.
    destruct (rec b w) as [[[id|e] w1]|] eqn:E; [|done|done].
    intros Hloop.
    destruct (Hsound _ _ _ _ Hb Hd E) as [Hle1 _].
    destruct (Hrec _ _ _ _ Hb Hd E) as [Hc1 Hid].
    assert (dag w1) as Hd1 by (by eapply world_le_dag).
    assert (sound k w1 w') as [Hle2 _]
      by (eapply start_base_layers_sound; [exact Hsound|exact Hk|done|exact Hloop]).
    destruct (IH _ _ _ _ Hk Hd1 Hloop) as (Hc2 & r & Hr & ->).
    split; [by eapply counts_trans|].
    rewrite (world_le_cached w1 w' b id), Hr by done.
    eexists. split; [done|]. by rewrite <- app_assoc.
Qed.

Lemma start_counts client fuel :
  ∀ a w id w', dag w → Layer.start fuel client a w = Some (Ok id, w') →
    counts w w' ∧ cached w' a = Some id.
Proof.
  induction fuel as [|fuel IH]; intros a w id w' Hd; simpl; [done|].
  destruct (layer_store w !! a) as [l|] eqn:El; [|done].
  destruct (layer_id l) as [id0|] eqn:Hid.
  { intros [= <- <-]. split; [apply counts_refl|]. unfold cached. by rewrite El. }
  destruct (Layer.start_base_layers _ _ _ _) as [[[bls|e] w1]|] eqn:Eloop; [|done|done].
  assert (sound a w w1) as Hs.
  { eapply start_base_layers_sound; [|by apply Hd|done|exact Eloop].
    intros; by eapply start_sound. }
  assert (counts w w1) as Hc.
  { eapply start_base_layers_counts; [| |by apply Hd|done|exact Eloop].
    - intros; by eapply start_sound.
    - intros; by eapply IH. }
  assert (layer_store w1 !! a = Some l) as El1.
  { destruct Hs as (_ & Hloc & _). rewrite Hloc; [done | lia]. }
  rewrite El1.
  destruct (LayerCreate _ _ _) as [resp|e] eqn:Eout; [|done].
  intros [= <- <-]. split.
  - eapply counts_trans; [apply Hs| |exact Hc|by apply counts_create].
    eapply sound_create; eauto.
  - rewrite cached_set_layer_eq; [done|]. simpl. by eapply lookup_lt_Some.
Qed.

(** A layer whose id is cached answers from the cache. *)
Lemma start_cached client fuel a w id :
  cached w a = Some id → Layer.start (S fuel) client a w = Some (Ok id, w).
Proof.
  unfold cached. simpl. destruct (layer_store w !! a) as [l|]; [|done]. simpl.
  by intros ->.
Qed.

Lemma start_base_layers_cons rec t b items acc w :
  Layer.start_base_layers rec ((t, b) :: items) acc w =
  match rec b w with
  | None => None
  | Some (Raise e, w1) => Some (Raise e, w1)
  | Some (Ok id, w1) =>
      Layer.start_base_layers rec items
        (acc ++ [{| bl_docker_tag := t; bl_layer_id := id |}]) w1
  end.
Proof. done. Qed.

Lemma start_base_layers_cached client fuel items :
  ∀ acc w r, resolved w items = Some r →
    Layer.start_base_layers (Layer.start (S fuel) client) items acc w = Some (Ok (acc ++ r), w).
Proof.
  induction items as [|[t b] items IH]; intros acc w r.
  - simpl. intros [= <-]. by rewrite app_nil_r.
  - rewrite start_base_layers_cons. cbn [resolved].
    destruct (cached w b) as [id|] eqn:Eb; [|done].
    destruct (resolved w items) as [r'|] eqn:Er; [|done].
    intros [= <-]. rewrite (start_cached client fuel b w id Eb).
    rewrite (IH _ _ r' Er). by rewrite <- app_assoc.
Qed.

(** One unfolding of [start] on a layer that is not realized yet. *)
Lemma start_unrealized client fuel a l w r w' :
  dag w → layer_store w !! a = Some l → layer_id l = None →
  Layer.start (S fuel) client a w = Some (r, w') →
  (∃ e, r = Raise e ∧ sound a w w') ∨
  (∃ bls w1,
      sound a w w1 ∧ counts w w1 ∧ resolved w1 (base_layers l) = Some bls ∧
      layer_store w1 !! a = Some l ∧
      let request := {| lcq_client_id := client_id client;
                        lcq_layer := Layer.layer_definition l bls |} in
      let out := LayerCreate (stub client) (trace w1) request in
      match out with
      | Ok response =>
          r = Ok (lcr_layer_id response) ∧
          w' = set_layer a (with_layer_id (Some (lcr_layer_id response)) l)
                 (log (EvLayerCreate a request out) w1)
      | Raise e => r = Raise e ∧ w' = log (EvLayerCreate a request out) w1
      end).
Proof.
  intros Hd El Hid. simpl. rewrite El, Hid.
  destruct (Layer.start_base_layers _ _ _ _) as [[[bls|e] w1]|] eqn:Eloop; [| |done].
  - assert (sound a w w1) as Hs.
    { eapply start_base_layers_sound; [|by apply Hd|done|exact Eloop].
      intros; by eapply start_sound. }
    destruct (start_base_layers_counts (Layer.start fuel client) a) with
      (items := base_layers l) (acc := @nil BaseLayer) (w := w) (bls := bls) (w' := w1)
      as (Hc & r0 & Hr & Hbls); try done.
    { intros; by eapply start_sound. }
    { intros; by eapply start_counts. }
    { by apply Hd. }
    simpl in Hbls. subst r0.
    assert (layer_store w1 !! a = Some l) as El1.
    { destruct Hs as (_ & Hloc & _). rewrite Hloc; [done | lia]. }
    rewrite El1. intros Hres. right. exists bls, w1. repeat (split; [done|]).
    simpl. destruct (LayerCreate _ _ _); by inversion Hres.
  - intros [= <- <-]. left. exists e. split; [done|].
    eapply start_base_layers_sound; [|by apply Hd|done|exact Eloop].
    intros; by eapply start_sound.
Qed.

End LayerCounts.

Section LayerJustified.

Variable client : Client.






End LayerJustified.

Section LayerJustifiedRuns.

Variable client : Client.




End LayerJustifiedRuns.

Section LayerSharing.

Variable client : Client.

Lemma resolved_cached w items r t b :
  resolved w items = Some r → (t, b) ∈ items → is_Some (cached w b).
Proof.
  revert r. induction items as [|[t' b'] items IH]; intros r; simpl.
  - intros _ Hin. by apply elem_of_nil in Hin.
  - destruct (cached w b') as [id'|] eqn:Eb; [|done].
    destruct (resolved w items) as [r'|]; [|done].
    intros _ Hin. apply elem_of_cons in Hin as [[= -> ->]|Hin]; [by rewrite Eb|].
    by eapply IH.
Qed.



Lemma start_world_le fuel a w r w' :
  dag w → Layer.start fuel client a w = Some (r, w') → world_le w w'.
Proof. intros Hd Hrun. by eapply start_sound. Qed.

End LayerSharing.


Lemma dag_from_sound ls :
  ∀ a0 i l, dag_from a0 ls = true → ls !! i = Some l →
    Forall (λ p : string * addr, p.2 < a0 + i) (base_layers l).
Proof.
  induction ls as [|l0 ls IH]; intros a0 i l; simpl; [done|].
  intros [H0 Hrest]%andb_prop. destruct i as [|i]; simpl.
  - intros [= <-]. apply Forall_forall. intros p Hp.
    rewrite forallb_forall in H0. apply list_elem_of_In in Hp.
    specialize (H0 p Hp). apply Nat.ltb_lt in H0. lia.
  - intros E. replace (a0 + S i) with (S a0 + i) by lia. by eapply IH.
Defined.

Lemma dag_check_sound w : dag_check w = true → dag w.
Proof. intros H a l E. by apply (dag_from_sound _ 0 a l H E). Defined.


Lemma resolved_ext w w' items :
  layer_store w' = layer_store w → resolved w' items = resolved w items.
Proof.
  intros E. induction items as [|[t b] items IH]; simpl; [done|].
  unfold cached. by rewrite E, IH.
Qed.

(** C10.  When [start] of the layer [a] fails on [a]'s own [LayerCreate]
    (the last thing the call did is that RPC): the error is the one of the
    RPC; the object [a] is exactly as before, with its id unset; ids that
    were cached stay cached; every base layer of [a] is realized and the
    failed request listed their ids; and a second [start] issues one RPC
    only, the same [LayerCreate] request for [a], leaving the cached ids of
    the bases in place. *)
Theorem failed_layer_create_is_retried_alone client fuel a l w e w' req out :
  dag w → layer_store w !! a = Some l →
  Layer.start fuel client a w = Some (Raise e, w') →
  last (new_events w w') = Some (EvLayerCreate a req out) →
  out = Raise e ∧
  layer_store w' !! a = Some l ∧ layer_id l = None ∧
  (∀ b id, cached w b = Some id → cached w' b = Some id) ∧
  (∃ bls, resolved w' (base_layers l) = Some bls ∧
          req = {| lcq_client_id := client_id client;
                   lcq_layer := Layer.layer_definition l bls |}) ∧
  (∀ t b, (t, b) ∈ base_layers l → is_Some (cached w' b)) ∧
  ∀ fuel', ∃ r'' w'',
    Layer.start (S (S fuel')) client a w' = Some (r'', w'') ∧
    new_events w' w'' = [EvLayerCreate a req (LayerCreate (stub client) (trace w') req)] ∧
    (∀ b id, cached w' b = Some id → cached w'' b = Some id).
Proof.
  intros Hd El Hrun Hlast.
  destruct fuel as [|fuel]; [done|].
  destruct (layer_id l) as [id0|] eqn:Hid.
  { simpl in Hrun. by rewrite El, Hid in Hrun. }
  pose proof (start_world_le client _ _ _ _ _ Hd Hrun) as Hle.
  destruct (start_unrealized client fuel a l w (Raise e) w' Hd El Hid Hrun)
    as [(e0 & He & Hs)|(bls & w1 & Hs & Hc & Hr & El1 & Hout)].
  { destruct Hs as (_ & _ & Hev). apply last_Some_elem_of in Hlast.
    rewrite Forall_forall in Hev. destruct (Hev _ Hlast) as (s & q & o & [= <- _ _] & Hlt).
    lia. }
  cbv zeta in Hout.
  destruct (LayerCreate (stub client) (trace w1) _) as [resp|e1] eqn:Eout;
    destruct Hout as [Hres ->]; [done|].
  injection Hres as <-.
  assert (new_events w (log (EvLayerCreate a
            {| lcq_client_id := client_id client;
               lcq_layer := Layer.layer_definition l bls |} (Raise e)) w1) =
          new_events w w1 ++ [EvLayerCreate a
            {| lcq_client_id := client_id client;
               lcq_layer := Layer.layer_definition l bls |} (Raise e)]) as Hnew.
  { apply new_events_app. simpl. destruct Hs as ((_ & _ & _ & Ht) & _).
    rewrite Ht at 1. by rewrite <- app_assoc. }
  rewrite Hnew, last_snoc in Hlast. injection Hlast as <- <-.
  split; [done|]. split; [done|]. split; [done|]. split.
  { intros b id. by apply world_le_cached. }
  split; [exists bls; split; [by rewrite (resolved_ext w1)|done]|]. split.
  { intros t b Hin. exact (resolved_cached w1 _ _ t b Hr Hin). }
  intros fuel'.
  set (w' := log _ w1) in *.
  set (req := {| lcq_client_id := client_id client;
                 lcq_layer := Layer.layer_definition l bls |}) in *.
  assert (Layer.start (S (S fuel')) client a w' =
          let out := LayerCreate (stub client) (trace w') req in
          let w2 := log (EvLayerCreate a req out) w' in
          match out with
          | Raise e' => Some (Raise e', w2)
          | Ok response =>
              Some (Ok (lcr_layer_id response),
                    set_layer a (with_layer_id (Some (lcr_layer_id response)) l) w2)
          end) as Hretry.
  { change (Layer.start (S (S fuel')) client a w') with
      (match layer_store w' !! a with
       | None => None
       | Some l =>
           match layer_id l with
           | Some id => Some (Ok id, w')
           | None =>
               match Layer.start_base_layers (Layer.start (S fuel') client)
                       (base_layers l) [] w' with
               | None => None
               | Some (Raise e, w1) => Some (Raise e, w1)
               | Some (Ok base_layers, w1) =>
                   match layer_store w1 !! a with
                   | None => None
                   | Some l1 =>
                       let request :=
                         {| lcq_client_id := client_id client;
                            lcq_layer := Layer.layer_definition l1 base_layers |} in
                       let out := LayerCreate (stub client) (trace w1) request in
                       let w2 := log (EvLayerCreate a request out) w1 in
                       match out with
                       | Raise e => Some (Raise e, w2)
                       | Ok response =>
                           Some (Ok (lcr_layer_id response),
                                 set_layer a (with_layer_id (Some (lcr_layer_id response)) l1) w2)
                       end
                   end
               end
           end
       end).
    change (layer_store w') with (layer_store w1). rewrite El1, Hid.
    rewrite (start_base_layers_cached client fuel' (base_layers l) [] w' bls)
      by (by rewrite (resolved_ext w1)).
    change (layer_store w') with (layer_store w1). rewrite El1. reflexivity. }
  cbv zeta in Hretry.
  destruct (LayerCreate (stub client) (trace w') req) as [resp|e'] eqn:Eout'.
  - eexists _, _. split; [exact Hretry|]. split.
    + by apply new_events_app.
    + intros b id. apply world_le_cached.
      eapply (sound_create a l (lcr_layer_id resp)); eauto.
  - eexists _, _. split; [exact Hretry|].
    split; [by apply new_events_app|].
    intros b id. by apply world_le_cached, sound_log_create.
Qed.

Lemma failed_layer_create_is_retried_alone_witness :
  let client := client_of flaky_server in
  let l := new_layer None [("base", 0)] ["FROM base"; "RUN make left"] in
  Layer.start 2 client 1 sharing_world =
    Some (Raise (RpcError "deadline exceeded"), after_failed_start) ∧
  ∃ req,
    layer_store after_failed_start !! 1 = Some l ∧
    (∀ t b, (t, b) ∈ base_layers l → is_Some (cached after_failed_start b)) ∧
    ∀ fuel', ∃ r'' w'',
      Layer.start (S (S fuel')) client 1 after_failed_start = Some (r'', w'') ∧
      new_events after_failed_start w'' =
        [EvLayerCreate 1 req (LayerCreate (stub client) (trace after_failed_start) req)] ∧
      (∀ b id, cached after_failed_start b = Some id → cached w'' b = Some id).
Proof.
  intros client l. split; [reflexivity|]. eexists.
  edestruct (failed_layer_create_is_retried_alone client 2 1 l sharing_world
               (RpcError "deadline exceeded") after_failed_start)
    as (_ & H1 & _ & _ & _ & H2 & H3);
    [exact (dag_check_sound sharing_world eq_refl)|reflexivity|reflexivity|reflexivity|].
  split; [exact H1|]. split; [exact H2|exact H3].
Defined.

Section LayerTotal.

Variable client : Client.

Lemma world_le_lookup_lt w w' a :
  world_le w w' → a < length (layer_store w) → a < length (layer_store w').
Proof.
  intros (_ & _ & Hl & _) Hlt. specialize (Hl a).
  destruct (layer_store w !! a) as [l|] eqn:E.
  - destruct Hl as (l' & E' & _). by eapply lookup_lt_Some.
  - apply lookup_ge_None in E. lia.
Qed.

Lemma start_base_layers_total rec k :
  (∀ b w r w', b < k → dag w → rec b w = Some (r, w') → sound (S b) w w') →
  (∀ b w, b < k → dag w → b < length (layer_store w) → is_Some (rec b w)) →
  ∀ items acc w,
    Forall (λ p : string * addr, p.2 < k ∧ p.2 < length (layer_store w)) items → dag w →
    is_Some (Layer.start_base_layers rec items acc w).
Proof.
  intros Hsound Htotal. induction items as [|[t b] items IH]; intros acc w Hk Hd.
  - by eexists.
  - rewrite start_base_layers_cons. apply Forall_cons in Hk as [[Hb Hlen] Hk]. simpl in *.
    destruct (Htotal b w Hb Hd Hlen) as [[[id|e] w1] E]; rewrite E; [|by eexists].
    destruct (Hsound _ _ _ _ Hb Hd E) as [Hle _].
    apply IH; [|by eapply world_le_dag].
    eapply Forall_impl; [exact Hk|]. intros p [? ?]. split; [done|].
    by eapply world_le_lookup_lt.
Qed.

(** [start] returns: on a DAG, fuel above the address of the layer is
    enough. *)
Lemma start_total fuel :
  ∀ a w, dag w → a < length (layer_store w) → a < fuel →
    is_Some (Layer.start fuel client a w).
Proof.
  induction fuel as [|fuel IH]; intros a w Hd Hlen Hfuel; [lia|]. simpl.
  destruct (lookup_lt_is_Some_2 _ _ Hlen) as [l El]. rewrite El.
  destruct (layer_id l) as [id|] eqn:Hid; [by eexists|].
  destruct (start_base_layers_total (Layer.start fuel client) a) with
    (items := base_layers l) (acc := @nil BaseLayer) (w := w) as [[[bls|e] w1] Eloop].
  - intros; by eapply start_sound.
  - intros b w0 Hb Hd0 Hlen0. apply IH; [done|done|lia].
  - eapply Forall_impl; [by apply Hd|]. simpl. intros p Hp. split; [done|lia].
  - done.
  - rewrite Eloop.
    assert (sound a w w1) as Hs.
    { eapply start_base_layers_sound; [|by apply Hd|done|exact Eloop].
      intros; by eapply start_sound. }
    assert (layer_store w1 !! a = Some l) as El1.
    { destruct Hs as (_ & Hloc & _). rewrite Hloc; [done | lia]. }
    rewrite El1. destruct (LayerCreate _ _ _); by eexists.
  - rewrite Eloop. by eexists.
Qed.

(** The constructor keeps the store a DAG when the base layers exist. *)
Lemma Layer_init_dag tag base_layers dockerfile_commands context_files w :
  dag w →
  Forall (λ p : string * addr, p.2 < length (layer_store w)) base_layers →
  dag (Layer.__init__ tag base_layers dockerfile_commands context_files w).2.
Proof.
  intros Hd Hb a l. simpl. intros E.
  destruct (decide (a < length (layer_store w))) as [Hlt|Hge].
  - rewrite lookup_app_l in E by done. by apply Hd.
  - rewrite lookup_app_r in E by lia.
    destruct (a - length (layer_store w)) as [|n] eqn:En; [|done].
    injection E as <-. simpl. eapply Forall_impl; [exact Hb|]. simpl. intros p Hp. lia.
Qed.

End LayerTotal.

Section ImageStart.

Context (env : Env).

(** [Mount.start] touches the mount store and the trace only. *)
Lemma mount_start_stores client self w r w' :
  Mount.start env client self w = Some (r, w') →
  layer_store w' = layer_store w ∧ image_store w' = image_store w.
Proof.
  unfold Mount.start. destruct (mount_store w !! self) as [m|]; [|done].
  destruct (Mount.start_obj env client m (trace w)) as [[r0 m0] tr0].
  by intros [= <- <-].
Qed.

(** An error of a mount ends [Image.start] with that error; the image is
    not marked realized. *)
Lemma image_start_mount_failure fuel client self w img layer_id w1 e w2 :
  image_store w !! self = Some img → image_id img = None →
  Layer.start fuel client (layer img) w = Some (Ok layer_id, w1) →
  Image.start_mounts env client (mounts img) [] w1 = Some (Raise e, w2) →
  Image.start env fuel client self w = Some (Raise e, w2).
Proof.
  intros Ei Hid Hl Hm. unfold Image.start. by rewrite Ei, Hid, Hl, Hm.
Qed.

End ImageStart.

(** * [Image.join] *)

Section JoinFacts.

Variables (SUCCESS FAILURE TIMEOUT : Z).
Variables (client : Client) (self : addr).

Let join := Image.join SUCCESS FAILURE TIMEOUT.

Lemma join_step fuel w img :
  image_store w !! self = Some img →
  join (S fuel) client self w =
    let request := {| ijq_image_id := image_id img; ijq_timeout := TIMEOUT |} in
    let out := ImageJoin (stub client) (trace w) request in
    let w1 := log (EvImageJoin request out) w in
    match out with
    | Raise e => Some (Raise e, w1)
    | Ok response =>
        let status := gr_status (ijr_result response) in
        if (status =? 0)%Z then join fuel client self w1
        else if (status =? FAILURE)%Z then
          Some (Raise (Exception (gr_exception (ijr_result response))), w1)
        else if (status =? SUCCESS)%Z then Some (Ok response, w1)
        else Some (Raise (unknown_status_error status), w1)
    end.
Proof. intros E. unfold join. simpl. by rewrite E. Qed.

(** A poll that finds no status costs one round trip and polls again. *)
Lemma join_pending fuel w img r :
  image_store w !! self = Some img →
  let request := {| ijq_image_id := image_id img; ijq_timeout := TIMEOUT |} in
  ImageJoin (stub client) (trace w) request = Ok r →
  gr_status (ijr_result r) = 0%Z →
  join (S fuel) client self w = join fuel client self (log (EvImageJoin request (Ok r)) w).
Proof.
  intros E request Hr Hs. rewrite (join_step fuel w img E). cbv zeta.
  fold request. rewrite Hr, Hs. done.
Qed.

Lemma join_failure fuel w img r :
  image_store w !! self = Some img →
  let request := {| ijq_image_id := image_id img; ijq_timeout := TIMEOUT |} in
  ImageJoin (stub client) (trace w) request = Ok r →
  FAILURE ≠ 0%Z → gr_status (ijr_result r) = FAILURE →
  join (S fuel) client self w =
    Some (Raise (Exception (gr_exception (ijr_result r))), log (EvImageJoin request (Ok r)) w).
Proof.
  intros E request Hr Hnz Hs. rewrite (join_step fuel w img E). cbv zeta.
  fold request. rewrite Hr, Hs.
  rewrite (proj2 (Z.eqb_neq FAILURE 0)) by done. by rewrite Z.eqb_refl.
Qed.

Lemma join_success fuel w img r :
  image_store w !! self = Some img →
  let request := {| ijq_image_id := image_id img; ijq_timeout := TIMEOUT |} in
  ImageJoin (stub client) (trace w) request = Ok r →
  SUCCESS ≠ 0%Z → SUCCESS ≠ FAILURE → gr_status (ijr_result r) = SUCCESS →
  join (S fuel) client self w = Some (Ok r, log (EvImageJoin request (Ok r)) w).
Proof.
  intros E request Hr Hnz Hne Hs. rewrite (join_step fuel w img E). cbv zeta.
  fold request. rewrite Hr, Hs.
  rewrite (proj2 (Z.eqb_neq SUCCESS 0)) by done.
  rewrite (proj2 (Z.eqb_neq SUCCESS FAILURE)) by done. by rewrite Z.eqb_refl.
Qed.

Lemma join_unknown fuel w img r :
  image_store w !! self = Some img →
  let request := {| ijq_image_id := image_id img; ijq_timeout := TIMEOUT |} in
  ImageJoin (stub client) (trace w) request = Ok r →
  gr_status (ijr_result r) ≠ 0%Z → gr_status (ijr_result r) ≠ FAILURE →
  gr_status (ijr_result r) ≠ SUCCESS →
  join (S fuel) client self w =
    Some (Raise (unknown_status_error (gr_status (ijr_result r))),
          log (EvImageJoin request (Ok r)) w).
Proof.
  intros E request Hr H0 HF HS. rewrite (join_step fuel w img E). cbv zeta.
  fold request. rewrite Hr.
  rewrite (proj2 (Z.eqb_neq _ 0)) by done.
  rewrite (proj2 (Z.eqb_neq _ FAILURE)) by done.
  by rewrite (proj2 (Z.eqb_neq _ SUCCESS)) by done.
Qed.

End JoinFacts.

Section JoinRuns.

Variables (SUCCESS FAILURE TIMEOUT : Z).
Variables (client : Client) (self : addr).

(** Any number of status-less responses followed by one with a status: the
    join ends on that response, after one round trip per response. *)
Lemma join_run ps r :
  ∀ w img fuel,
    image_store w !! self = Some img →
    let request := {| ijq_image_id := image_id img; ijq_timeout := TIMEOUT |} in
    Forall (λ p, gr_status (ijr_result p) = 0%Z) ps →
    gr_status (ijr_result r) ≠ 0%Z →
    join_answers client (trace w) request (ps ++ [r]) →
    length ps < fuel →
    Image.join SUCCESS FAILURE TIMEOUT fuel client self w =
      Some (join_outcome SUCCESS FAILURE r, extend (join_events request (ps ++ [r])) w).
Proof.
  induction ps as [|p ps IH]; intros w img fuel E request Hps Hr Hans Hfuel.
  - destruct fuel as [|fuel]; [simpl in Hfuel; lia|].
    destruct Hans as [Hans _].
    rewrite (join_step SUCCESS FAILURE TIMEOUT client self fuel w img E). cbv zeta.
    fold request. rewrite Hans. cbv beta iota zeta.
    destruct (Z.eqb_spec (gr_status (ijr_result r)) 0) as [|_]; [done|].
    unfold join_outcome. cbv zeta.
    by destruct (gr_status (ijr_result r) =? FAILURE)%Z,
                (gr_status (ijr_result r) =? SUCCESS)%Z.
  - destruct fuel as [|fuel]; [simpl in Hfuel; lia|].
    apply Forall_cons in Hps as [Hp Hps]. destruct Hans as [Hans1 Hans].
    rewrite (join_pending SUCCESS FAILURE TIMEOUT client self fuel w img p E Hans1 Hp).
    fold request.
    rewrite (IH (log (EvImageJoin request (Ok p)) w) img fuel E Hps Hr Hans)
      by (simpl in Hfuel; lia).
    fold request. f_equal. f_equal. unfold extend, log. simpl. f_equal.
    by rewrite <- app_assoc.
Qed.

End JoinRuns.

(** C2, as the code has it.  For every image and every history: the
    responses [Pending, Pending, Success] make [join] return the success
    response itself, the whole message as the server sent it (so a payload
    of 42 is found inside it, not returned in its place), after exactly
    three round trips; [Pending, Failure("boom")] make it raise an exception
    carrying ["boom"] after exactly two; and a response with an unrecognized
    status, after any number of pending ones, makes it raise the
    unknown-status error at once: that response is the last round trip. *)
Theorem join_poll_sequences (SUCCESS FAILURE TIMEOUT : Z) client self w img :
  SUCCESS ≠ 0%Z → FAILURE ≠ 0%Z → SUCCESS ≠ FAILURE →
  image_store w !! self = Some img →
  let request := {| ijq_image_id := image_id img; ijq_timeout := TIMEOUT |} in
  let join := Image.join SUCCESS FAILURE TIMEOUT in
  (∀ p1 p2 r fuel,
      gr_status (ijr_result p1) = 0%Z → gr_status (ijr_result p2) = 0%Z →
      gr_status (ijr_result r) = SUCCESS →
      join_answers client (trace w) request [p1; p2; r] → 3 ≤ fuel →
      ∃ w',
        join fuel client self w = Some (Ok r, w') ∧
        new_events w w' = join_events request [p1; p2; r] ∧
        count_events is_ImageJoin (new_events w w') = 3) ∧
  (∀ p1 r fuel,
      gr_status (ijr_result p1) = 0%Z →
      gr_status (ijr_result r) = FAILURE → gr_exception (ijr_result r) = "boom" →
      join_answers client (trace w) request [p1; r] → 2 ≤ fuel →
      ∃ w',
        join fuel client self w = Some (Raise (Exception "boom"), w') ∧
        new_events w w' = join_events request [p1; r] ∧
        count_events is_ImageJoin (new_events w w') = 2) ∧
  (∀ ps r fuel,
      Forall (λ p, gr_status (ijr_result p) = 0%Z) ps →
      gr_status (ijr_result r) ≠ 0%Z → gr_status (ijr_result r) ≠ FAILURE →
      gr_status (ijr_result r) ≠ SUCCESS →
      join_answers client (trace w) request (ps ++ [r]) → length ps < fuel →
      ∃ w',
        join fuel client self w =
          Some (Raise (unknown_status_error (gr_status (ijr_result r))), w') ∧
        new_events w w' = join_events request (ps ++ [r]) ∧
        last (new_events w w') = Some (EvImageJoin request (Ok r))).
Proof.
  intros HS HF HSF E request join. repeat split.
  - intros p1 p2 r fuel H1 H2 Hr Hans Hfuel.
    exists (extend (join_events request [p1; p2; r]) w).
    unfold join.
    rewrite (join_run SUCCESS FAILURE TIMEOUT client self [p1; p2] r w img fuel E);
      [|by repeat constructor|congruence|done|simpl; lia].
    fold request. unfold join_outcome. rewrite Hr.
    rewrite (proj2 (Z.eqb_neq SUCCESS FAILURE)), Z.eqb_refl by done.
    by rewrite (new_events_app w (join_events request [p1; p2; r])).
  - intros p1 r fuel H1 Hr Hb Hans Hfuel.
    exists (extend (join_events request [p1; r]) w).
    unfold join.
    rewrite (join_run SUCCESS FAILURE TIMEOUT client self [p1] r w img fuel E);
      [|by repeat constructor|congruence|done|simpl; lia].
    fold request. unfold join_outcome. rewrite Hr, Z.eqb_refl, Hb.
    by rewrite (new_events_app w (join_events request [p1; r])).
  - intros ps r fuel Hps H0 HnF HnS Hans Hfuel.
    exists (extend (join_events request (ps ++ [r])) w).
    unfold join.
    rewrite (join_run SUCCESS FAILURE TIMEOUT client self ps r w img fuel E) by done.
    fold request. unfold join_outcome.
    rewrite (proj2 (Z.eqb_neq _ FAILURE)), (proj2 (Z.eqb_neq _ SUCCESS)) by done.
    rewrite (new_events_app w (join_events request (ps ++ [r]))) by done.
    repeat split. unfold join_events. rewrite map_app. apply last_snoc.
Qed.

Lemma join_poll_sequences_witness :
  (∃ w',
      Image.join 1 2 60 3
        (client_of (server nothing_exists [pending; pending; result 1 "" 42]))
        0 realized_image_world = Some (Ok (result 1 "" 42), w') ∧
      count_events is_ImageJoin (new_events realized_image_world w') = 3) ∧
  (∃ w',
      Image.join 1 2 60 2
        (client_of (server nothing_exists [pending; result 2 "boom" 0]))
        0 realized_image_world = Some (Raise (Exception "boom"), w') ∧
      count_events is_ImageJoin (new_events realized_image_world w') = 2) ∧
  (∃ w',
      Image.join 1 2 60 1
        (client_of (server nothing_exists [result 7 "" 0]))
        0 realized_image_world = Some (Raise (Exception "Unknown status 7!"), w') ∧
      count_events is_ImageJoin (new_events realized_image_world w') = 1).
Proof.
  split; [|split].
  - destruct (join_poll_sequences 1 2 60
                (client_of (server nothing_exists [pending; pending; result 1 "" 42]))
                0 realized_image_world _ ltac:(done) ltac:(done) ltac:(done) eq_refl)
      as (H & _ & _).
    destruct (H pending pending (result 1 "" 42) 3) as (w' & Hj & _ & Hn);
      [done|done|done|by repeat split|lia|].
    by exists w'.
  - destruct (join_poll_sequences 1 2 60
                (client_of (server nothing_exists [pending; result 2 "boom" 0]))
                0 realized_image_world _ ltac:(done) ltac:(done) ltac:(done) eq_refl)
      as (_ & H & _).
    destruct (H pending (result 2 "boom" 0) 2) as (w' & Hj & _ & Hn);
      [done|done|done|by repeat split|lia|].
    by exists w'.
  - destruct (join_poll_sequences 1 2 60
                (client_of (server nothing_exists [result 7 "" 0]))
                0 realized_image_world _ ltac:(done) ltac:(done) ltac:(done) eq_refl)
      as (_ & _ & H).
    destruct (H [] (result 7 "" 0) 1) as (w' & Hj & Hn & _);
      [done|done|done|done|by repeat split|simpl; lia|].
    exists w'. split; [exact Hj|]. by rewrite Hn.
Defined.

(** C2 as worded fails: after [Pending, Pending, Success(payload=42)] the
    caller holds the response message, not the number 42. *)
Lemma join_returns_response_not_payload : ¬ join_returns_payload 1 2 60.
Proof.
  intros H.
  specialize (H (client_of (server nothing_exists [pending; pending; result 1 "" 42]))
                0 realized_image_world _ pending pending (result 1 "" 42) 3
                (result 1 "" 42) _ eq_refl eq_refl eq_refl eq_refl
                (conj eq_refl (conj eq_refl (conj eq_refl I))) eq_refl).
  discriminate H.
Qed.

(** C7, as the code has it.  A response with an unrecognized status ends
    the join at once, on that round trip (it is neither retried nor taken
    for a pending one), with a plain [Exception] whose message is
    ["Unknown status <value>!"].  A [FAILURE] response raises the same class
    of exception with the remote diagnostic as its message, so the two
    errors are told apart by their message only: they are equal exactly when
    the diagnostic reads ["Unknown status <value>!"]. *)
Theorem join_unknown_status_error (SUCCESS FAILURE TIMEOUT : Z)
    client self w img r fuel :
  image_store w !! self = Some img →
  let request := {| ijq_image_id := image_id img; ijq_timeout := TIMEOUT |} in
  ImageJoin (stub client) (trace w) request = Ok r →
  gr_status (ijr_result r) ≠ 0%Z → gr_status (ijr_result r) ≠ FAILURE →
  gr_status (ijr_result r) ≠ SUCCESS →
  Image.join SUCCESS FAILURE TIMEOUT (S fuel) client self w =
    Some (Raise (Exception ("Unknown status " +:+ str_of_Z (gr_status (ijr_result r)) +:+ "!")),
          log (EvImageJoin request (Ok r)) w) ∧
  ∀ client2 self2 w2 img2 r2 fuel2,
    image_store w2 !! self2 = Some img2 →
    let request2 := {| ijq_image_id := image_id img2; ijq_timeout := TIMEOUT |} in
    ImageJoin (stub client2) (trace w2) request2 = Ok r2 →
    FAILURE ≠ 0%Z → gr_status (ijr_result r2) = FAILURE →
    ∃ e2,
      Image.join SUCCESS FAILURE TIMEOUT (S fuel2) client2 self2 w2 =
        Some (Raise e2, log (EvImageJoin request2 (Ok r2)) w2) ∧
      e2 = Exception (gr_exception (ijr_result r2)) ∧
      (e2 = unknown_status_error (gr_status (ijr_result r)) ↔
       gr_exception (ijr_result r2) =
         "Unknown status " +:+ str_of_Z (gr_status (ijr_result r)) +:+ "!").
Proof.
  intros E request Hr H0 HF HS. split.
  - by apply join_unknown.
  - intros client2 self2 w2 img2 r2 fuel2 E2 request2 Hr2 HF0 Hs2.
    exists (Exception (gr_exception (ijr_result r2))). split; [|split; [done|]].
    + by apply join_failure.
    + unfold unknown_status_error. split; [by intros [= ->] | by intros ->].
Qed.

Lemma join_unknown_status_error_witness :
  Image.join 1 2 60 1 (client_of (server nothing_exists [result 7 "" 0]))
    0 realized_image_world =
    Some (Raise (Exception "Unknown status 7!"),
          log (EvImageJoin {| ijq_image_id := Some "im-7"; ijq_timeout := 60 |}
                 (Ok (result 7 "" 0))) realized_image_world).
Proof.
  apply (join_unknown_status_error 1 2 60
           (client_of (server nothing_exists [result 7 "" 0])) 0 realized_image_world
           _ (result 7 "" 0) 0 eq_refl eq_refl); done.
Defined.

(** C7 as worded fails: a build that failed with the diagnostic
    ["Unknown status 7!"] and a response with the unrecognized status 7
    raise equal exceptions. *)
Lemma join_errors_not_distinguishable : ¬ join_errors_distinguishable 1 2 60.
Proof.
  intros H.
  eapply (H (client_of (server nothing_exists [result 7 "" 0])) 0 realized_image_world _
            (result 7 "" 0)
            (client_of (server nothing_exists [result 2 "Unknown status 7!" 0])) 0
            realized_image_world _ (result 2 "Unknown status 7!" 0)
            1 (Exception "Unknown status 7!") (Exception "Unknown status 7!"));
    reflexivity || done.
Qed.

(** * [DebianSlim] and its builders *)

(** The default mount takes the files whose extension is [.py]. *)
Example splitext_ext_examples :
  splitext_ext "./pkg/mod.py" = ".py" ∧ splitext_ext "./.hidden" = "" ∧
  splitext_ext "./a.d/file" = "" ∧ splitext_ext "x.tar.gz" = ".gz" ∧
  splitext_ext "..py" = "".
Proof. repeat split. Qed.

Section Builders.

Variable env : Env.

Lemma lookup_snoc_new {A} (l : list A) (x : A) : (l ++ [x]) !! length l = Some x.
Proof. by rewrite lookup_app_r, Nat.sub_diag. Qed.

Lemma lookup_snoc_old {A} (l : list A) (x y : A) a :
  l !! a = Some y → (l ++ [x]) !! a = Some y.
Proof. intros E. by apply lookup_app_l_Some. Qed.

Lemma lookup_length_None {A} (l : list A) : l !! length l = None.
Proof. by apply lookup_ge_None. Qed.

Lemma DebianSlim_init_spec layer w new w' :
  DebianSlim.__init__ env (Some layer) None w = (new, w') →
  new = length (image_store w) ∧
  mount_store w' = mount_store w ∧ layer_store w' = layer_store w ∧
  trace w' = trace w ∧
  image_store w' = image_store w ++
    [{| layer := layer; mounts := [mount_py_in_workdir_into_root]; image_id := None;
        python_version := Some (sys_version env) |}].
Proof. unfold DebianSlim.__init__, Image.__init__. simpl. by intros [= <- <-]. Qed.

(** What the builders return, in full. *)
Lemma add_python_packages_spec self python_packages w receiver version :
  image_store w !! self = Some receiver → python_version receiver = Some version →
  DebianSlim.add_python_packages env self python_packages w =
    Some (length (image_store w),
          {| mount_store := mount_store w;
             layer_store := layer_store w ++
               [new_layer (Some ("python-" +:+ version +:+ "-slim-buster-builder")) [] [];
                new_layer None
                  [("base", layer receiver); ("builder", length (layer_store w))]
                  [ "FROM builder as builder-vehicle";
                    "RUN pip wheel " +:+ String.concat " " python_packages +:+
                      " -w /tmp/wheels";
                    "FROM base";
                    "COPY --from=builder-vehicle /tmp/wheels /tmp/wheels";
                    "RUN pip install /tmp/wheels/*";
                    "RUN rm -rf /tmp/wheels" ]];
             image_store := image_store w ++
               [{| layer := S (length (layer_store w));
                   mounts := [mount_py_in_workdir_into_root]; image_id := None;
                   python_version := Some (sys_version env) |}];
             trace := trace w |}).
Proof.
  intros E Hv. unfold DebianSlim.add_python_packages. rewrite E, Hv.
  unfold DebianSlim.__init__, Image.__init__, Layer.__init__, new_layer. simpl.
  rewrite length_app, <- app_assoc. simpl. by rewrite Nat.add_1_r.
Qed.

Lemma run_commands_spec self commands w receiver :
  image_store w !! self = Some receiver →
  DebianSlim.run_commands env self commands w =
    Some (length (image_store w),
          {| mount_store := mount_store w;
             layer_store := layer_store w ++
               [new_layer None [("base", layer receiver)]
                  ("FROM base" :: map (λ command, "RUN " +:+ command) commands)];
             image_store := image_store w ++
               [{| layer := length (layer_store w);
                   mounts := [mount_py_in_workdir_into_root]; image_id := None;
                   python_version := Some (sys_version env) |}];
             trace := trace w |}).
Proof. intros E. unfold DebianSlim.run_commands. by rewrite E. Qed.

End Builders.

(** C9.  On every image, [run_commands] returns, and on every
    [DebianSlim] image (one that has a [python_version])
    [add_python_packages] returns; the call leaves every existing object as
    it was (mounts, layers with their cached ids, images with theirs, the
    receiver among them, and the trace: no RPC is made) and what it returns
    is a new image, unrealized, whose new layer has the receiver's layer as
    its ['base']. *)
Theorem builders_do_not_mutate env self w receiver :
  image_store w !! self = Some receiver →
  (∀ version python_packages,
      python_version receiver = Some version →
      ∃ new w',
        DebianSlim.add_python_packages env self python_packages w = Some (new, w') ∧
        built_from self w new w') ∧
  (∀ commands,
      ∃ new w',
        DebianSlim.run_commands env self commands w = Some (new, w') ∧
        built_from self w new w').
Proof.
  intros E. split.
  - intros version pkgs Hv. eexists _, _.
    split; [by apply add_python_packages_spec|].
    unfold built_from. simpl.
    split; [done|]. split.
    { intros a l El. by apply lookup_app_l_Some. }
    split. { intros a i Ei. by apply lookup_snoc_old. }
    split; [done|]. split; [apply lookup_length_None|].
    eexists receiver, _, _. split; [done|]. split; [apply lookup_snoc_new|].
    split; [done|]. simpl. split.
    { apply lookup_ge_None. lia. }
    split.
    { rewrite lookup_app_r by lia. by replace (S (length (layer_store w)) -
        length (layer_store w)) with 1 by lia. }
    split; [done|]. simpl. apply elem_of_cons. by left.
  - intros cmds. eexists _, _.
    split; [by apply run_commands_spec|].
    unfold built_from. simpl.
    split; [done|]. split.
    { intros a l El. by apply lookup_snoc_old. }
    split. { intros a i Ei. by apply lookup_snoc_old. }
    split; [done|]. split; [apply lookup_length_None|].
    eexists receiver, _, _. split; [done|]. split; [apply lookup_snoc_new|].
    split; [done|]. simpl. split; [apply lookup_length_None|].
    split; [apply lookup_snoc_new|].
    split; [done|]. simpl. apply elem_of_cons. by left.
Qed.

Lemma builders_do_not_mutate_witness :
  (∃ new w',
      DebianSlim.run_commands test_env debian_slim ["apt-get update"]
        (module_init test_env) = Some (new, w') ∧
      built_from debian_slim (module_init test_env) new w') ∧
  (∃ new w',
      DebianSlim.add_python_packages test_env 1 ["numpy"; "scipy"] two_images_world =
        Some (new, w') ∧
      built_from 1 two_images_world new w').
Proof.
  split.
  - apply (proj2 (builders_do_not_mutate test_env debian_slim (module_init test_env) _
                    eq_refl) ["apt-get update"]).
  - apply (proj1 (builders_do_not_mutate test_env 1 two_images_world _ eq_refl)
             "3.9.7" ["numpy"; "scipy"] eq_refl).
Defined.

(** C8, as the code has it.  Every image that [DebianSlim] constructs, by
    its constructor or by a builder, has the module-level Mount
    [mount_py_in_workdir_into_root] as its only mount; so does [debian_slim]
    itself.  That one Mount instance is therefore in the mounts list of
    every such image, and the builders return images that did not exist
    before. *)
Theorem debian_slim_images_share_default_mount env :
  (∀ layer python_version w new w',
      DebianSlim.__init__ env layer python_version w = (new, w') →
      image_store w !! new = None ∧
      ∃ img, image_store w' !! new = Some img ∧
             mounts img = [mount_py_in_workdir_into_root]) ∧
  (∀ self python_packages w new w',
      DebianSlim.add_python_packages env self python_packages w = Some (new, w') →
      image_store w !! new = None ∧
      ∃ img, image_store w' !! new = Some img ∧
             mounts img = [mount_py_in_workdir_into_root]) ∧
  (∀ self commands w new w',
      DebianSlim.run_commands env self commands w = Some (new, w') →
      image_store w !! new = None ∧
      ∃ img, image_store w' !! new = Some img ∧
             mounts img = [mount_py_in_workdir_into_root]) ∧
  ∃ img m,
    image_store (module_init env) !! debian_slim = Some img ∧
    mounts img = [mount_py_in_workdir_into_root] ∧
    mount_store (module_init env) !! mount_py_in_workdir_into_root = Some m ∧
    local_dir m = "." ∧ remote_dir m = "/root" ∧ mount_id m = None.
Proof.
  assert (∀ layer python_version w new w',
      DebianSlim.__init__ env layer python_version w = (new, w') →
      image_store w !! new = None ∧
      ∃ img, image_store w' !! new = Some img ∧
             mounts img = [mount_py_in_workdir_into_root]) as Hinit.
  { intros layer pv w new w'. unfold DebianSlim.__init__, Image.__init__, Layer.__init__.
    destruct layer as [l|]; simpl; intros [= <- <-]; simpl.
    all: split; [apply lookup_length_None|].
    all: eexists; split; [apply lookup_snoc_new|done]. }
  split; [exact Hinit|]. split; [|split].
  - intros self pkgs w new w'. unfold DebianSlim.add_python_packages.
    destruct (image_store w !! self) as [receiver|]; [|done].
    destruct (python_version receiver) as [version|]; [|done].
    unfold Layer.__init__. cbn [layer_store mount_store image_store trace length].
    match goal with
    | |- Some ?t = _ → _ => intros Hsome; assert (t = (new, w')) as H by congruence
    end.
    by apply Hinit in H.
  - intros self cmds w new w'. unfold DebianSlim.run_commands.
    destruct (image_store w !! self) as [receiver|]; [|done].
    unfold Layer.__init__. cbn [layer_store mount_store image_store trace length].
    match goal with
    | |- Some ?t = _ → _ => intros Hsome; assert (t = (new, w')) as H by congruence
    end.
    by apply Hinit in H.
  - eexists _, _. by repeat split.
Qed.

Lemma debian_slim_images_share_default_mount_witness :
  ∃ img0 img1,
    image_store two_images_world !! 0 = Some img0 ∧
    image_store two_images_world !! 1 = Some img1 ∧
    mounts img0 = [mount_py_in_workdir_into_root] ∧
    mounts img1 = [mount_py_in_workdir_into_root].
Proof.
  destruct (debian_slim_images_share_default_mount test_env) as (_ & _ & Hrun & _).
  destruct (Hrun debian_slim ["apt-get update"] (module_init test_env) 1 two_images_world)
    as (_ & img1 & E1 & M1); [reflexivity|].
  eexists _, img1. split; [reflexivity|]. split; [exact E1|]. split; [reflexivity|exact M1].
Defined.

(** C8 as worded fails: after [debian_slim.run_commands(...)] the default
    mount is in the mounts lists of two distinct images. *)
Lemma default_mount_in_two_images : ¬ mounts_exclusive two_images_world.
Proof.
  intros H.
  eapply (H 0 1 _ _ mount_py_in_workdir_into_root); [lia|reflexivity|reflexivity| |].
  - simpl. apply list_elem_of_singleton. reflexivity.
  - simpl. apply list_elem_of_singleton. reflexivity.
Qed.

(** * [Mount.start] *)

Section MountAborts.

Context (env : Env).

Lemma quiet_app evs1 evs2 : quiet evs1 → quiet evs2 → quiet (evs1 ++ evs2).
Proof. apply Forall_app_2. Qed.

Lemma aborts_quiet {A} (r : Res A) evs : quiet evs → aborts_on_rpc_failure r evs.
Proof. by left. Qed.

Lemma aborts_prepend {A} (r : Res A) evs1 evs2 :
  quiet evs1 → aborts_on_rpc_failure r evs2 → aborts_on_rpc_failure r (evs1 ++ evs2).
Proof.
  intros Hq [Hq2|(evs0 & ev & e & -> & Hq0 & Hf & ->)].
  - left. by apply quiet_app.
  - right. exists (evs1 ++ evs0), ev, e. rewrite app_assoc. repeat split; try done.
    by apply quiet_app.
Qed.

Lemma aborts_ok_quiet {A} (a : A) evs : aborts_on_rpc_failure (Ok a) evs → quiet evs.
Proof. by intros [Hq|(? & ? & ? & _ & _ & _ & ?)]. Qed.

Lemma aborts_raise {A B} e evs :
  aborts_on_rpc_failure (Raise e : Res A) evs → aborts_on_rpc_failure (Raise e : Res B) evs.
Proof.
  intros [Hq|(evs0 & ev & e' & -> & Hq0 & Hf & [= ->])]; [by left|].
  right. by exists evs0, ev, e'.
Qed.

Lemma aborts_failure {A} (r : Res A) ev e :
  rpc_failure ev = Some e → r = Raise e → aborts_on_rpc_failure r [ev].
Proof. intros Hf ->. right. exists [], ev, e. repeat split; try done. constructor. Qed.

(** What a failed remote call in the events of a call means for the call. *)
Lemma aborts_elem {A} (r : Res A) evs ev e :
  aborts_on_rpc_failure r evs → ev ∈ evs → rpc_failure ev = Some e →
  r = Raise e ∧ last evs = Some ev.
Proof.
  intros [Hq|(evs0 & ev' & e' & -> & Hq0 & Hf & ->)] Hin He.
  - unfold quiet in Hq. rewrite Forall_forall in Hq. specialize (Hq ev Hin). congruence.
  - apply elem_of_app in Hin as [Hin|Hin].
    + unfold quiet in Hq0. rewrite Forall_forall in Hq0. specialize (Hq0 ev Hin). congruence.
    + apply list_elem_of_singleton in Hin as ->. rewrite last_snoc.
      split; [congruence|done].
Qed.

Lemma get_files_next_events pending tr r pending' tr' :
  Mount.get_files_next env pending tr = (r, pending', tr') →
  ∃ evs, tr' = tr ++ evs ∧ quiet evs.
Proof.
  unfold Mount.get_files_next. destruct pending as [|[f rel] rest].
  - intros [= <- <- <-]. exists []. rewrite app_nil_r. split; [done|constructor].
  - destruct (open_read env tr f) as [data|e]; intros [= <- <- <-].
    + eexists. split; [done|]. by repeat constructor.
    + eexists. split; [done|]. by repeat constructor.
Qed.

Lemma register_next_events mid pending self tr r pending' self' tr' :
  Mount._register_file_requests_next env mid pending self tr = (r, pending', self', tr') →
  ∃ evs, tr' = tr ++ evs ∧ quiet evs.
Proof.
  unfold Mount._register_file_requests_next.
  destruct (Mount.get_files_next env pending tr) as [[r0 p0] tr0] eqn:E.
  apply get_files_next_events in E as (evs & -> & Hq).
  destruct r0 as [[[[f rel] sha]|]|e]; intros [= <- <- <- <-].
  - eexists. rewrite <- app_assoc. split; [done|].
    apply quiet_app; [done|]. by repeat constructor.
  - by exists evs.
  - by exists evs.
Qed.

Lemma upload_next_events mid reg :
  ∀ pending self tr r gen' self' tr',
    Mount._upload_file_requests_next env mid reg pending self tr = (r, gen', self', tr') →
    ∃ evs, tr' = tr ++ evs ∧ aborts_on_rpc_failure r evs.
Proof.
  induction reg as [k IH|resp k IH| |e]; intros pending self tr r gen' self' tr'; simpl.
  - destruct (Mount._register_file_requests_next env mid pending self tr)
      as [[[r0 p0] s0] tr0] eqn:E.
    apply register_next_events in E as (evs & -> & Hq).
    destruct r0 as [o|e].
    + intros Hrec. apply IH in Hrec as (evs2 & -> & Hab).
      exists (evs ++ evs2). rewrite app_assoc. split; [done|]. by apply aborts_prepend.
    + intros [= <- <- <- <-]. exists evs. split; [done|]. by left.
  - destruct (rfr_exists resp).
    + intros Hrec. apply IH in Hrec as (evs2 & -> & Hab).
      exists ([EvRegisterResponse resp] ++ evs2). rewrite app_assoc. split; [done|].
      apply aborts_prepend; [|done]. by repeat constructor.
    + destruct (_remote_to_local_filename self !! rfr_filename resp) as [f|].
      2: { intros [= <- <- <- <-]. eexists. split; [done|]. left. by repeat constructor. }
      destruct (open_read env _ f) as [data|e].
      2: { intros [= <- <- <- <-]. eexists. rewrite <- app_assoc. split; [done|].
           left. by repeat constructor. }
      destruct (_hashes self !! f) as [sha|]; intros [= <- <- <- <-].
      * eexists. rewrite <- !app_assoc. split; [done|]. left. by repeat constructor.
      * eexists. rewrite <- app_assoc. split; [done|]. left. by repeat constructor.
  - intros [= <- <- <- <-]. exists []. rewrite app_nil_r. split; [done|]. left. constructor.
  - intros [= <- <- <- <-]. eexists. split; [done|]. by eapply aborts_failure.
Qed.

Lemma MountUploadFile_call_events mid up :
  ∀ gen self tr r self' tr',
    Mount.MountUploadFile_call env mid up gen self tr = (r, self', tr') →
    ∃ evs, tr' = tr ++ evs ∧ aborts_on_rpc_failure r evs.
Proof.
  induction up as [k IH| |e]; intros gen self tr r self' tr'; simpl.
  - destruct (Mount._upload_file_requests_next env mid gen.1 gen.2 self tr)
      as [[[r0 g0] s0] tr0] eqn:E.
    apply upload_next_events in E as (evs & -> & Hab).
    destruct r0 as [o|e].
    + intros Hrec. apply IH in Hrec as (evs2 & -> & Hab2).
      exists (evs ++ evs2). rewrite app_assoc. split; [done|].
      apply aborts_prepend; [|done]. by eapply aborts_ok_quiet.
    + intros [= <- <- <-]. exists evs. split; [done|]. by eapply aborts_raise.
  - intros [= <- <- <-]. eexists. split; [done|]. left. by repeat constructor.
  - intros [= <- <- <-]. eexists. split; [done|]. by eapply aborts_failure.
Qed.

End MountAborts.

Section MountFrame.

Context (env : Env).

Lemma mount_frame_refl m : mount_frame m m.
Proof. by repeat split. Qed.

Lemma mount_frame_trans m1 m2 m3 : mount_frame m1 m2 → mount_frame m2 m3 → mount_frame m1 m3.
Proof. unfold mount_frame. intros (?&?&?&?) (?&?&?&?). repeat split; congruence. Qed.

Lemma register_next_frame mid pending self tr r pending' self' tr' :
  Mount._register_file_requests_next env mid pending self tr = (r, pending', self', tr') →
  mount_frame self self'.
Proof.
  unfold Mount._register_file_requests_next.
  destruct (Mount.get_files_next env pending tr) as [[r0 p0] tr0].
  destruct r0 as [[[[f rel] sha]|]|e]; intros [= <- <- <- <-]; by repeat split.
Qed.

Lemma upload_next_frame mid reg :
  ∀ pending self tr r gen' self' tr',
    Mount._upload_file_requests_next env mid reg pending self tr = (r, gen', self', tr') →
    mount_frame self self'.
Proof.
  induction reg as [k IH|resp k IH| |e]; intros pending self tr r gen' self' tr'; simpl.
  - destruct (Mount._register_file_requests_next env mid pending self tr)
      as [[[r0 p0] s0] tr0] eqn:E.
    apply register_next_frame in E. destruct r0 as [o|e].
    + intros Hrec. apply IH in Hrec. by eapply mount_frame_trans.
    + by intros [= <- <- <- <-].
  - destruct (rfr_exists resp); [by apply IH|].
    destruct (_remote_to_local_filename self !! rfr_filename resp) as [f|];
      [|intros [= <- <- <- <-]; apply mount_frame_refl].
    destruct (open_read env _ f) as [data|e];
      [|intros [= <- <- <- <-]; apply mount_frame_refl].
    destruct (_hashes self !! f) as [sha|]; intros [= <- <- <- <-]; apply mount_frame_refl.
  - intros [= <- <- <- <-]. apply mount_frame_refl.
  - intros [= <- <- <- <-]. apply mount_frame_refl.
Qed.

Lemma MountUploadFile_call_frame mid up :
  ∀ gen self tr r self' tr',
    Mount.MountUploadFile_call env mid up gen self tr = (r, self', tr') →
    mount_frame self self'.
Proof.
  induction up as [k IH| |e]; intros gen self tr r self' tr'; simpl.
  - destruct (Mount._upload_file_requests_next env mid gen.1 gen.2 self tr)
      as [[[r0 g0] s0] tr0] eqn:E.
    apply upload_next_frame in E. destruct r0 as [o|e].
    + intros Hrec. apply IH in Hrec. by eapply mount_frame_trans.
    + by intros [= <- <- <-].
  - intros [= <- <- <-]. apply mount_frame_refl.
  - intros [= <- <- <-]. apply mount_frame_refl.
Qed.

(** [synchronize] starts with [MountCreate], stops at the first remote call
    that fails, with its error, and sets [mount_id] only on success. *)
Lemma synchronize_spec client m tr r m' tr' :
  Mount.synchronize env client m tr = (r, m', tr') →
  let req := {| mcq_client_id := client_id client |} in
  ∃ evs,
    tr' = tr ++ EvMountCreate req (MountCreate (stub client) tr req) :: evs ∧
    aborts_on_rpc_failure r (EvMountCreate req (MountCreate (stub client) tr req) :: evs) ∧
    match r with
    | Ok id => mount_id m' = Some id
    | Raise _ => mount_frame m m'
    end.
Proof.
  unfold Mount.synchronize. intros Hrun. cbv zeta in *.
  set (req := {| mcq_client_id := client_id client |}) in *.
  destruct (MountCreate (stub client) tr req) as [resp|e] eqn:Ecreate.
  2: { injection Hrun as <- <- <-. exists []. split; [done|]. split.
       - by eapply aborts_failure.
       - apply mount_frame_refl. }
  destruct (Mount.MountUploadFile_call _ _ _ _ _ _) as [[r1 m1] tr1] eqn:Ecall.
  pose proof (MountUploadFile_call_frame _ _ _ _ _ _ _ _ Ecall) as Hframe.
  apply MountUploadFile_call_events in Ecall as (evs1 & -> & Hab1).
  destruct r1 as [[]|e].
  - apply aborts_ok_quiet in Hab1.
    destruct (MountDone (stub client) _ _) as [[]|e] eqn:Edone; injection Hrun as <- <- <-.
    + eexists (evs1 ++ [_]). rewrite <- !app_assoc. split; [done|]. split; [|done].
      left. constructor; [done|]. apply quiet_app; [done|]. by repeat constructor.
    + eexists (evs1 ++ [_]). rewrite <- !app_assoc. split; [done|]. split; [|done].
      right. eexists (_ :: evs1), _, e. split; [done|]. split; [by constructor|].
      done.
  - injection Hrun as <- <- <-. exists evs1. rewrite <- app_assoc. split; [done|].
    split; [|done].
    apply (aborts_prepend (Raise e) [EvMountCreate req (Ok resp)] evs1);
      [|by eapply aborts_raise].
    by repeat constructor.
Qed.

Lemma start_obj_unset client m tr :
  truthy (mount_id m) = false →
  Mount.start_obj env client m tr = Mount.synchronize env client m tr.
Proof. unfold Mount.start_obj. destruct (mount_id m) as [id|]; [|done]. by intros ->. Qed.

End MountFrame.

(** C4.  On a Mount that is not synchronized yet: if a remote call of
    [start] fails ([MountCreate], the registration stream, the upload
    stream or [MountDone]), nothing follows it, [start] raises its error,
    and the Mount keeps its directories, its condition and its unset
    [mount_id]; so any later [start] runs the whole synchronization again,
    beginning with a new [MountCreate]. *)
Theorem mount_start_aborts_on_rpc_failure env client self w m r w' ev e :
  mount_store w !! self = Some m → truthy (mount_id m) = false →
  Mount.start env client self w = Some (r, w') →
  ev ∈ new_events w w' → rpc_failure ev = Some e →
  r = Raise e ∧ last (new_events w w') = Some ev ∧
  ∃ m',
    mount_store w' !! self = Some m' ∧ mount_frame m m' ∧
    ∀ client2,
      (∀ tr, Mount.start_obj env client2 m' tr = Mount.synchronize env client2 m' tr) ∧
      ∃ r2 w2,
        Mount.start env client2 self w' = Some (r2, w2) ∧
        let req := {| mcq_client_id := client_id client2 |} in
        head (new_events w' w2) =
          Some (EvMountCreate req (MountCreate (stub client2) (trace w') req)).
Proof.
  intros Em Hunset. unfold Mount.start at 1. rewrite Em.
  rewrite (start_obj_unset env client m (trace w) Hunset).
  destruct (Mount.synchronize env client m (trace w)) as [[r0 m0] tr0] eqn:Esync.
  intros [= <- <-] Hin Hfail.
  apply synchronize_spec in Esync as (evs & Htr & Hab & Hres). cbv zeta in *.
  unfold new_events in *. simpl in *. rewrite Htr, drop_app_length in *.
  destruct (aborts_elem _ _ _ _ Hab Hin Hfail) as [-> Hlast].
  split; [done|]. split; [done|].
  exists m0. split; [apply list_lookup_insert_eq; by eapply lookup_lt_Some|].
  split; [done|]. intros client2.
  assert (truthy (mount_id m0) = false) as Hunset0.
  { destruct Hres as (-> & _). done. }
  split; [intros tr; by apply start_obj_unset|].
  unfold Mount.start. simpl.
  rewrite list_lookup_insert_eq by (by eapply lookup_lt_Some).
  rewrite (start_obj_unset env client2 m0 _ Hunset0).
  destruct (Mount.synchronize env client2 m0 _) as [[r2 m2] tr2] eqn:Esync2.
  eexists _, _. split; [done|]. simpl.
  apply synchronize_spec in Esync2 as (evs2 & -> & _). by rewrite drop_app_length.
Qed.

Lemma mount_start_aborts_on_rpc_failure_witness :
  Mount.start test_env (client_of broken_upload_server) mount_py_in_workdir_into_root
    (module_init test_env) = Some (Raise (RpcError "connection reset"), after_failed_sync) ∧
  last (new_events (module_init test_env) after_failed_sync) =
    Some (EvUploadFinished (Raise (RpcError "connection reset"))) ∧
  ∃ m', mount_store after_failed_sync !! mount_py_in_workdir_into_root = Some m' ∧
        mount_id m' = None.
Proof.
  destruct (mount_start_aborts_on_rpc_failure test_env (client_of broken_upload_server)
              mount_py_in_workdir_into_root (module_init test_env) _
              (Raise (RpcError "connection reset")) after_failed_sync
              (EvUploadFinished (Raise (RpcError "connection reset")))
              (RpcError "connection reset") eq_refl eq_refl eq_refl)
    as (_ & Hlast & m' & Em' & (Hid & _) & _).
  - apply list_elem_of_lookup. exists 6. reflexivity.
  - reflexivity.
  - split; [reflexivity|]. split; [exact Hlast|]. exists m'. split; [exact Em'|exact Hid].
Defined.

(** A Mount whose [mount_id] is a non-empty string answers from the cache:
    the world, trace included, is unchanged. *)
Lemma mount_start_memoized env client self w m :
  mount_store w !! self = Some m → truthy (mount_id m) = true →
  ∃ id, mount_id m = Some id ∧ Mount.start env client self w = Some (Ok id, w).
Proof.
  intros Em Ht. unfold Mount.start, Mount.start_obj. rewrite Em.
  destruct (mount_id m) as [id|] eqn:Eid; [|done]. rewrite Ht.
  exists id. split; [done|]. rewrite list_insert_id by done. by destruct w.
Qed.

(** C3 fails on the code at an empty mount id.  [start] tests
    [if self.mount_id:], the truth value of the cached id, where
    [Layer.start] and [Image.start] test [is not None].  Against a server
    that answers [MountCreate] with the empty id, the first [start]
    succeeds and caches [''], and the second [start] synchronizes again: it
    issues a new [MountCreate], hashes and registers the files again and
    uploads them again. *)
Theorem mount_start_resyncs_on_empty_id :
  let client := client_of blank_id_server in
  let w0 := module_init test_env in
  ∃ w1 w2 m1,
    Mount.start test_env client mount_py_in_workdir_into_root w0 = Some (Ok "", w1) ∧
    mount_store w1 !! mount_py_in_workdir_into_root = Some m1 ∧
    mount_id m1 = Some "" ∧
    Mount.start test_env client mount_py_in_workdir_into_root w1 = Some (Ok "", w2) ∧
    count_events is_MountCreate (new_events w1 w2) = 1 ∧
    length (new_events w1 w2) = 13.
Proof.
  intros client w0. eexists _, _, _.
  split; [vm_compute; reflexivity|]. split; [reflexivity|]. split; [reflexivity|].
  split; [vm_compute; reflexivity|]. split; vm_compute; reflexivity.
Qed.

Section MountSync.

Context (env : Env).
Variables (n0 : nat) (mid : string) (files : list (string * string)) (rdir : string).


Lemma ok_at_mono tr c i e : ok_at n0 mid files rdir tr i e → ok_at n0 mid files rdir (tr ++ c) i e.
Proof.
  unfold ok_at. destruct e; try done.
  - destruct (rfr_exists resp); [done|].
    intros (f & data & sha & j & Hloc & H1 & H2 & Hn & Hj & H3).
    exists f, data, sha, j. repeat split; try done; by apply lookup_app_l_Some.
  - intros (r & Hi & H1 & H2). exists r. repeat split; try done. by apply lookup_app_l_Some.
Qed.

(** Appending events keeps the property if the new events satisfy it. *)
Lemma follows_app tr c :
  uploads_follow_responses n0 mid files rdir tr →
  (∀ k e, c !! k = Some e → ok_at n0 mid files rdir (tr ++ c) (length tr + k) e) →
  uploads_follow_responses n0 mid files rdir (tr ++ c).
Proof.
  intros Htr Hc i e Hi He. destruct (decide (i < length tr)) as [Hlt|Hge].
  - rewrite lookup_app_l in He by done. apply ok_at_mono. by apply Htr.
  - rewrite lookup_app_r in He by lia.
    replace i with (length tr + (i - length tr)) by lia. by apply Hc.
Qed.

Lemma follows_app_plain tr c :
  uploads_follow_responses n0 mid files rdir tr →
  Forall (λ e, match e with
               | EvRegisterResponse r => rfr_exists r = true
               | EvUploadFile _ => False
               | _ => True
               end) c →
  uploads_follow_responses n0 mid files rdir (tr ++ c).
Proof.
  intros Htr Hc. apply follows_app; [done|]. intros k e Hk.
  rewrite Forall_forall in Hc. specialize (Hc e (list_elem_of_lookup_2 _ _ _ Hk)).
  unfold ok_at. destruct e; try done. by rewrite Hc.
Qed.

Lemma registered_mono self pending pending' tr c name :
  (∀ f, f ∈ map fst pending' → f ∈ map fst pending) →
  registered n0 mid files rdir self pending tr name → registered n0 mid files rdir self pending' (tr ++ c) name.
Proof.
  intros Hsub (f & sha & j & Hloc & Hnp & Hr & Hh & Hn & Hj).
  exists f, sha, j. repeat split; try done.
  - intros Hin. by apply Hnp, Hsub.
  - by apply lookup_app_l_Some.
Qed.

Lemma inv_app seen self pending tr c :
  sync_inv n0 mid files rdir seen self pending tr →
  Forall (λ e, match e with
               | EvRegisterResponse r => rfr_exists r = true
               | EvUploadFile _ => False
               | _ => True
               end) c →
  sync_inv n0 mid files rdir seen self pending (tr ++ c).
Proof.
  intros (Hnd & Hsub & Hrd & Hreg & Hfol) Hc. repeat split; try done.
  - intros name Hin. eapply registered_mono; [|by apply Hreg]. done.
  - by apply follows_app_plain.
Qed.

(** One registration keeps the invariant, with the new name seen. *)
Lemma register_next_inv seen pending self tr o pending' self' tr' :
  Mount._register_file_requests_next env mid pending self tr = (Ok o, pending', self', tr') →
  n0 ≤ length tr → sync_inv n0 mid files rdir seen self pending tr →
  sync_inv n0 mid files rdir (match o with Some q => rfq_filename q :: seen | None => seen end) self' pending' tr'.
Proof.
  unfold Mount._register_file_requests_next, Mount.get_files_next.
  destruct pending as [|[f rel] rest].
  { intros [= <- <- <- <-]. done. }
  destruct (open_read env tr f) as [data|e]; [|done].
  intros [= <- <- <- <-] Hn0 (Hnd & Hsub & Hrd & Hreg & Hfol).
  simpl in Hnd. apply NoDup_cons in Hnd as [Hf Hnd].
  set (sha := sha256_hex env data).
  set (remote := os_path_join (remote_dir self) rel).
  set (q := {| rfq_filename := remote; rfq_sha256_hex := sha; rfq_mount_id := mid |}).
  split; [done|]. split.
  { intros p Hp. apply Hsub. apply elem_of_cons. by right. }
  split; [done|]. split.
  - intros name Hin. simpl in Hin.
    destruct (decide (name = remote)) as [->|Hne].
    + exists f, sha, (length (tr ++ [EvHashDone f (Ok data)])).
      split.
      { exists rel. split; [apply Hsub, elem_of_cons; by left|]. by rewrite <- Hrd. }
      split; [done|]. simpl. split; [apply lookup_insert_eq|].
      split; [apply lookup_insert_eq|]. split; [rewrite length_app; lia|].
      apply lookup_snoc_new.
    + apply elem_of_cons in Hin as [Hin|Hin]; [done|].
      destruct (Hreg name Hin) as (f0 & sha0 & j & Hloc & Hnp & Hr & Hh & Hj & Hev).
      assert (f0 ≠ f) as Hf0.
      { intros ->. apply Hnp. simpl. apply elem_of_cons. by left. }
      exists f0, sha0, j. split; [done|]. split.
      { intros Hin0. apply Hnp. simpl. apply elem_of_cons. by right. }
      simpl. split; [by rewrite lookup_insert_ne|].
      split; [by rewrite lookup_insert_ne|]. split; [done|].
      by apply lookup_app_l_Some, lookup_app_l_Some.
  - rewrite <- app_assoc. apply follows_app_plain; [done|]. by repeat constructor.
Qed.

Lemma register_next_length pending self tr r pending' self' tr' :
  Mount._register_file_requests_next env mid pending self tr = (r, pending', self', tr') →
  length tr ≤ length tr'.
Proof.
  intros H. apply register_next_events in H as (evs & -> & _). rewrite length_app. lia.
Qed.

(** One pull on the upload generator keeps the invariant. *)
Lemma upload_next_inv reg :
  ∀ seen pending self tr o gen' self' tr',
    echoes seen reg → n0 ≤ length tr → sync_inv n0 mid files rdir seen self pending tr →
    Mount._upload_file_requests_next env mid reg pending self tr = (Ok o, gen', self', tr') →
    ∃ seen', echoes seen' gen'.1 ∧ n0 ≤ length tr' ∧ sync_inv n0 mid files rdir seen' self' gen'.2 tr'.
Proof.
  induction reg as [k IH|resp k IH| |e];
    intros seen pending self tr o gen' self' tr' Hech Hn0 Hinv; simpl.
  - destruct (Mount._register_file_requests_next env mid pending self tr)
      as [[[r1 p1] s1] tr1] eqn:E.
    destruct r1 as [o1|e]; [|done].
    pose proof (register_next_length _ _ _ _ _ _ _ E) as Hlen.
    pose proof (register_next_inv seen _ _ _ _ _ _ _ E Hn0 Hinv) as Hinv1.
    intros Hrec. eapply (IH o1); [apply Hech| |exact Hinv1|exact Hrec]. lia.
  - simpl in Hech. destruct Hech as [Hseen Hech].
    destruct (rfr_exists resp) eqn:Eex.
    + intros Hrec. eapply IH; [exact Hech| | |exact Hrec].
      * rewrite length_app. lia.
      * apply inv_app; [done|]. by repeat constructor.
    + destruct Hinv as (Hnd & Hsub & Hrd & Hreg & Hfol).
      destruct (Hreg _ Hseen) as (f & sha & j & Hloc & Hnp & Hr & Hh & Hj & Hev).
      rewrite Hr. destruct (open_read env _ f) as [data|e]; [|done].
      rewrite Hh. intros [= <- <- <- <-]. exists seen. simpl.
      split; [done|]. split; [rewrite !length_app; lia|].
      rewrite <- !app_assoc. simpl.
      split; [done|]. split; [done|]. split; [done|]. split.
      * intros name Hin. eapply registered_mono; [|by apply Hreg]. done.
      * apply follows_app; [done|]. intros i e.
        destruct i as [|[|[|i]]]; simpl; intros [= <-]; unfold ok_at; [|done|].
        -- rewrite Eex. exists f, data, sha, j. split; [done|].
           split; [by rewrite lookup_app_r, Nat.add_0_r by lia;
                   replace (length tr + 1 - length tr) with 1 by lia|].
           split; [by rewrite lookup_app_r by lia;
                   replace (length tr + 0 + 2 - length tr) with 2 by lia|].
           split; [done|]. split; [apply lookup_lt_Some in Hev; lia|].
           by apply lookup_app_l_Some.
        -- exists resp. split; [lia|]. split; [|done].
           rewrite lookup_app_r by lia.
           by replace (length tr + 2 - 2 - length tr) with 0 by lia.
  - intros [= <- <- <- <-]. exists seen. simpl. split; [done|]. split; [done|].
    destruct Hinv as (Hnd & Hsub & Hrd & Hreg & Hfol).
    split; [constructor|]. split; [by intros p Hp%elem_of_nil|]. split; [done|].
    split; [|done]. intros name Hin. rewrite <- (app_nil_r tr).
    eapply registered_mono; [|by apply Hreg]. by intros f Hf%elem_of_nil.
  - done.
Qed.

(** The whole [MountUploadFile] call keeps the property of the trace. *)
Lemma MountUploadFile_call_inv up :
  ∀ seen gen self tr self' tr',
    echoes seen gen.1 → n0 ≤ length tr → sync_inv n0 mid files rdir seen self gen.2 tr →
    Mount.MountUploadFile_call env mid up gen self tr = (Ok (), self', tr') →
    uploads_follow_responses n0 mid files rdir tr' ∧ n0 ≤ length tr'.
Proof.
  induction up as [k IH| |e]; intros seen gen self tr self' tr' Hech Hn0 Hinv; simpl.
  - destruct (Mount._upload_file_requests_next env mid gen.1 gen.2 self tr)
      as [[[r1 g1] s1] tr1] eqn:E.
    destruct r1 as [o|e]; [|done].
    destruct (upload_next_inv _ _ _ _ _ _ _ _ _ Hech Hn0 Hinv E) as (seen' & He' & Hn' & Hi').
    intros Hrec. by eapply (IH o).
  - intros [= <- <-]. split; [|rewrite length_app; lia].
    apply follows_app_plain; [apply Hinv|]. by repeat constructor.
  - done.
Qed.

End MountSync.

Section MountSynchronize.

Context (env : Env).

(** A successful synchronization: the trace from its [MountCreate] on has
    the shape that [uploads_follow_responses] describes. *)
Lemma synchronize_uploads client m tr id m' tr' :
  NoDup (map fst (Mount.get_files env (local_dir m) (condition m))) →
  (∀ t, echoes [] (MountRegisterFile (stub client) t)) →
  Mount.synchronize env client m tr = (Ok id, m', tr') →
  uploads_follow_responses (length tr) id
    (Mount.get_files env (local_dir m) (condition m)) (remote_dir m) tr'.
Proof.
  intros Hnd Hech. unfold Mount.synchronize.
  set (req := {| mcq_client_id := client_id client |}).
  destruct (MountCreate (stub client) tr req) as [resp|e]; [|done].
  destruct (Mount.MountUploadFile_call _ _ _ _ _ _) as [[r1 m1] tr1] eqn:Ecall.
  destruct r1 as [[]|e]; [|done].
  destruct (MountDone _ _ _) as [[]|e]; [|done].
  intros [= <- <- <-].
  eapply (MountUploadFile_call_inv env (length tr) (mcr_mount_id resp)
            (Mount.get_files env (local_dir m) (condition m)) (remote_dir m)) in Ecall
    as [Hfol Hlen].
  - apply follows_app_plain; [done|]. by repeat constructor.
  - apply Hech.
  - rewrite length_app. lia.
  - simpl. split; [done|]. split; [done|]. split; [done|]. split.
    + by intros name Hin%elem_of_nil.
    + apply follows_app_plain; [|by repeat constructor].
      intros i e Hi He. apply lookup_lt_Some in He. lia.
Qed.

End MountSynchronize.

Section OwnRegistrationLemmas.

Context (env : Env).
Variables (n0 : nat) (mid : string) (files : list (string * string)) (rdir : string).

Lemma registration_of_mono tr c j f name sha :
  registration_of env n0 mid files rdir tr j f name sha →
  registration_of env n0 mid files rdir (tr ++ c) j f name sha.
Proof.
  intros (rel & data0 & Hin & Hn & Hs & Hj & Hh & Hr).
  exists rel, data0. repeat split; try done; by apply lookup_app_l_Some.
Qed.

Lemma upload_of_registered_mono tr c k u :
  upload_of_registered env n0 mid files rdir tr k u →
  upload_of_registered env n0 mid files rdir (tr ++ c) k u.
Proof.
  intros (f & resp & j & Hreg & Hj & Hr & Hex & Hd & Hm).
  exists f, resp, j. split; [by apply registration_of_mono|].
  repeat split; try done; by apply lookup_app_l_Some.
Qed.

(** Events other than uploads keep the property. *)
Lemma own_follows_other tr c :
  uploads_follow_registrations env n0 mid files rdir tr →
  Forall (λ e, match e with EvUploadFile _ => False | _ => True end) c →
  uploads_follow_registrations env n0 mid files rdir (tr ++ c).
Proof.
  intros Htr Hc k u Hk Hu. destruct (decide (k < length tr)) as [Hlt|Hge].
  - rewrite lookup_app_l in Hu by done. apply upload_of_registered_mono. by apply Htr.
  - rewrite lookup_app_r in Hu by lia. rewrite Forall_forall in Hc.
    by destruct (Hc _ (list_elem_of_lookup_2 _ _ _ Hu)).
Qed.

Lemma registered_own_mono self pending pending' tr c name :
  (∀ f, f ∈ map fst pending' → f ∈ map fst pending) →
  registered_own env n0 mid files rdir self pending tr name →
  registered_own env n0 mid files rdir self pending' (tr ++ c) name.
Proof.
  intros Hsub (f & sha & j & Hreg & Hnp & Hr & Hh).
  exists f, sha, j. split; [by apply registration_of_mono|]. split; [|done].
  intros Hin. by apply Hnp, Hsub.
Qed.

Lemma own_inv_other seen self pending tr c :
  own_inv env n0 mid files rdir seen self pending tr →
  Forall (λ e, match e with EvUploadFile _ => False | _ => True end) c →
  own_inv env n0 mid files rdir seen self pending (tr ++ c).
Proof.
  intros (Hnd & Hsub & Hrd & Hreg & Hfol) Hc. repeat split; try done.
  - intros name Hin. eapply registered_own_mono; [|by apply Hreg]. done.
  - by apply own_follows_other.
Qed.

(** One registration step, whatever its outcome. *)
Lemma register_next_own seen pending self tr r pending' self' tr' :
  Mount._register_file_requests_next env mid pending self tr = (r, pending', self', tr') →
  n0 ≤ length tr → own_inv env n0 mid files rdir seen self pending tr →
  uploads_follow_registrations env n0 mid files rdir tr' ∧ length tr ≤ length tr' ∧
  ∀ o, r = Ok o →
    own_inv env n0 mid files rdir
      (match o with Some q => rfq_filename q :: seen | None => seen end) self' pending' tr'.
Proof.
  unfold Mount._register_file_requests_next, Mount.get_files_next.
  destruct pending as [|[f rel] rest].
  { intros [= <- <- <- <-] Hn0 Hinv. split; [apply Hinv|]. split; [done|].
    by intros o [= <-]. }
  destruct (open_read env tr f) as [data|e].
  2: { intros [= <- <- <- <-] Hn0 (_ & _ & _ & _ & Hfol). split; [|split; [|done]].
       - apply own_follows_other; [done|]. by repeat constructor.
       - rewrite length_app. lia. }
  intros [= <- <- <- <-] Hn0 (Hnd & Hsub & Hrd & Hreg & Hfol).
  assert (uploads_follow_registrations env n0 mid files rdir
            ((tr ++ [EvHashDone f (Ok data)]) ++
             [EvRegisterFile {| rfq_filename := os_path_join (remote_dir self) rel;
                                rfq_sha256_hex := sha256_hex env data;
                                rfq_mount_id := mid |}])) as Hfol'.
  { rewrite <- app_assoc. apply own_follows_other; [done|]. by repeat constructor. }
  split; [done|]. split; [rewrite !length_app; lia|].
  intros o [= <-].
  simpl in Hnd. apply NoDup_cons in Hnd as [Hf Hnd].
  set (sha := sha256_hex env data).
  set (remote := os_path_join (remote_dir self) rel).
  split; [done|]. split.
  { intros p Hp. apply Hsub. apply elem_of_cons. by right. }
  split; [done|]. split; [|done].
  intros name Hin. simpl in Hin.
  destruct (decide (name = remote)) as [->|Hne].
  - exists f, sha, (length (tr ++ [EvHashDone f (Ok data)])).
    split.
    { exists rel, data. split; [apply Hsub, elem_of_cons; by left|].
      split; [by rewrite <- Hrd|]. split; [done|].
      split; [rewrite length_app; simpl; lia|]. split.
      - apply lookup_app_l_Some. rewrite length_app. simpl.
        replace (length tr + 1 - 1) with (length tr) by lia. apply lookup_snoc_new.
      - apply lookup_snoc_new. }
    split; [done|]. simpl. split; apply lookup_insert_eq.
  - apply elem_of_cons in Hin as [Hin|Hin]; [done|].
    destruct (Hreg name Hin) as (f0 & sha0 & j & Hreg0 & Hnp & Hr & Hh).
    assert (f0 ≠ f) as Hf0.
    { intros ->. apply Hnp. simpl. apply elem_of_cons. by left. }
    exists f0, sha0, j. split.
    { rewrite <- app_assoc. by apply registration_of_mono. }
    split.
    { intros Hin0. apply Hnp. simpl. apply elem_of_cons. by right. }
    simpl. split; by rewrite lookup_insert_ne.
Qed.

(** One pull on the upload generator, whatever its outcome. *)
Lemma upload_next_own reg :
  ∀ seen pending self tr r gen' self' tr',
    echoes seen reg → n0 ≤ length tr → own_inv env n0 mid files rdir seen self pending tr →
    Mount._upload_file_requests_next env mid reg pending self tr = (r, gen', self', tr') →
    uploads_follow_registrations env n0 mid files rdir tr' ∧ n0 ≤ length tr' ∧
    ∀ o, r = Ok o →
      ∃ seen', echoes seen' gen'.1 ∧ own_inv env n0 mid files rdir seen' self' gen'.2 tr'.
Proof.
  induction reg as [k IH|resp k IH| |e];
    intros seen pending self tr r gen' self' tr' Hech Hn0 Hinv; simpl.
  - destruct (Mount._register_file_requests_next env mid pending self tr)
      as [[[r1 p1] s1] tr1] eqn:E.
    destruct (register_next_own seen _ _ _ _ _ _ _ E Hn0 Hinv) as (Hfol1 & Hlen & Hinv1).
    destruct r1 as [o1|e].
    + intros Hrec. eapply (IH o1); [apply Hech| |by apply Hinv1|exact Hrec]. lia.
    + intros [= <- <- <- <-]. split; [done|]. split; [lia|done].
  - simpl in Hech. destruct Hech as [Hseen Hech].
    assert (own_inv env n0 mid files rdir seen self pending (tr ++ [EvRegisterResponse resp]))
      as Hinv1 by (apply own_inv_other; [done|by repeat constructor]).
    destruct (rfr_exists resp) eqn:Eex.
    { intros Hrec. eapply IH; [exact Hech| |exact Hinv1|exact Hrec].
      rewrite length_app. lia. }
    destruct Hinv as (Hnd & Hsub & Hrd & Hreg & Hfol).
    destruct (Hreg _ Hseen) as (f & sha & j & Hreg0 & Hnp & Hr & Hh).
    rewrite Hr.
    assert (uploads_follow_registrations env n0 mid files rdir
              ((tr ++ [EvRegisterResponse resp]) ++
               [EvOpenRead f (open_read env (tr ++ [EvRegisterResponse resp]) f)])) as Hfol2.
    { rewrite <- app_assoc. apply own_follows_other; [done|]. by repeat constructor. }
    destruct (open_read env _ f) as [data|e] eqn:Eread.
    2: { intros [= <- <- <- <-]. split; [done|]. split; [rewrite !length_app; lia|done]. }
    rewrite Hh. intros [= <- <- <- <-].
    assert (uploads_follow_registrations env n0 mid files rdir
              (((tr ++ [EvRegisterResponse resp]) ++ [EvOpenRead f (Ok data)]) ++
               [EvUploadFile {| ufq_data := data; ufq_sha256_hex := sha;
                                ufq_size := length data; ufq_mount_id := mid |}])) as Hfol3.
    { intros i u Hi Hu. apply lookup_app_Some in Hu as [Hu|[Hge Hu]].
      { apply upload_of_registered_mono. by apply Hfol2. }
      rewrite !length_app in Hge, Hu. simpl in Hge, Hu.
      destruct (i - (length tr + 1 + 1)) as [|n] eqn:En; [|done].
      injection Hu as <-. assert (i = length tr + 2) as -> by lia.
      exists f, resp, j. simpl.
      destruct Hreg0 as (rel & data0 & Hin & Hname & Hsha & Hj & Hhash & Hev).
      pose proof (lookup_lt_Some _ _ _ Hev) as Hjlt.
      split.
      { exists rel, data0. repeat split; try done;
          rewrite <- !app_assoc; by apply lookup_app_l_Some. }
      split; [lia|]. split.
      { replace (length tr + 2 - 2) with (length tr) by lia.
        apply lookup_app_l_Some, lookup_app_l_Some, lookup_snoc_new. }
      split; [done|]. split; [|done].
      replace (length tr + 2 - 1) with (length (tr ++ [EvRegisterResponse resp]))
        by (rewrite length_app; simpl; lia).
      apply lookup_app_l_Some, lookup_snoc_new. }
    split; [done|]. split; [rewrite !length_app; lia|].
    intros o [= <-]. exists seen. simpl. split; [done|].
    split; [done|]. split; [done|]. split; [done|]. split; [|done].
    intros name Hin. rewrite <- !app_assoc.
    eapply registered_own_mono; [|by apply Hreg]. done.
  - intros [= <- <- <- <-]. split; [apply Hinv|]. split; [done|].
    intros o [= <-]. exists seen. simpl. split; [done|].
    destruct Hinv as (Hnd & Hsub & Hrd & Hreg & Hfol).
    split; [constructor|]. split; [by intros p Hp%elem_of_nil|]. split; [done|].
    split; [|done]. intros name Hin. rewrite <- (app_nil_r tr).
    eapply registered_own_mono; [|by apply Hreg]. by intros f Hf%elem_of_nil.
  - intros [= <- <- <- <-]. split; [|split; [rewrite length_app; lia|done]].
    apply own_follows_other; [apply Hinv|]. by repeat constructor.
Qed.

(** The whole [MountUploadFile] call, whatever its outcome. *)
Lemma MountUploadFile_call_own up :
  ∀ seen gen self tr r self' tr',
    echoes seen gen.1 → n0 ≤ length tr →
    own_inv env n0 mid files rdir seen self gen.2 tr →
    Mount.MountUploadFile_call env mid up gen self tr = (r, self', tr') →
    uploads_follow_registrations env n0 mid files rdir tr'.
Proof.
  induction up as [k IH| |e]; intros seen gen self tr r self' tr' Hech Hn0 Hinv; simpl.
  - destruct (Mount._upload_file_requests_next env mid gen.1 gen.2 self tr)
      as [[[r1 g1] s1] tr1] eqn:E.
    destruct (upload_next_own _ _ _ _ _ _ _ _ _ Hech Hn0 Hinv E) as (Hfol & Hn' & Hnext).
    destruct r1 as [o|e].
    + destruct (Hnext o eq_refl) as (seen' & He' & Hi'). intros Hrec. by eapply (IH o).
    + by intros [= <- <- <-].
  - intros [= <- <- <-]. apply own_follows_other; [apply Hinv|]. by repeat constructor.
  - intros [= <- <- <-]. apply own_follows_other; [apply Hinv|]. by repeat constructor.
Qed.

End OwnRegistrationLemmas.

Section SynchronizeOwn.

Context (env : Env).

(** A synchronization, whatever its outcome: every upload in its events is
    the upload of a file that was registered and found missing before. *)
Lemma synchronize_own client m tr r m' tr' :
  NoDup (map fst (Mount.get_files env (local_dir m) (condition m))) →
  (∀ t, echoes [] (MountRegisterFile (stub client) t)) →
  Mount.synchronize env client m tr = (r, m', tr') →
  ∀ k u, length tr ≤ k → tr' !! k = Some (EvUploadFile u) →
    upload_of_registered env (length tr) (ufq_mount_id u)
      (Mount.get_files env (local_dir m) (condition m)) (remote_dir m) tr' k u.
Proof.
  intros Hnd Hech. unfold Mount.synchronize.
  set (req := {| mcq_client_id := client_id client |}).
  set (files := Mount.get_files env (local_dir m) (condition m)).
  destruct (MountCreate (stub client) tr req) as [resp|e].
  2: { intros [= <- <- <-] k u Hk Hu. apply lookup_app_Some in Hu as [Hu|[_ Hu]].
       - apply lookup_lt_Some in Hu. lia.
       - by destruct (k - length tr) as [|n]. }
  destruct (Mount.MountUploadFile_call _ _ _ _ _ _) as [[r1 m1] tr1] eqn:Ecall.
  assert (uploads_follow_registrations env (length tr) (mcr_mount_id resp) files
            (remote_dir m) tr1) as Hfol.
  { eapply (MountUploadFile_call_own env (length tr) (mcr_mount_id resp) files (remote_dir m))
      in Ecall; [exact Ecall|apply Hech|rewrite length_app; lia|].
    simpl. split; [done|]. split; [done|]. split; [done|]. split.
    - by intros name Hin%elem_of_nil.
    - apply own_follows_other; [|by repeat constructor].
      intros i e Hi He. apply lookup_lt_Some in He. lia. }
  assert (∀ tr2, uploads_follow_registrations env (length tr) (mcr_mount_id resp) files
                   (remote_dir m) tr2 →
          ∀ k u, length tr ≤ k → tr2 !! k = Some (EvUploadFile u) →
            upload_of_registered env (length tr) (ufq_mount_id u) files (remote_dir m) tr2 k u)
    as Hid.
  { intros tr2 Hf k u Hk Hu. pose proof (Hf k u Hk Hu) as Hup.
    destruct Hup as (f & rsp & j & Hreg & Hj & Hr & Hex & Hd & Hm). rewrite Hm.
    exists f, rsp, j. by rewrite Hm. }
  destruct r1 as [[]|e]; [|intros [= <- <- <-]; by apply Hid].
  destruct (MountDone _ _ _) as [[]|e]; intros [= <- <- <-]; apply Hid;
    (apply own_follows_other; [done|by repeat constructor]).
Qed.

End SynchronizeOwn.

Section MountTraceShape.

Context (env : Env).

(** The events of a successful [start] that had to synchronize. *)
Lemma mount_start_trace_shape client self w m id w' :
  mount_store w !! self = Some m → truthy (mount_id m) = false →
  NoDup (map fst (Mount.get_files env (local_dir m) (condition m))) →
  (∀ t, echoes [] (MountRegisterFile (stub client) t)) →
  Mount.start env client self w = Some (Ok id, w') →
  let evs := new_events w w' in
  (∀ i r, evs !! i = Some (EvRegisterResponse r) → rfr_exists r = false →
     ∃ filename data sha j,
       local_file_of (Mount.get_files env (local_dir m) (condition m)) (remote_dir m)
         (rfr_filename r) filename ∧
       evs !! (i + 1) = Some (EvOpenRead filename (Ok data)) ∧
       evs !! (i + 2) =
         Some (EvUploadFile {| ufq_data := data; ufq_sha256_hex := sha;
                               ufq_size := length data; ufq_mount_id := id |}) ∧
       j < i ∧
       evs !! j =
         Some (EvRegisterFile {| rfq_filename := rfr_filename r; rfq_sha256_hex := sha;
                                 rfq_mount_id := id |})) ∧
  (∀ i u, evs !! i = Some (EvUploadFile u) →
     ∃ r, 2 ≤ i ∧ evs !! (i - 2) = Some (EvRegisterResponse r) ∧ rfr_exists r = false).
Proof.
  intros Em Hunset Hnd Hech. unfold Mount.start. rewrite Em.
  rewrite (start_obj_unset env client m (trace w) Hunset).
  destruct (Mount.synchronize env client m (trace w)) as [[r0 m0] tr0] eqn:Esync.
  intros [= -> <-].
  pose proof (synchronize_uploads env client m _ _ _ _ Hnd Hech Esync) as Hfol.
  unfold new_events. simpl. split.
  - intros i r Hi Hex. rewrite lookup_drop in Hi.
    pose proof (Hfol (length (trace w) + i) _ ltac:(lia) Hi) as Hok. unfold ok_at in Hok. rewrite Hex in Hok.
    destruct Hok as (f & data & sha & j & Hloc & H1 & H2 & Hn & Hj & H3).
    exists f, data, sha, (j - length (trace w)). split; [done|].
    rewrite !lookup_drop.
    split; [by rewrite <- H1; f_equal; lia|].
    split; [by rewrite <- H2; f_equal; lia|].
    split; [lia|]. rewrite <- H3. f_equal. lia.
  - intros i u Hi. rewrite lookup_drop in Hi.
    pose proof (Hfol (length (trace w) + i) _ ltac:(lia) Hi) as Hok. unfold ok_at in Hok.
    destruct Hok as (r & Hn & H1 & H2).
    exists r. split; [lia|]. split; [|done].
    rewrite lookup_drop, <- H1. f_equal. lia.
Qed.

End MountTraceShape.

Lemma echo_register_echoes exists_remotely n : ∀ seen, echoes seen (echo_register exists_remotely n).
Proof.
  induction n as [|n IH]; intros seen; simpl; [done|].
  intros [q|]; simpl; [|done]. split; [|apply IH]. apply elem_of_cons. by left.
Defined.

(** C1.  When [start] synchronizes a Mount whose walk lists each local file
    once, against a server that reports on registered files only, and
    succeeds: every response "does not exist" is followed at once by the
    read of the local file registered under the name in the response and
    by one upload message with the bytes just read, their length, the mount
    id, and the digest that was sent when that name was registered (the
    digest is not computed again); every upload message is the one that
    follows such a response; and nothing is uploaded after a response
    "exists". *)
Theorem uploads_exactly_for_missing_files env client self w m id w' :
  mount_store w !! self = Some m → truthy (mount_id m) = false →
  NoDup (map fst (Mount.get_files env (local_dir m) (condition m))) →
  (∀ t, echoes [] (MountRegisterFile (stub client) t)) →
  Mount.start env client self w = Some (Ok id, w') →
  let evs := new_events w w' in
  (∀ i r, evs !! i = Some (EvRegisterResponse r) → rfr_exists r = false →
     ∃ filename data sha j,
       local_file_of (Mount.get_files env (local_dir m) (condition m)) (remote_dir m)
         (rfr_filename r) filename ∧
       evs !! (i + 1) = Some (EvOpenRead filename (Ok data)) ∧
       evs !! (i + 2) =
         Some (EvUploadFile {| ufq_data := data; ufq_sha256_hex := sha;
                               ufq_size := length data; ufq_mount_id := id |}) ∧
       j < i ∧
       evs !! j =
         Some (EvRegisterFile {| rfq_filename := rfr_filename r; rfq_sha256_hex := sha;
                                 rfq_mount_id := id |})) ∧
  (∀ i u, evs !! i = Some (EvUploadFile u) →
     ∃ r, 2 ≤ i ∧ evs !! (i - 2) = Some (EvRegisterResponse r) ∧ rfr_exists r = false) ∧
  (∀ i r, evs !! i = Some (EvRegisterResponse r) → rfr_exists r = true →
     ∀ u, evs !! (i + 1) ≠ Some (EvUploadFile u) ∧ evs !! (i + 2) ≠ Some (EvUploadFile u)).
Proof.
  intros Em Hunset Hnd Hech Hrun evs.
  destruct (mount_start_trace_shape env client self w m id w' Em Hunset Hnd Hech Hrun)
    as [Hresp Hup].
  fold evs in Hresp, Hup. split; [exact Hresp|]. split; [exact Hup|].
  intros i r Hi Hex u. split; intros Hu.
  - destruct (Hup _ _ Hu) as (r' & Hge & Hr' & Hex').
    destruct (Hresp _ _ Hr' Hex') as (f & data & sha & j & _ & Hopen & _).
    replace (i + 1 - 2 + 1) with i in Hopen by lia. congruence.
  - destruct (Hup _ _ Hu) as (r' & Hge & Hr' & Hex').
    replace (i + 2 - 2) with i in Hr' by lia. congruence.
Qed.

Lemma uploads_exactly_for_missing_files_witness :
  let evs := new_events (module_init test_env) partly_synced_world in
  Mount.start test_env (client_of (server has_a_py [])) mount_py_in_workdir_into_root
    (module_init test_env) = Some (Ok "mo-0", partly_synced_world) ∧
  evs !! 3 = Some (EvRegisterResponse {| rfr_filename := "/root/a.py"; rfr_exists := true |}) ∧
  evs !! 6 = Some (EvRegisterResponse {| rfr_filename := "/root/pkg/b.py"; rfr_exists := false |}) ∧
  (∃ filename data sha j,
      evs !! 7 = Some (EvOpenRead filename (Ok data)) ∧
      evs !! 8 = Some (EvUploadFile {| ufq_data := data; ufq_sha256_hex := sha;
                                       ufq_size := length data; ufq_mount_id := "mo-0" |}) ∧
      j < 6 ∧
      evs !! j = Some (EvRegisterFile {| rfq_filename := "/root/pkg/b.py";
                                         rfq_sha256_hex := sha; rfq_mount_id := "mo-0" |})) ∧
  count_events (λ e, match e with EvUploadFile _ => true | _ => false end) evs = 1.
Proof.
  intros evs.
  destruct (uploads_exactly_for_missing_files test_env (client_of (server has_a_py []))
              mount_py_in_workdir_into_root (module_init test_env) _ "mo-0"
              partly_synced_world eq_refl eq_refl) as (Hresp & _ & _).
  - compute_done.
  - intros t. apply echo_register_echoes.
  - reflexivity.
  - split; [reflexivity|]. split; [reflexivity|]. split; [reflexivity|]. split; [|reflexivity].
    destruct (Hresp 6 {| rfr_filename := "/root/pkg/b.py"; rfr_exists := false |}
                eq_refl eq_refl) as (f & data & sha & j & _ & H1 & H2 & Hj & H3).
    by exists f, data, sha, j.
Defined.

(** C6, as the code has it.  In every run of [start], whatever its
    outcome, against a server that reports on registered files only and
    with a walk that lists each local file once: every upload message is
    the upload of one local file, whose bytes it carries (the read is the
    step before it), and it comes after the response "does not exist" for
    the remote name of that file (two steps before it), which comes after
    that file's own registration: the registration sent when the hashing
    job of that very file ended, with the remote name of the file, the mount
    id of the upload, and the digest that the upload carries.  The order
    holds per file: the registrations of other files may still follow. *)
Theorem upload_follows_own_registration env client self w m r w' :
  mount_store w !! self = Some m →
  NoDup (map fst (Mount.get_files env (local_dir m) (condition m))) →
  (∀ t, echoes [] (MountRegisterFile (stub client) t)) →
  Mount.start env client self w = Some (r, w') →
  let evs := new_events w w' in
  ∀ k u, evs !! k = Some (EvUploadFile u) →
    ∃ filename rel_filename data0 resp j,
      (filename, rel_filename) ∈ Mount.get_files env (local_dir m) (condition m) ∧
      1 ≤ j ∧ j + 2 < k ∧
      evs !! (j - 1) = Some (EvHashDone filename (Ok data0)) ∧
      evs !! j =
        Some (EvRegisterFile {| rfq_filename := os_path_join (remote_dir m) rel_filename;
                                rfq_sha256_hex := sha256_hex env data0;
                                rfq_mount_id := ufq_mount_id u |}) ∧
      evs !! (k - 2) = Some (EvRegisterResponse resp) ∧
      rfr_filename resp = os_path_join (remote_dir m) rel_filename ∧
      rfr_exists resp = false ∧
      evs !! (k - 1) = Some (EvOpenRead filename (Ok (ufq_data u))) ∧
      ufq_sha256_hex u = sha256_hex env data0.
Proof.
  intros Em Hnd Hech Hrun evs k u Hu.
  assert (∃ m', Mount.synchronize env client m (trace w) = (r, m', trace w'))
    as (m' & Esync).
  { unfold Mount.start, Mount.start_obj in Hrun. rewrite Em in Hrun.
    destruct (mount_id m) as [id|].
    - destruct (truthy (Some id)).
      + injection Hrun as <- <-. unfold evs, new_events in Hu. simpl in Hu.
        by rewrite drop_all in Hu.
      + destruct (Mount.synchronize env client m (trace w)) as [[r0 m0] tr0].
        injection Hrun as <- <-. by exists m0.
    - destruct (Mount.synchronize env client m (trace w)) as [[r0 m0] tr0].
      injection Hrun as <- <-. by exists m0. }
  unfold evs, new_events in *. rewrite lookup_drop in Hu.
  destruct (synchronize_own env client m _ _ _ _ Hnd Hech Esync (length (trace w) + k) u
              ltac:(lia) Hu)
    as (f & resp & j & (rel & data0 & Hin & Hname & Hsha & Hj & Hhash & Hreg) &
        Hjk & Hresp & Hex & Hread & _).
  exists f, rel, data0, resp, (j - length (trace w)).
  split; [done|]. split; [lia|]. split; [lia|]. rewrite !lookup_drop.
  split; [rewrite <- Hhash; f_equal; lia|].
  split; [rewrite <- Hname, <- Hsha, <- Hreg; f_equal; lia|].
  split; [rewrite <- Hresp; f_equal; lia|].
  split; [done|]. split; [done|].
  split; [rewrite <- Hread; f_equal; lia|done].
Qed.

Lemma upload_follows_own_registration_witness :
  let evs := new_events (module_init test_env) after_failed_sync in
  Mount.start test_env (client_of broken_upload_server) mount_py_in_workdir_into_root
    (module_init test_env) =
    Some (Raise (RpcError "connection reset"), after_failed_sync) ∧
  ∃ filename rel_filename data0 resp j,
    (filename, rel_filename) ∈
      Mount.get_files test_env "." (λ filename, String.eqb (splitext_ext filename) ".py") ∧
    1 ≤ j ∧ j + 2 < 5 ∧
    evs !! (j - 1) = Some (EvHashDone filename (Ok data0)) ∧
    evs !! j =
      Some (EvRegisterFile {| rfq_filename := os_path_join "/root" rel_filename;
                              rfq_sha256_hex := sha256_hex test_env data0;
                              rfq_mount_id := "mo-0" |}) ∧
    evs !! (5 - 2) = Some (EvRegisterResponse resp) ∧
    rfr_filename resp = os_path_join "/root" rel_filename ∧
    rfr_exists resp = false ∧
    evs !! (5 - 1) = Some (EvOpenRead filename (Ok (list_byte_of_string "print(22)"))) ∧
    "sha256(print(1))" = sha256_hex test_env data0.
Proof.
  intros evs. split; [reflexivity|].
  apply (upload_follows_own_registration test_env (client_of broken_upload_server)
           mount_py_in_workdir_into_root (module_init test_env) _
           (Raise (RpcError "connection reset")) after_failed_sync
           eq_refl ltac:(compute_done) (λ t, echo_register_echoes nothing_exists 8 [])
           eq_refl 5
           {| ufq_data := list_byte_of_string "print(22)";
              ufq_sha256_hex := "sha256(print(1))"; ufq_size := 9;
              ufq_mount_id := "mo-0" |}).
  reflexivity.
Defined.

(** C6 as worded fails: with two files missing remotely, the first file is
    uploaded (event 5) before the second one is registered (event 7). *)
Lemma upload_before_later_registration :
  Mount.start test_env (client_of (server nothing_exists [])) mount_py_in_workdir_into_root
    (module_init test_env) = Some (Ok "mo-0", synced_world) ∧
  ¬ registration_phase_first (new_events (module_init test_env) synced_world).
Proof.
  split; [reflexivity|]. intros H.
  destruct (H 5 7 {| ufq_data := list_byte_of_string "print(22)";
                     ufq_sha256_hex := "sha256(print(1))"; ufq_size := 9;
                     ufq_mount_id := "mo-0" |} eq_refl) as [Hreg _].
  specialize (Hreg {| rfq_filename := "/root/pkg/b.py"; rfq_sha256_hex := "sha256(pass)";
                      rfq_mount_id := "mo-0" |} eq_refl).
  lia.
Qed.

(** * More about [Layer.start] *)

Section LayerStartMore.

Variable client : Client.

Lemma resolved_tags_ids w items bls :
  resolved w items = Some bls →
  map bl_docker_tag bls = map fst items ∧
  Forall2 (λ (p : string * addr) bl, cached w p.2 = Some (bl_layer_id bl)) items bls.
Proof.
  revert bls. induction items as [|[t b] items IH]; intros bls; simpl.
  - intros [= <-]. split; [done|constructor].
  - destruct (cached w b) as [id|] eqn:Eb; [|done].
    destruct (resolved w items) as [r'|]; [|done].
    intros [= <-]. destruct (IH r' eq_refl) as [Ht Hf]. simpl. split; [by rewrite Ht|].
    by constructor.
Qed.

Lemma last_app_nonempty {A} (l1 l2 : list A) x : last l2 = Some x → last (l1 ++ l2) = Some x.
Proof. intros H. rewrite last_app. by rewrite H. Qed.

Lemma world_le_events w w' : world_le w w' → trace w' = trace w ++ new_events w w'.
Proof. by intros (_ & _ & _ & ?). Qed.

(** [start] raises only when a [LayerCreate] fails. *)
Lemma start_base_layers_raise rec k :
  (∀ b w r w', b < k → dag w → rec b w = Some (r, w') → sound (S b) w w') →
  (∀ b w e w', b < k → dag w → rec b w = Some (Raise e, w') →
     ∃ s q, last (new_events w w') = Some (EvLayerCreate s q (Raise e))) →
  ∀ items acc w e w',
    Forall (λ p : string * addr, p.2 < k) items → dag w →
    Layer.start_base_layers rec items acc w = Some (Raise e, w') →
    ∃ s q, last (new_events w w') = Some (EvLayerCreate s q (Raise e)).
Proof.
  intros Hsound Hrec. induction items as [|[t b] items IH]; intros acc w e w' Hk Hd.
  - done.
  - rewrite start_base_layers_cons.
    apply Forall_cons in Hk as [Hb Hk]. simpl in Hb.
    destruct (rec b w) as [[[id|e0] w1]|] eqn:E; [| |done].
    + intros Hloop.
      destruct (Hsound _ _ _ _ Hb Hd E) as [Hle1 _].
      assert (dag w1) as Hd1 by (by eapply world_le_dag).
      assert (sound k w1 w') as [Hle2 _]
        by (eapply start_base_layers_sound; [exact Hsound|exact Hk|done|exact Hloop]).
      destruct (IH _ _ _ _ Hk Hd1 Hloop) as (s & q & Hlast).
      exists s, q.
      rewrite (new_events_trans w w1 w') by (by apply world_le_events).
      by apply last_app_nonempty.
    + intros [= <- <-]. by eapply Hrec.
Qed.

Lemma start_raise fuel :
  ∀ a w e w', dag w → Layer.start fuel client a w = Some (Raise e, w') →
    ∃ s q, last (new_events w w') = Some (EvLayerCreate s q (Raise e)).
Proof.
  induction fuel as [|fuel IH]; intros a w e w' Hd Hrun; [done|].
  destruct (layer_store w !! a) as [l|] eqn:El; [|by simpl in Hrun; rewrite El in Hrun].
  destruct (layer_id l) as [id0|] eqn:Hid.
  { simpl in Hrun. by rewrite El, Hid in Hrun. }
  pose proof Hrun as Hrun'. simpl in Hrun'. rewrite El, Hid in Hrun'.
  destruct (Layer.start_base_layers _ _ _ _) as [[[bls|e0] w1]|] eqn:Eloop; [| |done].
  - assert (sound a w w1) as Hs.
    { eapply start_base_layers_sound; [|by apply Hd|done|exact Eloop].
      intros; by eapply start_sound. }
    assert (layer_store w1 !! a = Some l) as El1.
    { destruct Hs as (_ & Hloc & _). rewrite Hloc; [done | lia]. }
    rewrite El1 in Hrun'.
    destruct (LayerCreate _ _ _) as [resp|e1] eqn:Eout; [done|].
    injection Hrun' as <- <-. eexists a, _.
    rewrite (new_events_trans w w1 (log _ w1));
      [|apply world_le_events, Hs|by rewrite new_events_log].
    rewrite new_events_log. apply last_snoc.
  - injection Hrun' as <- <-.
    eapply start_base_layers_raise; [| |by apply Hd|done|exact Eloop].
    + intros; by eapply start_sound.
    + intros; by eapply IH.
Qed.

End LayerStartMore.

(** X1.  Whatever its outcome, [Layer.start] on a DAG store changes nothing
    but unset layer ids: mounts and images are untouched, every layer keeps
    its tag, base layers, commands and context files, an id that was cached
    stays the same, layers above [a] are untouched, the store is still a
    DAG, and the trace grows by [LayerCreate] events for layers up to [a]
    only. *)
Theorem layer_start_frame client fuel a w r w' :
  dag w → Layer.start fuel client a w = Some (r, w') →
  mount_store w' = mount_store w ∧ image_store w' = image_store w ∧
  (∀ b l, layer_store w !! b = Some l →
     ∃ l', layer_store w' !! b = Some l' ∧ same_fields l l' ∧
           (∀ id, layer_id l = Some id → layer_id l' = Some id)) ∧
  (∀ b, layer_store w !! b = None → layer_store w' !! b = None) ∧
  (∀ b, a < b → layer_store w' !! b = layer_store w !! b) ∧
  dag w' ∧
  trace w' = trace w ++ new_events w w' ∧
  Forall (λ e, ∃ s q o, e = EvLayerCreate s q o ∧ s ≤ a) (new_events w w').
Proof.
  intros Hd Hrun.
  destruct (start_sound client fuel a w r w' Hd Hrun) as [Hle [Hloc Hev]].
  pose proof Hle as (Hm & Hi & Hl & Ht).
  split; [done|]. split; [done|]. split.
  { intros b l E. specialize (Hl b). by rewrite E in Hl. }
  split.
  { intros b E. specialize (Hl b). by rewrite E in Hl. }
  split; [intros b Hb; apply Hloc; lia|].
  split; [by eapply world_le_dag|]. split; [done|].
  eapply Forall_impl; [exact Hev|]. intros e (s & q & o & -> & Hs).
  exists s, q, o. split; [done|lia].
Qed.

Lemma layer_start_frame_witness :
  ∃ w', Layer.start 2 (client_of (server nothing_exists [])) 1 sharing_world =
          Some (Ok "la-1", w') ∧
        layer_store w' !! 3 = layer_store sharing_world !! 3 ∧
        mount_store w' = mount_store sharing_world.
Proof.
  eexists. split; [reflexivity|].
  destruct (layer_start_frame (client_of (server nothing_exists [])) 2 1 sharing_world
              (Ok "la-1") _ (dag_check_sound sharing_world eq_refl) eq_refl)
    as (Hm & _ & _ & _ & Hloc & _).
  split; [apply Hloc; lia|exact Hm].
Defined.

(** X2.  [Layer.start] is idempotent: after a successful [start] on a DAG
    store, any further [start] of that layer, by any client, returns the
    same id and leaves the world, trace included, as it is.  This holds for
    every id, the empty string too. *)
Theorem layer_start_idempotent client fuel a w id w' :
  dag w → Layer.start fuel client a w = Some (Ok id, w') →
  ∀ client' fuel', Layer.start (S fuel') client' a w' = Some (Ok id, w').
Proof.
  intros Hd Hrun client' fuel'.
  destruct (start_counts client fuel a w id w' Hd Hrun) as [_ Hc].
  by apply start_cached.
Qed.

Lemma layer_start_idempotent_witness :
  ∃ w', Layer.start 2 (client_of (server nothing_exists [])) 1 sharing_world =
          Some (Ok "la-1", w') ∧
        Layer.start 1 (client_of flaky_server) 1 w' = Some (Ok "la-1", w').
Proof.
  eexists. split; [reflexivity|].
  apply (layer_start_idempotent (client_of (server nothing_exists [])) 2 1 sharing_world
           "la-1" _ (dag_check_sound sharing_world eq_refl) eq_refl (client_of flaky_server) 0).
Defined.

(** X3.  [Layer.start] realizes bottom-up.  When it succeeds on a layer that
    was not realized, the layer's own [LayerCreate] is the last event and
    everything before it concerns older layers; the request carries the
    client id, the layer's tag, commands and context files, and one base
    layer entry per entry of [base_layers], in the order of the dict, with
    the docker tag and the id that is cached for that base layer; the id of
    the response is returned and cached. *)
Theorem layer_start_creates_bases_first client fuel a l w id w' :
  dag w → layer_store w !! a = Some l → layer_id l = None →
  Layer.start fuel client a w = Some (Ok id, w') →
  ∃ evs bls resp,
    new_events w w' =
      evs ++ [EvLayerCreate a {| lcq_client_id := client_id client;
                                 lcq_layer := Layer.layer_definition l bls |} (Ok resp)] ∧
    Forall (λ e, ∃ s q o, e = EvLayerCreate s q o ∧ s < a) evs ∧
    map bl_docker_tag bls = map fst (base_layers l) ∧
    Forall2 (λ (p : string * addr) bl, cached w' p.2 = Some (bl_layer_id bl))
      (base_layers l) bls ∧
    id = lcr_layer_id resp ∧ cached w' a = Some id.
Proof.
  intros Hd El Hid Hrun. destruct fuel as [|fuel]; [done|].
  destruct (start_counts client _ _ _ _ _ Hd Hrun) as [_ Hca].
  destruct (start_unrealized client fuel a l w (Ok id) w' Hd El Hid Hrun)
    as [(e & He & _)|(bls & w1 & Hs & Hc & Hr & El1 & Hout)]; [done|].
  cbv zeta in Hout.
  destruct (LayerCreate (stub client) (trace w1) _) as [resp|e1] eqn:Eout;
    destruct Hout as [Hres ->]; [|done].
  injection Hres as ->.
  exists (new_events w w1), bls, resp.
  assert (world_le w1 (set_layer a (with_layer_id (Some (lcr_layer_id resp)) l)
            (log (EvLayerCreate a {| lcq_client_id := client_id client;
                                     lcq_layer := Layer.layer_definition l bls |}
                    (Ok resp)) w1))) as Hle.
  { eapply (sound_create a l (lcr_layer_id resp)); eauto. }
  split.
  { rewrite (new_events_trans w w1 _); [|apply world_le_events, Hs|by apply world_le_events].
    f_equal. by apply new_events_app. }
  split; [apply Hs|].
  destruct (resolved_tags_ids w1 _ _ Hr) as [Ht Hf]. split; [done|]. split; [|done].
  eapply Forall2_impl; [exact Hf|]. intros p bl Hp. by eapply world_le_cached.
Qed.

Lemma layer_start_creates_bases_first_witness :
  ∃ w' evs bls resp,
    Layer.start 2 (client_of (server nothing_exists [])) 1 sharing_world =
      Some (Ok "la-1", w') ∧
    new_events sharing_world w' =
      evs ++ [EvLayerCreate 1
                {| lcq_client_id := "cl-1";
                   lcq_layer := Layer.layer_definition
                     (new_layer None [("base", 0)] ["FROM base"; "RUN make left"]) bls |}
                (Ok resp)] ∧
    map bl_docker_tag bls = ["base"].
Proof.
  eexists.
  destruct (layer_start_creates_bases_first (client_of (server nothing_exists [])) 2 1
              (new_layer None [("base", 0)] ["FROM base"; "RUN make left"])
              sharing_world "la-1" _ (dag_check_sound sharing_world eq_refl)
              eq_refl eq_refl eq_refl)
    as (evs & bls & resp & Hev & _ & Ht & _).
  exists evs, bls, resp. split; [reflexivity|]. split; [exact Hev|exact Ht].
Defined.

(** X4.  [Layer.start] raises only when a [LayerCreate] fails: the failed
    call is the last event, its error is the one raised (nothing is caught
    and nothing is tried after it), and the layer that was started is left
    as it was. *)
Theorem layer_start_raises_last_rpc_error client fuel a w e w' :
  dag w → Layer.start fuel client a w = Some (Raise e, w') →
  (∃ s q, last (new_events w w') = Some (EvLayerCreate s q (Raise e)) ∧ s ≤ a) ∧
  layer_store w' !! a = layer_store w !! a.
Proof.
  intros Hd Hrun.
  destruct (start_raise client fuel a w e w' Hd Hrun) as (s & q & Hlast).
  destruct (start_sound client fuel a w _ w' Hd Hrun) as [Hle [_ Hev]].
  split.
  - exists s, q. split; [done|].
    rewrite Forall_forall in Hev.
    destruct (Hev _ (last_Some_elem_of _ _ Hlast)) as (s' & q' & o' & [= <- _ _] & Hlt). lia.
  - destruct fuel as [|fuel]; [done|].
    destruct (layer_store w !! a) as [l|] eqn:El; [|by simpl in Hrun; rewrite El in Hrun].
    destruct (layer_id l) as [id0|] eqn:Hid.
    { simpl in Hrun. by rewrite El, Hid in Hrun. }
    destruct (start_unrealized client fuel a l w (Raise e) w' Hd El Hid Hrun)
      as [(e0 & _ & Hs)|(bls & w1 & Hs & _ & _ & El1 & Hout)].
    + destruct Hs as (_ & Hloc & _). rewrite Hloc; [done|lia].
    + cbv zeta in Hout. destruct (LayerCreate _ _ _); destruct Hout as [Hres ->]; [done|].
      exact El1.
Qed.

Lemma layer_start_raises_last_rpc_error_witness :
  last (new_events sharing_world after_failed_start) =
    Some (EvLayerCreate 1
            {| lcq_client_id := "cl-1";
               lcq_layer := Layer.layer_definition
                 (new_layer None [("base", 0)] ["FROM base"; "RUN make left"])
                 [{| bl_docker_tag := "base"; bl_layer_id := "la-0" |}] |}
            (Raise (RpcError "deadline exceeded"))) ∧
  layer_store after_failed_start !! 1 = layer_store sharing_world !! 1.
Proof.
  destruct (layer_start_raises_last_rpc_error (client_of flaky_server) 2 1 sharing_world
              (RpcError "deadline exceeded") after_failed_start
              (dag_check_sound sharing_world eq_refl) eq_refl) as [_ Hsame].
  split; [reflexivity|exact Hsame].
Defined.

Section LayerFuel.

Variable client : Client.

Lemma start_base_layers_mono (rec rec' : addr → World → option (Res string * World)) :
  (∀ b w res, rec b w = Some res → rec' b w = Some res) →
  ∀ items acc w res,
    Layer.start_base_layers rec items acc w = Some res →
    Layer.start_base_layers rec' items acc w = Some res.
Proof.
  intros Hrec. induction items as [|[t b] items IH]; intros acc w res; [done|].
  rewrite !start_base_layers_cons.
  destruct (rec b w) as [[[id|e] w1]|] eqn:E; [| |done].
  - rewrite (Hrec _ _ _ E). apply IH.
  - by rewrite (Hrec _ _ _ E).
Qed.

(** More fuel does not change a result. *)
Lemma start_fuel_S fuel :
  ∀ a w res, Layer.start fuel client a w = Some res →
             Layer.start (S fuel) client a w = Some res.
Proof.
  induction fuel as [|fuel IH]; intros a w res; [done|].
  intros Hrun. simpl in Hrun.
  change (Layer.start (S (S fuel)) client a w) with
    (match layer_store w !! a with
     | None => None
     | Some l =>
         match layer_id l with
         | Some id => Some (Ok id, w)
         | None =>
             match Layer.start_base_layers (Layer.start (S fuel) client)
                     (base_layers l) [] w with
             | None => None
             | Some (Raise e, w1) => Some (Raise e, w1)
             | Some (Ok base_layers, w1) =>
                 match layer_store w1 !! a with
                 | None => None
                 | Some l1 =>
                     let request :=
                       {| lcq_client_id := client_id client;
                          lcq_layer := Layer.layer_definition l1 base_layers |} in
                     let out := LayerCreate (stub client) (trace w1) request in
                     let w2 := log (EvLayerCreate a request out) w1 in
                     match out with
                     | Raise e => Some (Raise e, w2)
                     | Ok response =>
                         Some (Ok (lcr_layer_id response),
                               set_layer a (with_layer_id (Some (lcr_layer_id response)) l1) w2)
                     end
                 end
             end
         end
     end).
  destruct (layer_store w !! a) as [l|]; [|done].
  destruct (layer_id l); [done|].
  destruct (Layer.start_base_layers (Layer.start fuel client) _ _ _) as [res1|] eqn:Eloop;
    [|done].
  by rewrite (start_base_layers_mono _ _ IH _ _ _ _ Eloop).
Qed.

Lemma start_fuel_le fuel fuel' a w res :
  fuel ≤ fuel' → Layer.start fuel client a w = Some res →
  Layer.start fuel' client a w = Some res.
Proof.
  induction 1 as [|fuel' Hle IH]; [done|]. intros Hrun. by apply start_fuel_S, IH.
Qed.

End LayerFuel.

(** X5.  On a DAG store [Layer.start] returns: for a layer at address [a]
    the recursion is at most [a + 1] calls deep, and the outcome (the id or
    the error, and the world) is the same for every bound above that. *)
Theorem layer_start_returns client a w :
  dag w → a < length (layer_store w) →
  ∃ r w', ∀ fuel, a < fuel → Layer.start fuel client a w = Some (r, w').
Proof.
  intros Hd Hlen.
  destruct (start_total client (S a) a w Hd Hlen ltac:(lia)) as [[r w'] Hrun].
  exists r, w'. intros fuel Hfuel. eapply start_fuel_le; [|exact Hrun]. lia.
Qed.

Lemma layer_start_returns_witness :
  ∃ r w', ∀ fuel, 2 < fuel →
    Layer.start fuel (client_of flaky_server) 2 sharing_world = Some (r, w').
Proof.
  apply (layer_start_returns (client_of flaky_server) 2 sharing_world
           (dag_check_sound sharing_world eq_refl)).
  simpl. lia.
Defined.

(** * Where the errors of [start] come from *)

Section Explained.

Lemma calm_app evs1 evs2 : calm evs1 → calm evs2 → calm (evs1 ++ evs2).
Proof. apply Forall_app_2. Qed.

Lemma calm_one ev : failure_of ev = None → calm [ev].
Proof. intros H. by repeat constructor. Qed.

Lemma explained_prepend {A} (r : Res A) evs1 evs2 :
  calm evs1 → explained r evs2 → explained r (evs1 ++ evs2).
Proof.
  intros Hq [[Hq2 Hr]|(evs0 & ev & e & -> & Hq0 & Hf & ->)].
  - left. split; [by apply calm_app|]. destruct r as [a|e]; [done|].
    destruct Hr as (evs0 & ev & -> & Hk). exists (evs1 ++ evs0), ev.
    by rewrite app_assoc.
  - right. exists (evs1 ++ evs0), ev, e. rewrite app_assoc. repeat split; try done.
    by apply calm_app.
Qed.

Lemma explained_ok_calm {A} (a : A) evs : explained (Ok a) evs → calm evs.
Proof. by intros [[Hq _]|(? & ? & ? & _ & _ & _ & ?)]. Qed.

Lemma explained_ok {A} (a : A) evs : calm evs → explained (Ok a) evs.
Proof. by left. Qed.

Lemma explained_failure {A} (r : Res A) ev e :
  failure_of ev = Some e → r = Raise e → explained r [ev].
Proof. intros Hf ->. right. exists [], ev, e. repeat split; try done. constructor. Qed.

Lemma explained_raise {A B} e evs :
  explained (Raise e : Res A) evs → explained (Raise e : Res B) evs.
Proof.
  intros [[Hq Hr]|(evs0 & ev & e' & -> & Hq0 & Hf & [= ->])]; [by left|].
  right. by exists evs0, ev, e'.
Qed.

(** A failure among the events is the last event and the result. *)
Lemma explained_elem {A} (r : Res A) evs ev e :
  explained r evs → ev ∈ evs → failure_of ev = Some e →
  r = Raise e ∧ last evs = Some ev.
Proof.
  intros [[Hq _]|(evs0 & ev' & e' & -> & Hq0 & Hf & ->)] Hin He.
  - unfold calm in Hq. rewrite Forall_forall in Hq. specialize (Hq ev Hin). congruence.
  - apply elem_of_app in Hin as [Hin|Hin].
    + unfold calm in Hq0. rewrite Forall_forall in Hq0. specialize (Hq0 ev Hin). congruence.
    + apply list_elem_of_singleton in Hin as ->. rewrite last_snoc.
      split; [congruence|done].
Qed.

(** An error has its cause in the last event. *)
Lemma explained_cause {A} (r : Res A) evs e :
  explained r evs → r = Raise e →
  ∃ ev, last evs = Some ev ∧ (failure_of ev = Some e ∨ key_error_cause ev e).
Proof.
  intros Hex ->. destruct Hex as [[Hq Hr]|(evs0 & ev' & e' & -> & Hq0 & Hf & [= ->])].
  - destruct Hr as (evs0 & ev & -> & Hk). exists ev. rewrite last_snoc. split; [done|by right].
  - exists ev'. rewrite last_snoc. split; [done|]. by left.
Qed.

End Explained.

Section MountExplained.

Context (env : Env).

Lemma get_files_next_explained pending tr r pending' tr' :
  Mount.get_files_next env pending tr = (r, pending', tr') →
  ∃ evs, tr' = tr ++ evs ∧ explained r evs.
Proof.
  unfold Mount.get_files_next. destruct pending as [|[f rel] rest].
  - intros [= <- <- <-]. exists []. rewrite app_nil_r. split; [done|]. left.
    split; [constructor|done].
  - destruct (open_read env tr f) as [data|e] eqn:E; intros [= <- <- <-].
    + eexists. split; [done|]. apply explained_ok. by apply calm_one.
    + eexists. split; [done|]. by eapply explained_failure.
Qed.

Lemma register_next_explained mid pending self tr r pending' self' tr' :
  Mount._register_file_requests_next env mid pending self tr = (r, pending', self', tr') →
  ∃ evs, tr' = tr ++ evs ∧ explained r evs.
Proof.
  unfold Mount._register_file_requests_next.
  destruct (Mount.get_files_next env pending tr) as [[r0 p0] tr0] eqn:E.
  apply get_files_next_explained in E as (evs & -> & Hex).
  destruct r0 as [[[[f rel] sha]|]|e]; intros [= <- <- <- <-].
  - eexists. rewrite <- app_assoc. split; [done|]. apply explained_ok.
    apply calm_app; [by eapply explained_ok_calm|by apply calm_one].
  - exists evs. split; [done|]. apply explained_ok. by eapply explained_ok_calm.
  - exists evs. split; [done|]. by eapply explained_raise.
Qed.

Lemma upload_next_explained mid reg :
  ∀ pending self tr r gen' self' tr',
    Mount._upload_file_requests_next env mid reg pending self tr = (r, gen', self', tr') →
    ∃ evs, tr' = tr ++ evs ∧ explained r evs.
Proof.
  induction reg as [k IH|resp k IH| |e]; intros pending self tr r gen' self' tr'; simpl.
  - destruct (Mount._register_file_requests_next env mid pending self tr)
      as [[[r0 p0] s0] tr0] eqn:E.
    apply register_next_explained in E as (evs & -> & Hex).
    destruct r0 as [o|e].
    + intros Hrec. apply IH in Hrec as (evs2 & -> & Hex2).
      exists (evs ++ evs2). rewrite app_assoc. split; [done|].
      apply explained_prepend; [by eapply explained_ok_calm|done].
    + intros [= <- <- <- <-]. exists evs. split; [done|]. by eapply explained_raise.
  - destruct (rfr_exists resp) eqn:Eex.
    + intros Hrec. apply IH in Hrec as (evs2 & -> & Hex2).
      exists ([EvRegisterResponse resp] ++ evs2). rewrite app_assoc. split; [done|].
      apply explained_prepend; [by apply calm_one|done].
    + destruct (_remote_to_local_filename self !! rfr_filename resp) as [f|].
      2: { intros [= <- <- <- <-]. eexists. split; [done|]. left.
           split; [by apply calm_one|]. by exists [], (EvRegisterResponse resp). }
      destruct (open_read env _ f) as [data|e] eqn:Eread.
      2: { intros [= <- <- <- <-]. eexists. rewrite <- app_assoc. split; [done|].
           apply (explained_prepend _ [EvRegisterResponse resp]); [by apply calm_one|].
           by eapply explained_failure. }
      destruct (_hashes self !! f) as [sha|]; intros [= <- <- <- <-].
      * eexists. rewrite <- !app_assoc. split; [done|]. apply explained_ok.
        by repeat constructor.
      * eexists. rewrite <- app_assoc. split; [done|]. left.
        split; [by repeat constructor|].
        by exists [EvRegisterResponse resp], (EvOpenRead f (Ok data)).
  - intros [= <- <- <- <-]. exists []. rewrite app_nil_r. split; [done|].
    apply explained_ok. constructor.
  - intros [= <- <- <- <-]. eexists. split; [done|]. by eapply explained_failure.
Qed.

Lemma MountUploadFile_call_explained mid up :
  ∀ gen self tr r self' tr',
    Mount.MountUploadFile_call env mid up gen self tr = (r, self', tr') →
    ∃ evs, tr' = tr ++ evs ∧ explained r evs.
Proof.
  induction up as [k IH| |e]; intros gen self tr r self' tr'; simpl.
  - destruct (Mount._upload_file_requests_next env mid gen.1 gen.2 self tr)
      as [[[r0 g0] s0] tr0] eqn:E.
    apply upload_next_explained in E as (evs & -> & Hex).
    destruct r0 as [o|e].
    + intros Hrec. apply IH in Hrec as (evs2 & -> & Hex2).
      exists (evs ++ evs2). rewrite app_assoc. split; [done|].
      apply explained_prepend; [by eapply explained_ok_calm|done].
    + intros [= <- <- <-]. exists evs. split; [done|]. by eapply explained_raise.
  - intros [= <- <- <-]. eexists. split; [done|]. apply explained_ok. by apply calm_one.
  - intros [= <- <- <-]. eexists. split; [done|]. by eapply explained_failure.
Qed.

Lemma synchronize_explained client m tr r m' tr' :
  Mount.synchronize env client m tr = (r, m', tr') →
  ∃ evs, tr' = tr ++ evs ∧ explained r evs.
Proof.
  unfold Mount.synchronize. intros Hrun. cbv zeta in *.
  set (req := {| mcq_client_id := client_id client |}) in *.
  destruct (MountCreate (stub client) tr req) as [resp|e] eqn:Ecreate.
  2: { injection Hrun as <- <- <-. eexists. split; [done|]. by eapply explained_failure. }
  destruct (Mount.MountUploadFile_call _ _ _ _ _ _) as [[r1 m1] tr1] eqn:Ecall.
  apply MountUploadFile_call_explained in Ecall as (evs1 & -> & Hex1).
  destruct r1 as [[]|e].
  - apply explained_ok_calm in Hex1.
    destruct (MountDone (stub client) _ _) as [[]|e] eqn:Edone; injection Hrun as <- <- <-.
    + eexists. rewrite <- !app_assoc. split; [done|]. apply explained_ok.
      apply calm_app; [by apply calm_one|]. apply calm_app; [done|by apply calm_one].
    + eexists. rewrite <- !app_assoc. split; [done|].
      apply (explained_prepend _ [EvMountCreate req (Ok resp)]); [by apply calm_one|].
      apply explained_prepend; [done|]. by eapply explained_failure.
  - injection Hrun as <- <- <-. eexists. rewrite <- app_assoc. split; [done|].
    apply (explained_prepend _ [EvMountCreate req (Ok resp)]); [by apply calm_one|].
    by eapply explained_raise.
Qed.

Lemma mount_start_explained client self w r w' :
  Mount.start env client self w = Some (r, w') →
  trace w' = trace w ++ new_events w w' ∧ explained r (new_events w w').
Proof.
  unfold Mount.start. destruct (mount_store w !! self) as [m|]; [|done].
  unfold Mount.start_obj.
  assert (∀ r0 m0 tr0, Mount.synchronize env client m (trace w) = (r0, m0, tr0) →
            tr0 = trace w ++ drop (length (trace w)) tr0 ∧
            explained r0 (drop (length (trace w)) tr0)) as Hsync.
  { intros r0 m0 tr0 E. apply synchronize_explained in E as (evs & -> & Hex).
    by rewrite drop_app_length. }
  destruct (mount_id m) as [id|].
  - destruct (truthy (Some id)).
    + intros [= <- <-]. unfold new_events. simpl. rewrite drop_all, app_nil_r.
      split; [done|]. apply explained_ok. constructor.
    + destruct (Mount.synchronize env client m (trace w)) as [[r0 m0] tr0].
      intros [= <- <-]. by apply (Hsync _ m0).
  - destruct (Mount.synchronize env client m (trace w)) as [[r0 m0] tr0].
    intros [= <- <-]. by apply (Hsync _ m0).
Qed.

End MountExplained.

(** * More about [Mount.start] *)

Section PipelineInvariant.

Context (env : Env) (mid : string).
Variable I : list (string * string) → MountObj → list Event → Prop.

Hypothesis Hreg :
  ∀ pending self tr r pending' self' tr',
    Mount._register_file_requests_next env mid pending self tr = (r, pending', self', tr') →
    I pending self tr → I pending' self' tr'.
Hypothesis Hreset : ∀ pending self tr, I pending self tr → I [] self tr.
Hypothesis Hev :
  ∀ pending self tr ev, stream_reply ev → I pending self tr → I pending self (tr ++ [ev]).

(** An invariant of the registration steps that does not depend on what
    else the streams append holds along the whole upload call. *)
Lemma upload_next_invariant reg :
  ∀ pending self tr r gen' self' tr',
    Mount._upload_file_requests_next env mid reg pending self tr = (r, gen', self', tr') →
    I pending self tr → I gen'.2 self' tr'.
Proof.
  induction reg as [k IH|resp k IH| |e]; intros pending self tr r gen' self' tr'; simpl.
  - destruct (Mount._register_file_requests_next env mid pending self tr)
      as [[[r0 p0] s0] tr0] eqn:E.
    intros Hrun Hi. pose proof (Hreg _ _ _ _ _ _ _ E Hi) as Hi0.
    destruct r0 as [o|e].
    + by eapply IH.
    + injection Hrun as <- <- <- <-. by eapply Hreset.
  - intros Hrun Hi.
    assert (I pending self (tr ++ [EvRegisterResponse resp])) as Hi1 by (by apply Hev).
    destruct (rfr_exists resp); [by eapply IH|].
    destruct (_remote_to_local_filename self !! rfr_filename resp) as [f|].
    2: { injection Hrun as <- <- <- <-. by eapply Hreset. }
    assert (I pending self ((tr ++ [EvRegisterResponse resp]) ++
              [EvOpenRead f (open_read env (tr ++ [EvRegisterResponse resp]) f)])) as Hi2
      by (by apply Hev).
    destruct (open_read env _ f) as [data|e].
    2: { injection Hrun as <- <- <- <-. by eapply Hreset. }
    destruct (_hashes self !! f) as [sha|]; injection Hrun as <- <- <- <-.
    + by apply Hev.
    + by eapply Hreset.
  - intros [= <- <- <- <-] Hi. by eapply Hreset.
  - intros [= <- <- <- <-] Hi. eapply Hreset. by apply Hev.
Qed.

Lemma MountUploadFile_call_invariant up :
  ∀ gen self tr r self' tr',
    Mount.MountUploadFile_call env mid up gen self tr = (r, self', tr') →
    I gen.2 self tr → ∃ pending', I pending' self' tr'.
Proof.
  induction up as [k IH| |e]; intros gen self tr r self' tr'; simpl.
  - destruct (Mount._upload_file_requests_next env mid gen.1 gen.2 self tr)
      as [[[r0 g0] s0] tr0] eqn:E.
    intros Hrun Hi. pose proof (upload_next_invariant _ _ _ _ _ _ _ _ E Hi) as Hi0.
    destruct r0 as [o|e].
    + by eapply IH.
    + injection Hrun as <- <- <-. by eexists.
  - intros [= <- <- <-] Hi. eexists. by apply Hev.
  - intros [= <- <- <-] Hi. eexists. by apply Hev.
Qed.

End PipelineInvariant.

Section RegistrationInvariant.

Context (env : Env).
Variables (files : list (string * string)) (rdir mid : string) (tr0 : list Event).

Lemma registrations_app evs1 evs2 :
  registrations (evs1 ++ evs2) = registrations evs1 ++ registrations evs2.
Proof. apply omap_app. Qed.

Lemma registrations_other evs ev :
  (∀ q, ev ≠ EvRegisterFile q) → registrations (evs ++ [ev]) = registrations evs.
Proof.
  intros Hev. rewrite registrations_app.
  destruct ev; try (by rewrite app_nil_r). by destruct (Hev req).
Qed.

Lemma registration_after_hash_other evs ev :
  (∀ q, ev ≠ EvRegisterFile q) → registration_after_hash env files rdir mid evs →
  registration_after_hash env files rdir mid (evs ++ [ev]).
Proof.
  intros Hev Hevs i q Hi. apply lookup_app_Some in Hi as [Hi|[Hge Hi]].
  - destruct (Hevs i q Hi) as (f & rel & data & Hin & Hn & Hm & H1 & Hprev & Hsha).
    exists f, rel, data. repeat split; try done. by apply lookup_app_l_Some.
  - destruct (i - length evs) as [|n]; [|done]. injection Hi as ->. by destruct (Hev q).
Qed.

Lemma stream_reply_other ev : stream_reply ev → ∀ q, ev ≠ EvRegisterFile q.
Proof. intros Hev q ->. done. Qed.

Lemma registrations_reply evs ev :
  stream_reply ev → registrations (evs ++ [ev]) = registrations evs.
Proof. intros Hev. by apply registrations_other, stream_reply_other. Qed.

Lemma registration_after_hash_reply evs ev :
  stream_reply ev → registration_after_hash env files rdir mid evs →
  registration_after_hash env files rdir mid (evs ++ [ev]).
Proof. intros Hev. by apply registration_after_hash_other, stream_reply_other. Qed.

(** The invariant of a synchronization that started at [tr0]. *)
Let I (pending : list (string * string)) (self : MountObj) (tr : list Event) : Prop :=
  remote_dir self = rdir ∧
  ∃ evs, tr = tr0 ++ evs ∧
    registered_in_order files rdir mid pending evs ∧
    registration_after_hash env files rdir mid evs.

Lemma registration_step pending self tr r pending' self' tr' :
  Mount._register_file_requests_next env mid pending self tr = (r, pending', self', tr') →
  I pending self tr → I pending' self' tr'.
Proof.
  unfold Mount._register_file_requests_next, Mount.get_files_next.
  destruct pending as [|[f rel] rest].
  { by intros [= <- <- <- <-]. }
  intros Hrun (Hrd & evs & -> & (done & rest' & Hfiles & Hpend & Hord) & Hpos).
  destruct Hpend as [[= <-]|?]; [|done].
  destruct (open_read env (tr0 ++ evs) f) as [data|e]; injection Hrun as <- <- <- <-.
  - split; [done|].
    exists (evs ++ [EvHashDone f (Ok data);
                    EvRegisterFile {| rfq_filename := os_path_join (remote_dir self) rel;
                                      rfq_sha256_hex := sha256_hex env data;
                                      rfq_mount_id := mid |}]).
    split; [by rewrite <- !app_assoc|]. split.
    + exists (done ++ [(f, rel)]), rest. split; [by rewrite <- app_assoc|].
      split; [by left|]. rewrite registrations_app. apply Forall2_app; [done|].
      simpl. constructor; [|constructor]. by rewrite Hrd.
    + intros i q Hi. apply lookup_app_Some in Hi as [Hi|[Hge Hi]].
      * destruct (Hpos i q Hi) as (f' & rel' & data' & Hin & Hn & Hm & H1 & Hprev & Hsha).
        exists f', rel', data'. repeat split; try done. by apply lookup_app_l_Some.
      * destruct (i - length evs) as [|[|n]] eqn:En; [done| |done].
        injection Hi as <-. exists f, rel, data. simpl.
        split; [rewrite Hfiles; apply elem_of_app; right; apply elem_of_cons; by left|].
        split; [by rewrite Hrd|]. split; [done|]. split; [lia|]. split; [|done].
        rewrite lookup_app_r by lia. by replace (i - 1 - length evs) with 0 by lia.
  - split; [done|]. exists (evs ++ [EvHashDone f (Raise e)]).
    split; [by rewrite <- app_assoc|]. split.
    + exists done, ((f, rel) :: rest). split; [done|]. split; [by right|].
      by rewrite registrations_other.
    + by apply registration_after_hash_other.
Qed.

Lemma registration_reset pending self tr : I pending self tr → I [] self tr.
Proof.
  intros (Hrd & evs & -> & (done & rest & Hfiles & _ & Hord) & Hpos).
  split; [done|]. exists evs. split; [done|]. split; [|done].
  exists done, rest. split; [done|]. split; [by right|done].
Qed.

Lemma registration_reply pending self tr ev :
  stream_reply ev → I pending self tr → I pending self (tr ++ [ev]).
Proof.
  intros Hev (Hrd & evs & -> & (done & rest & Hfiles & Hpend & Hord) & Hpos).
  split; [done|]. exists (evs ++ [ev]). split; [by rewrite <- app_assoc|]. split.
  - exists done, rest. split; [done|]. split; [done|]. by rewrite registrations_reply.
  - by apply registration_after_hash_reply.
Qed.

Lemma registration_call up gen self tr r self' tr' :
  Mount.MountUploadFile_call env mid up gen self tr = (r, self', tr') →
  I gen.2 self tr → ∃ pending', I pending' self' tr'.
Proof.
  apply (MountUploadFile_call_invariant env mid I registration_step registration_reset
           registration_reply).
Qed.

End RegistrationInvariant.

Section SynchronizeRegistrations.

Context (env : Env).

Lemma registration_after_hash_cons files rdir mid ev evs :
  (∀ q, ev ≠ EvRegisterFile q) → registration_after_hash env files rdir mid evs →
  registration_after_hash env files rdir mid (ev :: evs).
Proof.
  intros Hev Hevs [|i] q Hi; [injection Hi as ->; by destruct (Hev q)|].
  simpl in Hi. destruct (Hevs i q Hi) as (f & rel & data & Hin & Hn & Hm & H1 & Hprev & Hsha).
  exists f, rel, data. repeat split; try done; [lia|].
  destruct i as [|i]; [lia|]. simpl in *. by rewrite Nat.sub_0_r in *.
Qed.

Lemma synchronize_registrations client m tr r m' tr' :
  Mount.synchronize env client m tr = (r, m', tr') →
  let req := {| mcq_client_id := client_id client |} in
  let files := Mount.get_files env (local_dir m) (condition m) in
  ∃ evs, tr' = tr ++ evs ∧
    ((∃ e, evs = [EvMountCreate req (Raise e)]) ∨
     ∃ resp,
       head evs = Some (EvMountCreate req (Ok resp)) ∧
       (∃ pending, registered_in_order files (remote_dir m) (mcr_mount_id resp) pending evs) ∧
       registration_after_hash env files (remote_dir m) (mcr_mount_id resp) evs).
Proof.
  unfold Mount.synchronize. intros Hrun. cbv zeta in *.
  set (req := {| mcq_client_id := client_id client |}) in *.
  set (files := Mount.get_files env (local_dir m) (condition m)) in *.
  destruct (MountCreate (stub client) tr req) as [resp|e] eqn:Ecreate.
  2: { injection Hrun as <- <- <-. eexists. split; [done|]. left. by exists e. }
  destruct (Mount.MountUploadFile_call _ _ _ _ _ _) as [[r1 m1] tr1] eqn:Ecall.
  apply (registration_call env files (remote_dir m) (mcr_mount_id resp)
           (tr ++ [EvMountCreate req (Ok resp)])) in Ecall
    as (pending' & Hrd & evs & -> & (done & rest & Hfiles & Hpend & Hord) & Hpos).
  2: { split; [done|]. exists []. split; [by rewrite app_nil_r|]. split.
       - exists [], files. split; [done|]. split; [by left|constructor].
       - by intros i q. }
  assert (∀ ev, (∀ q, ev ≠ EvRegisterFile q) →
            (∃ pending, registered_in_order files (remote_dir m) (mcr_mount_id resp) pending
                          (EvMountCreate req (Ok resp) :: evs ++ [ev])) ∧
            registration_after_hash env files (remote_dir m) (mcr_mount_id resp)
              (EvMountCreate req (Ok resp) :: evs ++ [ev])) as Hdone.
  { intros ev Hev. split.
    - exists pending', done, rest. split; [done|]. split; [done|].
      change (EvMountCreate req (Ok resp) :: evs ++ [ev]) with
        ([EvMountCreate req (Ok resp)] ++ (evs ++ [ev])).
      by rewrite registrations_app, registrations_other.
    - apply registration_after_hash_cons; [done|].
      by apply registration_after_hash_other. }
  assert ((∃ pending, registered_in_order files (remote_dir m) (mcr_mount_id resp) pending
                        (EvMountCreate req (Ok resp) :: evs)) ∧
          registration_after_hash env files (remote_dir m) (mcr_mount_id resp)
            (EvMountCreate req (Ok resp) :: evs)) as Hstop.
  { split.
    - exists pending', done, rest. split; [done|]. split; [done|].
      change (EvMountCreate req (Ok resp) :: evs) with ([EvMountCreate req (Ok resp)] ++ evs).
      by rewrite registrations_app.
    - by apply registration_after_hash_cons. }
  destruct r1 as [[]|e].
  - destruct (MountDone (stub client) _ _) as [[]|e] eqn:Edone; injection Hrun as <- <- <-.
    + eexists (EvMountCreate req (Ok resp) :: evs ++ [_]).
      split; [by rewrite <- !app_assoc|]. right. exists resp. split; [done|]. by apply Hdone.
    + eexists (EvMountCreate req (Ok resp) :: evs ++ [_]).
      split; [by rewrite <- !app_assoc|]. right. exists resp. split; [done|]. by apply Hdone.
  - injection Hrun as <- <- <-. exists (EvMountCreate req (Ok resp) :: evs).
    split; [by rewrite <- !app_assoc|]. right. by exists resp.
Qed.

Lemma elem_of_get_files f rel local_dir condition :
  (f, rel) ∈ Mount.get_files env local_dir condition →
  (f, rel) ∈ walk env local_dir ∧ condition f = true.
Proof.
  unfold Mount.get_files. intros Hin. apply list_elem_of_In, List.filter_In in Hin as [Hin Hc].
  split; [by apply list_elem_of_In|done].
Qed.

(** The events of a [start]: none if the cached id was used, the events of
    [synchronize] otherwise. *)
Lemma mount_start_cases client self w m r w' :
  mount_store w !! self = Some m → Mount.start env client self w = Some (r, w') →
  new_events w w' = [] ∨
  ∃ m', Mount.synchronize env client m (trace w) = (r, m', trace w') ∧
        mount_store w' = <[self := m']> (mount_store w).
Proof.
  intros Em. unfold Mount.start, Mount.start_obj. rewrite Em.
  destruct (mount_id m) as [id|].
  - destruct (truthy (Some id)).
    + intros [= <- <-]. left. unfold new_events. simpl. apply drop_all.
    + destruct (Mount.synchronize env client m (trace w)) as [[r0 m0] tr0].
      intros [= <- <-]. right. by exists m0.
  - destruct (Mount.synchronize env client m (trace w)) as [[r0 m0] tr0].
    intros [= <- <-]. right. by exists m0.
Qed.

End SynchronizeRegistrations.

(** X6.  Every registration request of a [start] is for a file that
    [os.walk] listed and that satisfies the mount's condition.  It is the
    coroutine's next step after [await fut] returned for the hashing job of
    that file, and it carries [os.path.join(remote_dir, rel_filename)] as
    its name, the digest that the job returned, and the mount id that
    [MountCreate] returned.  (When the worker thread read the file is not
    part of the statement.) *)
Theorem registrations_follow_hashing env client self w m r w' :
  mount_store w !! self = Some m → Mount.start env client self w = Some (r, w') →
  ∀ i q, new_events w w' !! i = Some (EvRegisterFile q) →
    ∃ resp f rel data,
      head (new_events w w') =
        Some (EvMountCreate {| mcq_client_id := client_id client |} (Ok resp)) ∧
      (f, rel) ∈ walk env (local_dir m) ∧ condition m f = true ∧
      rfq_filename q = os_path_join (remote_dir m) rel ∧
      rfq_mount_id q = mcr_mount_id resp ∧
      1 ≤ i ∧ new_events w w' !! (i - 1) = Some (EvHashDone f (Ok data)) ∧
      rfq_sha256_hex q = sha256_hex env data.
Proof.
  intros Em Hrun i q Hi.
  destruct (mount_start_cases env client self w m r w' Em Hrun) as [Hnil|(m' & Hsync & _)].
  { by rewrite Hnil in Hi. }
  apply synchronize_registrations in Hsync as (evs & Htr & Hcases). cbv zeta in Hcases.
  rewrite (new_events_app w evs w' Htr) in *.
  destruct Hcases as [(e & ->)|(resp & Hhead & _ & Hpos)].
  { destruct i as [|i]; [done|]. by destruct i. }
  destruct (Hpos i q Hi) as (f & rel & data & Hin & Hn & Hm & H1 & Hprev & Hsha).
  apply elem_of_get_files in Hin as [Hin Hc].
  by exists resp, f, rel, data.
Qed.

Lemma registrations_follow_hashing_witness :
  ∃ f rel data,
    (f, rel) ∈ walk test_env "." ∧
    "/root/pkg/b.py" = os_path_join "/root" rel ∧
    new_events (module_init test_env) synced_world !! 6 = Some (EvHashDone f (Ok data)) ∧
    "sha256(pass)" = sha256_hex test_env data.
Proof.
  destruct (registrations_follow_hashing test_env (client_of (server nothing_exists []))
              mount_py_in_workdir_into_root (module_init test_env) _ (Ok "mo-0") synced_world
              eq_refl eq_refl 7
              {| rfq_filename := "/root/pkg/b.py"; rfq_sha256_hex := "sha256(pass)";
                 rfq_mount_id := "mo-0" |} eq_refl)
    as (resp & f & rel & data & _ & Hin & _ & Hn & _ & _ & Hprev & Hsha).
  by exists f, rel, data.
Defined.

Lemma registers_file_names rdir mid done regs :
  Forall2 (registers_file rdir mid) done regs →
  map rfq_filename regs = map (λ p, os_path_join rdir p.2) done.
Proof.
  induction 1 as [|p q done' regs [Hn _] _ IH]; [done|]. simpl. by rewrite Hn, IH.
Qed.

(** X7.  The files are registered in the order in which [get_files] yields
    them, each at most once and none skipped: the names registered by a
    [start], whatever its outcome, are the remote names of the first files
    of [get_files], in that order. *)
Theorem registrations_in_get_files_order env client self w m r w' :
  mount_store w !! self = Some m → Mount.start env client self w = Some (r, w') →
  ∃ done rest,
    Mount.get_files env (local_dir m) (condition m) = done ++ rest ∧
    map rfq_filename (registrations (new_events w w')) =
      map (λ p, os_path_join (remote_dir m) p.2) done.
Proof.
  intros Em Hrun.
  destruct (mount_start_cases env client self w m r w' Em Hrun) as [Hnil|(m' & Hsync & _)].
  { rewrite Hnil. by exists [], (Mount.get_files env (local_dir m) (condition m)). }
  apply synchronize_registrations in Hsync as (evs & Htr & Hcases). cbv zeta in Hcases.
  rewrite (new_events_app w evs w' Htr) in *.
  destruct Hcases as [(e & ->)|(resp & _ & (pending & done & rest & Hfiles & _ & Hord) & _)].
  { by exists [], (Mount.get_files env (local_dir m) (condition m)). }
  exists done, rest. split; [done|]. by eapply registers_file_names.
Qed.

Lemma registrations_in_get_files_order_witness :
  ∃ done rest,
    Mount.get_files test_env "." (λ filename, String.eqb (splitext_ext filename) ".py") =
      done ++ rest ∧
    map rfq_filename (registrations (new_events (module_init test_env) after_failed_sync)) =
      map (λ p, os_path_join "/root" p.2) done.
Proof.
  apply (registrations_in_get_files_order test_env (client_of broken_upload_server)
           mount_py_in_workdir_into_root (module_init test_env) _
           (Raise (RpcError "connection reset")) after_failed_sync eq_refl eq_refl).
Defined.

(** X8.  [Mount.start] does not raise out of nothing: when it raises, the
    last step it took explains the error.  Either that step is a remote
    call that failed, a hashing future that raised when it was awaited, or
    a read for an upload that failed, with that very error; or the error is
    a [KeyError], for the name of a response "does not exist" that is not
    in [_remote_to_local_filename], or for a file just read for its upload
    that is not in [_hashes]. *)
Theorem mount_start_error_has_cause env client self w e w' :
  Mount.start env client self w = Some (Raise e, w') →
  ∃ ev, last (new_events w w') = Some ev ∧
        (failure_of ev = Some e ∨ key_error_cause ev e).
Proof.
  intros Hrun. apply mount_start_explained in Hrun as [_ Hex].
  by eapply explained_cause.
Qed.

Lemma mount_start_error_has_cause_witness :
  ∃ ev, last (new_events (module_init unreadable_env) after_unreadable_sync) = Some ev ∧
        (failure_of ev = Some (OSError "Permission denied") ∨
         key_error_cause ev (OSError "Permission denied")).
Proof.
  apply (mount_start_error_has_cause unreadable_env (client_of (server nothing_exists []))
           mount_py_in_workdir_into_root (module_init unreadable_env)
           (OSError "Permission denied") after_unreadable_sync eq_refl).
Defined.

(** X9.  A file that cannot be read ends [start].  The error of a hashing
    job surfaces when its future is awaited, the error of a read for an
    upload at the read; in both cases this is the last step of [start]
    (nothing is registered, read or uploaded after it and [MountDone] is
    not sent), [start] raises that error, and the Mount keeps its
    [mount_id] as it was: it is not marked synchronized.  What was
    registered and uploaded before stays so. *)
Theorem mount_start_aborts_on_read_error env client self w m r w' ev f e :
  mount_store w !! self = Some m → Mount.start env client self w = Some (r, w') →
  ev ∈ new_events w w' →
  ev = EvHashDone f (Raise e) ∨ ev = EvOpenRead f (Raise e) →
  r = Raise e ∧ last (new_events w w') = Some ev ∧
  ∃ m', mount_store w' !! self = Some m' ∧ mount_frame m m'.
Proof.
  intros Em Hrun Hin Hev.
  pose proof (mount_start_explained env client self w r w' Hrun) as [_ Hex].
  assert (failure_of ev = Some e) as Hfail by (by destruct Hev as [->| ->]).
  destruct (explained_elem r _ _ e Hex Hin Hfail) as [-> Hlast].
  split; [done|]. split; [done|].
  destruct (mount_start_cases env client self w m _ w' Em Hrun) as [Hnil|(m' & Hsync & Hst)].
  { rewrite Hnil in Hin. by apply elem_of_nil in Hin. }
  exists m'. split.
  - rewrite Hst. apply list_lookup_insert_eq. by eapply lookup_lt_Some.
  - by apply synchronize_spec in Hsync as (evs & _ & _ & Hframe).
Qed.

Lemma mount_start_aborts_on_read_error_witness :
  Mount.start unreadable_env (client_of (server nothing_exists []))
    mount_py_in_workdir_into_root (module_init unreadable_env) =
    Some (Raise (OSError "Permission denied"), after_unreadable_sync) ∧
  last (new_events (module_init unreadable_env) after_unreadable_sync) =
    Some (EvHashDone "./pkg/b.py" (Raise (OSError "Permission denied"))) ∧
  count_events (λ e, match e with EvUploadFile _ => true | _ => false end)
    (new_events (module_init unreadable_env) after_unreadable_sync) = 1.
Proof.
  destruct (mount_start_aborts_on_read_error unreadable_env
              (client_of (server nothing_exists [])) mount_py_in_workdir_into_root
              (module_init unreadable_env) _ (Raise (OSError "Permission denied"))
              after_unreadable_sync
              (EvHashDone "./pkg/b.py" (Raise (OSError "Permission denied")))
              "./pkg/b.py" (OSError "Permission denied")
              eq_refl eq_refl) as (_ & Hlast & _).
  - apply list_elem_of_lookup. exists 6. reflexivity.
  - by left.
  - split; [reflexivity|]. split; [exact Hlast|reflexivity].
Defined.

(** X10.  [Mount.start] is idempotent for a non-empty id: after a [start]
    that returned the id [id ≠ ''], any further [start] of that Mount, by
    any client, returns [id] and leaves the world, trace included, as it
    is. *)
Theorem mount_start_idempotent env client self w id w' :
  Mount.start env client self w = Some (Ok id, w') → id ≠ "" →
  ∀ client', Mount.start env client' self w' = Some (Ok id, w').
Proof.
  intros Hrun Hne client'.
  assert (∃ m', mount_store w' !! self = Some m' ∧ mount_id m' = Some id) as (m' & Em' & Hid).
  { unfold Mount.start in Hrun. destruct (mount_store w !! self) as [m|] eqn:Em; [|done].
    unfold Mount.start_obj in Hrun.
    assert (∀ m0 tr0, Mount.synchronize env client m (trace w) = (Ok id, m0, tr0) →
              mount_id m0 = Some id) as Hsync.
    { intros m0 tr0 E. by apply synchronize_spec in E as (evs & _ & _ & Hres). }
    destruct (mount_id m) as [id0|] eqn:Eid.
    - destruct (truthy (Some id0)).
      + injection Hrun as <- <-. exists m. simpl.
        split; [|done]. apply list_lookup_insert_eq. by eapply lookup_lt_Some.
      + destruct (Mount.synchronize env client m (trace w)) as [[r0 m0] tr0].
        injection Hrun as -> <-. exists m0. simpl.
        split; [apply list_lookup_insert_eq; by eapply lookup_lt_Some|by eapply Hsync].
    - destruct (Mount.synchronize env client m (trace w)) as [[r0 m0] tr0].
      injection Hrun as -> <-. exists m0. simpl.
      split; [apply list_lookup_insert_eq; by eapply lookup_lt_Some|by eapply Hsync]. }
  destruct (mount_start_memoized env client' self w' m' Em') as (id' & Hid' & Hrun').
  - rewrite Hid. simpl. by apply negb_true_iff, String.eqb_neq.
  - congruence.
Qed.

Lemma mount_start_idempotent_witness :
  Mount.start test_env (client_of blank_id_server) mount_py_in_workdir_into_root
    synced_world = Some (Ok "mo-0", synced_world).
Proof.
  apply (mount_start_idempotent test_env (client_of (server nothing_exists []))
           mount_py_in_workdir_into_root (module_init test_env) "mo-0" synced_world
           eq_refl).
  done.
Defined.

Section SuccessShape.

Context (env : Env).

Lemma register_next_transfer mid pending self tr o pending' self' tr' :
  Mount._register_file_requests_next env mid pending self tr = (Ok o, pending', self', tr') →
  ∃ evs, tr' = tr ++ evs ∧ Forall transfer_ok evs.
Proof.
  unfold Mount._register_file_requests_next, Mount.get_files_next.
  destruct pending as [|[f rel] rest].
  { intros [= <- <- <- <-]. exists []. by rewrite app_nil_r. }
  destruct (open_read env tr f) as [data|e]; [|done].
  intros [= <- <- <- <-]. eexists. rewrite <- app_assoc. split; [done|].
  by repeat constructor.
Qed.

Lemma upload_next_transfer mid reg :
  ∀ pending self tr o gen' self' tr',
    Mount._upload_file_requests_next env mid reg pending self tr = (Ok o, gen', self', tr') →
    ∃ evs, tr' = tr ++ evs ∧ Forall transfer_ok evs.
Proof.
  induction reg as [k IH|resp k IH| |e]; intros pending self tr o gen' self' tr'; simpl.
  - destruct (Mount._register_file_requests_next env mid pending self tr)
      as [[[r0 p0] s0] tr0] eqn:E.
    destruct r0 as [o0|e]; [|done].
    apply register_next_transfer in E as (evs & -> & Hevs).
    intros Hrec. apply IH in Hrec as (evs2 & -> & Hevs2).
    exists (evs ++ evs2). rewrite app_assoc. split; [done|]. by apply Forall_app.
  - destruct (rfr_exists resp).
    + intros Hrec. apply IH in Hrec as (evs2 & -> & Hevs2).
      exists ([EvRegisterResponse resp] ++ evs2). rewrite app_assoc. split; [done|].
      apply Forall_app. split; [by repeat constructor|done].
    + destruct (_remote_to_local_filename self !! rfr_filename resp) as [f|]; [|done].
      destruct (open_read env _ f) as [data|e]; [|done].
      destruct (_hashes self !! f) as [sha|]; [|done].
      intros [= <- <- <- <-]. eexists. rewrite <- !app_assoc. split; [done|].
      by repeat constructor.
  - intros [= <- <- <- <-]. exists []. by rewrite app_nil_r.
  - done.
Qed.

Lemma MountUploadFile_call_transfer mid up :
  ∀ gen self tr u self' tr',
    Mount.MountUploadFile_call env mid up gen self tr = (Ok u, self', tr') →
    ∃ evs, tr' = tr ++ evs ++ [EvUploadFinished (Ok ())] ∧ Forall transfer_ok evs.
Proof.
  induction up as [k IH| |e]; intros gen self tr u self' tr'; simpl.
  - destruct (Mount._upload_file_requests_next env mid gen.1 gen.2 self tr)
      as [[[r0 g0] s0] tr0] eqn:E.
    destruct r0 as [o|e]; [|done].
    apply upload_next_transfer in E as (evs & -> & Hevs).
    intros Hrec. apply IH in Hrec as (evs2 & -> & Hevs2).
    exists (evs ++ evs2). rewrite <- !app_assoc. split; [done|]. by apply Forall_app.
  - intros [= <- <- <-]. by exists [].
  - done.
Qed.

End SuccessShape.

(** X11.  A [start] that synchronizes and succeeds is bracketed: it begins
    with the one [MountCreate]; then come only hashing results, file reads,
    registrations, responses and uploads, none of which failed; then the
    upload call
    returns; and [MountDone] for the id that [MountCreate] returned comes
    last.  That id is returned and cached, and the Mount keeps its
    directories and its condition. *)
Theorem mount_start_success_shape env client self w m id w' :
  mount_store w !! self = Some m → truthy (mount_id m) = false →
  Mount.start env client self w = Some (Ok id, w') →
  ∃ resp evs m',
    new_events w w' =
      EvMountCreate {| mcq_client_id := client_id client |} (Ok resp) :: evs ++
      [EvUploadFinished (Ok ()); EvMountDone {| mdq_mount_id := id |} (Ok ())] ∧
    Forall transfer_ok evs ∧
    id = mcr_mount_id resp ∧
    mount_store w' !! self = Some m' ∧ mount_id m' = Some id ∧
    local_dir m' = local_dir m ∧ remote_dir m' = remote_dir m ∧ condition m' = condition m.
Proof.
  intros Em Hunset. unfold Mount.start. rewrite Em.
  rewrite (start_obj_unset env client m (trace w) Hunset).
  unfold Mount.synchronize. cbv zeta.
  set (req := {| mcq_client_id := client_id client |}).
  destruct (MountCreate (stub client) (trace w) req) as [resp|e]; [|done].
  destruct (Mount.MountUploadFile_call _ _ _ _ _ _) as [[r1 m1] tr1] eqn:Ecall.
  pose proof (MountUploadFile_call_frame _ _ _ _ _ _ _ _ _ Ecall) as (_ & Hl & Hr & Hc).
  destruct r1 as [[]|e]; [|done].
  apply MountUploadFile_call_transfer in Ecall as (evs & -> & Hevs).
  destruct (MountDone _ _ _) as [[]|e]; [|done].
  intros [= <- <-]. exists resp, evs, (with_mount_id (Some (mcr_mount_id resp)) m1).
  split.
  { apply new_events_app. simpl. by rewrite <- !app_assoc. }
  split; [done|]. split; [done|]. split.
  { simpl. apply list_lookup_insert_eq. by eapply lookup_lt_Some. }
  done.
Qed.

Lemma mount_start_success_shape_witness :
  ∃ resp evs,
    new_events (module_init test_env) partly_synced_world =
      EvMountCreate {| mcq_client_id := "cl-1" |} (Ok resp) :: evs ++
      [EvUploadFinished (Ok ()); EvMountDone {| mdq_mount_id := "mo-0" |} (Ok ())] ∧
    Forall transfer_ok evs.
Proof.
  destruct (mount_start_success_shape test_env (client_of (server has_a_py []))
              mount_py_in_workdir_into_root (module_init test_env) _ "mo-0"
              partly_synced_world eq_refl eq_refl eq_refl)
    as (resp & evs & m' & Hev & Hok & _).
  by exists resp, evs.
Defined.

Section NoFiles.

Context (env : Env).

Lemma upload_next_no_files mid reg :
  ∀ self tr r gen' self' tr',
    echoes [] reg →
    Mount._upload_file_requests_next env mid reg [] self tr = (r, gen', self', tr') →
    Forall (λ ev, ¬ transfer_event ev) (drop (length tr) tr') ∧
    (∃ evs, tr' = tr ++ evs) ∧ gen'.2 = [] ∧ echoes [] gen'.1.
Proof.
  induction reg as [k IH|resp k IH| |e]; intros self tr r gen' self' tr' Hech; simpl.
  - intros Hrec. by apply (IH None) in Hrec; [|apply (Hech None)].
  - simpl in Hech. destruct Hech as [Hin _]. by apply elem_of_nil in Hin.
  - intros [= <- <- <- <-]. rewrite drop_all. split; [constructor|].
    split; [exists []; by rewrite app_nil_r|done].
  - intros [= <- <- <- <-]. rewrite drop_app_length. split; [|split; [by eexists|done]].
    constructor; [|constructor]. by intros [].
Qed.

Lemma MountUploadFile_call_no_files mid up :
  ∀ gen self tr r self' tr',
    echoes [] gen.1 → gen.2 = [] →
    Mount.MountUploadFile_call env mid up gen self tr = (r, self', tr') →
    Forall (λ ev, ¬ transfer_event ev) (drop (length tr) tr') ∧ ∃ evs, tr' = tr ++ evs.
Proof.
  induction up as [k IH| |e]; intros gen self tr r self' tr' Hech Hnil; simpl.
  - rewrite Hnil.
    destruct (Mount._upload_file_requests_next env mid gen.1 [] self tr)
      as [[[r0 g0] s0] tr0] eqn:E.
    apply upload_next_no_files in E as (Hev & (evs & ->) & Hnil0 & Hech0); [|done].
    rewrite drop_app_length in Hev.
    destruct r0 as [o|e0].
    + intros Hrec. apply IH in Hrec as (Hev2 & evs2 & ->); [|done|done].
      rewrite drop_app_length in Hev2. rewrite <- app_assoc, drop_app_length.
      split; [by apply Forall_app|by eexists].
    + intros [= <- <- <-]. rewrite drop_app_length. split; [done|by eexists].
  - intros [= <- <- <-]. rewrite drop_app_length. split; [|by eexists].
    constructor; [|constructor]. by intros [].
  - intros [= <- <- <-]. rewrite drop_app_length. split; [|by eexists].
    constructor; [|constructor]. by intros [].
Qed.

End NoFiles.

(** X12.  A Mount whose directory has no file that satisfies the condition:
    against a server that reports on registered files only, [start],
    whatever its outcome, awaits no hashing job, reads no file, registers
    nothing and uploads nothing. *)
Theorem mount_start_without_files env client self w m r w' :
  mount_store w !! self = Some m →
  Mount.get_files env (local_dir m) (condition m) = [] →
  (∀ t, echoes [] (MountRegisterFile (stub client) t)) →
  Mount.start env client self w = Some (r, w') →
  Forall (λ ev, ¬ transfer_event ev) (new_events w w').
Proof.
  intros Em Hfiles Hech Hrun.
  destruct (mount_start_cases env client self w m r w' Em Hrun) as [->|(m' & Hsync & _)].
  { constructor. }
  unfold new_events. revert Hsync. generalize (trace w'). intros tr'.
  unfold Mount.synchronize. cbv zeta. rewrite Hfiles.
  set (req := {| mcq_client_id := client_id client |}).
  destruct (MountCreate (stub client) (trace w) req) as [resp|e].
  2: { intros [= <- <- <-]. rewrite drop_app_length. constructor; [|constructor]. by intros []. }
  destruct (Mount.MountUploadFile_call _ _ _ _ _ _) as [[r1 m1] tr1] eqn:Ecall.
  apply MountUploadFile_call_no_files in Ecall as (Hev & evs & ->); [|apply Hech|done].
  rewrite drop_app_length in Hev.
  assert (Forall (λ ev, ¬ transfer_event ev) (EvMountCreate req (Ok resp) :: evs)) as Hall.
  { constructor; [by intros []|done]. }
  destruct r1 as [[]|e].
  - destruct (MountDone _ _ _) as [[]|e]; intros [= <- <- <-];
      rewrite <- !app_assoc, drop_app_length; simpl; constructor; try (by intros []);
      apply Forall_app; split; try done; constructor; try constructor; by intros [].
  - intros [= <- <- <-]. by rewrite <- !app_assoc, drop_app_length.
Qed.

Lemma mount_start_without_files_witness :
  ∃ w', Mount.start no_py_env (client_of (server nothing_exists []))
          mount_py_in_workdir_into_root (module_init no_py_env) = Some (Ok "mo-0", w') ∧
        Forall (λ ev, ¬ transfer_event ev) (new_events (module_init no_py_env) w') ∧
        length (new_events (module_init no_py_env) w') = 3.
Proof.
  eexists. split; [reflexivity|]. split; [|reflexivity].
  apply (mount_start_without_files no_py_env (client_of (server nothing_exists []))
           mount_py_in_workdir_into_root (module_init no_py_env) _ (Ok "mo-0") _
           eq_refl eq_refl (λ t, echo_register_echoes nothing_exists 8 []) eq_refl).
Defined.

Section UnknownName.

Context (env : Env).
Variables (n0 : nat) (mid : string).

Lemma names_registered_app self tr evs :
  names_registered n0 self tr → names_registered n0 self (tr ++ evs).
Proof.
  intros H name f E. destruct (H name f E) as (j & q & Hj & Hq & Hn).
  exists j, q. split; [done|]. split; [by apply lookup_app_l_Some|done].
Qed.

Lemma register_next_no_response pending self tr r pending' self' tr' :
  Mount._register_file_requests_next env mid pending self tr = (r, pending', self', tr') →
  ∃ evs, tr' = tr ++ evs ∧
         Forall (λ ev, ∀ resp, ev = EvRegisterResponse resp → rfr_exists resp = true) evs.
Proof.
  unfold Mount._register_file_requests_next, Mount.get_files_next.
  destruct pending as [|[f rel] rest].
  { intros [= <- <- <- <-]. exists []. by rewrite app_nil_r. }
  destruct (open_read env tr f) as [data|e]; intros [= <- <- <- <-].
  - eexists. rewrite <- app_assoc. split; [done|]. by repeat constructor.
  - eexists. split; [done|]. by repeat constructor.
Qed.

Lemma register_next_names pending self tr o pending' self' tr' :
  Mount._register_file_requests_next env mid pending self tr = (Ok o, pending', self', tr') →
  n0 ≤ length tr → names_registered n0 self tr → names_registered n0 self' tr'.
Proof.
  unfold Mount._register_file_requests_next, Mount.get_files_next.
  destruct pending as [|[f rel] rest].
  { by intros [= <- <- <- <-] _ H. }
  destruct (open_read env tr f) as [data|e]; [|done].
  intros [= <- <- <- <-] Hn H name f0. simpl.
  destruct (decide (os_path_join (remote_dir self) rel = name)) as [<-|Hne].
  - intros _. eexists (length (tr ++ [EvHashDone f (Ok data)])), _.
    split; [rewrite length_app; lia|]. split; [apply lookup_snoc_new|done].
  - rewrite lookup_insert_ne by done. intros E.
    destruct (H name f0 E) as (j & q & Hj & Hq & Hnm). exists j, q.
    split; [done|]. split; [|done]. by apply lookup_app_l_Some, lookup_app_l_Some.
Qed.

(** Events that are no unanswerable response can be skipped. *)
Lemma unknown_name_skip {A} (r : Res A) tr evs evs' :
  Forall (λ ev, ∀ resp, ev = EvRegisterResponse resp → rfr_exists resp = true) evs →
  unknown_name_raises n0 (length (tr ++ evs)) r ((tr ++ evs) ++ evs') →
  unknown_name_raises n0 (length tr) r ((tr ++ evs) ++ evs').
Proof.
  intros Hevs H i resp Hi Hresp Hex Hno.
  destruct (decide (i < length (tr ++ evs))) as [Hlt|Hge]; [|apply H; [lia|done..]].
  exfalso. rewrite lookup_app_l in Hresp by done.
  rewrite lookup_app_r in Hresp by lia.
  rewrite Forall_forall in Hevs.
  pose proof (Hevs _ (list_elem_of_lookup_2 _ _ _ Hresp) resp eq_refl). congruence.
Qed.

Lemma unknown_name_none {A} (r : Res A) tr evs :
  Forall (λ ev, ∀ resp, ev = EvRegisterResponse resp → rfr_exists resp = true) evs →
  unknown_name_raises n0 (length tr) r (tr ++ evs).
Proof.
  intros Hevs. rewrite <- (app_nil_r (tr ++ evs)). apply unknown_name_skip; [done|].
  intros i resp Hi Hresp. apply lookup_lt_Some in Hresp. rewrite app_nil_r in Hresp. lia.
Qed.

Lemma upload_next_unknown reg :
  ∀ pending self tr r gen' self' tr',
    Mount._upload_file_requests_next env mid reg pending self tr = (r, gen', self', tr') →
    n0 ≤ length tr → names_registered n0 self tr →
    unknown_name_raises n0 (length tr) r tr' ∧
    (∃ evs, tr' = tr ++ evs) ∧
    (∀ o, r = Ok o → names_registered n0 self' tr').
Proof.
  induction reg as [k IH|resp k IH| |e]; intros pending self tr r gen' self' tr'; simpl.
  - destruct (Mount._register_file_requests_next env mid pending self tr)
      as [[[r0 p0] s0] tr0] eqn:E.
    destruct (register_next_no_response _ _ _ _ _ _ _ E) as (evs & -> & Hevs).
    destruct r0 as [o0|e].
    + intros Hrec Hn Hnames.
      pose proof (register_next_names _ _ _ _ _ _ _ E Hn Hnames) as Hnames0.
      apply IH in Hrec as (Hun & (evs2 & ->) & Hkeep); [|rewrite length_app; lia|done].
      split; [|split; [exists (evs ++ evs2); by rewrite app_assoc|done]].
      by apply unknown_name_skip.
    + intros [= <- <- <- <-] Hn Hnames.
      split; [by apply unknown_name_none|]. split; [by eexists|done].
  - intros Hrun Hn Hnames. destruct (rfr_exists resp) eqn:Eex.
    + apply IH in Hrun as (Hun & (evs2 & ->) & Hkeep);
        [|rewrite length_app; simpl; lia|by apply names_registered_app].
      split; [|split; [exists ([EvRegisterResponse resp] ++ evs2); by rewrite app_assoc|done]].
      apply unknown_name_skip; [|done]. constructor; [|constructor]. by intros ? [= <-].
    + destruct (_remote_to_local_filename self !! rfr_filename resp) as [f|] eqn:Er.
      2: { injection Hrun as <- <- <- <-. split; [|split; [by eexists|done]].
           intros i resp' Hi Hresp _ _. apply lookup_lt_Some in Hresp as Hlt.
           rewrite length_app in Hlt. simpl in Hlt. assert (i = length tr) as -> by lia.
           rewrite lookup_snoc_new in Hresp. injection Hresp as <-.
           split; [done|]. rewrite length_app. simpl. lia. }
      destruct (Hnames _ _ Er) as (j & q & Hj & Hq & Hnm).
      assert (∀ evs' (r' : Res (option MountUploadFileRequest)),
                Forall (λ ev, ∀ resp, ev = EvRegisterResponse resp → rfr_exists resp = true)
                  evs' →
                unknown_name_raises n0 (length tr) r'
                  ((tr ++ [EvRegisterResponse resp]) ++ evs')) as Hcase.
      { intros evs' r' Hevs' i resp' Hi Hresp Hex Hno.
        destruct (decide (i = length tr)) as [->|Hne].
        - rewrite lookup_app_l, lookup_snoc_new in Hresp by (rewrite length_app; simpl; lia).
          injection Hresp as <-. exfalso. apply (Hno j q Hj); [by eapply lookup_lt_Some| |done].
          by apply lookup_app_l_Some, lookup_app_l_Some.
        - exfalso. rewrite lookup_app_r in Hresp by (rewrite length_app; simpl; lia).
          rewrite Forall_forall in Hevs'.
          pose proof (Hevs' _ (list_elem_of_lookup_2 _ _ _ Hresp) resp' eq_refl).
          congruence. }
      destruct (open_read env _ f) as [data|e].
      2: { injection Hrun as <- <- <- <-. split; [|split; [|done]].
           - apply Hcase. by repeat constructor.
           - eexists. by rewrite <- app_assoc. }
      destruct (_hashes self !! f) as [sha|]; injection Hrun as <- <- <- <-.
      * split; [|split].
        -- rewrite <- (app_assoc _ [_] [_]). apply Hcase. by repeat constructor.
        -- eexists. by rewrite <- !app_assoc.
        -- intros _ _. by apply names_registered_app, names_registered_app,
             names_registered_app.
      * split; [|split; [|done]].
        -- apply Hcase. by repeat constructor.
        -- eexists. by rewrite <- app_assoc.
  - intros [= <- <- <- <-] Hn Hnames. split; [|split; [exists []; by rewrite app_nil_r|done]].
    intros i resp Hi Hresp. apply lookup_lt_Some in Hresp. lia.
  - intros [= <- <- <- <-] Hn Hnames. split; [|split; [by eexists|done]].
    apply unknown_name_none. by repeat constructor.
Qed.

Lemma unknown_name_seq {A B} (a : A) (r : Res B) tr evs evs' :
  unknown_name_raises n0 (length tr) (Ok a) (tr ++ evs) →
  unknown_name_raises n0 (length (tr ++ evs)) r ((tr ++ evs) ++ evs') →
  unknown_name_raises n0 (length tr) r ((tr ++ evs) ++ evs').
Proof.
  intros H1 H2 i resp Hi Hresp Hex Hno.
  destruct (decide (i < length (tr ++ evs))) as [Hlt|Hge]; [|apply H2; [lia|done..]].
  exfalso. rewrite lookup_app_l in Hresp by done.
  destruct (H1 i resp Hi Hresp Hex) as [? _]; [|done].
  intros j q Hj Hji Hq. apply (Hno j q Hj Hji). apply lookup_app_l_Some. exact Hq.
Qed.

Lemma unknown_name_cast {A B} e tr' from :
  unknown_name_raises n0 from (Raise e : Res A) tr' →
  unknown_name_raises n0 from (Raise e : Res B) tr'.
Proof.
  intros H i resp Hi Hresp Hex Hno. destruct (H i resp Hi Hresp Hex Hno) as [[= ->] Hl].
  by split.
Qed.

Lemma MountUploadFile_call_unknown up :
  ∀ gen self tr r self' tr',
    Mount.MountUploadFile_call env mid up gen self tr = (r, self', tr') →
    n0 ≤ length tr → names_registered n0 self tr →
    unknown_name_raises n0 (length tr) r tr' ∧ ∃ evs, tr' = tr ++ evs.
Proof.
  induction up as [k IH| |e]; intros gen self tr r self' tr'; simpl.
  - destruct (Mount._upload_file_requests_next env mid gen.1 gen.2 self tr)
      as [[[r0 g0] s0] tr0] eqn:E.
    intros Hrun Hn Hnames.
    destruct (upload_next_unknown _ _ _ _ _ _ _ _ E Hn Hnames) as (Hun & (evs & ->) & Hkeep).
    destruct r0 as [o|e0].
    + apply IH in Hrun as (Hun2 & evs2 & ->);
        [|rewrite length_app; lia|by eapply Hkeep].
      split; [by eapply unknown_name_seq|]. exists (evs ++ evs2). by rewrite app_assoc.
    + injection Hrun as <- <- <-. split; [by eapply unknown_name_cast|by eexists].
  - intros [= <- <- <-] _ _. split; [|by eexists].
    apply unknown_name_none. by repeat constructor.
  - intros [= <- <- <-] _ _. split; [|by eexists].
    apply unknown_name_none. by repeat constructor.
Qed.

End UnknownName.

(** X13.  On a Mount that has not registered anything yet
    ([_remote_to_local_filename] is empty): when the server sends a response
    "does not exist" for a name that was not registered before it, [start]
    raises [KeyError] for that name at once: the response is the last step
    that [start] takes, so no further hashing future is awaited, nothing is
    registered, read for an upload or uploaded after it, and [MountDone] is
    not sent.  (Hashing jobs that were submitted may still be running in
    their threads; they are not steps of [start].) *)
Theorem unknown_name_raises_key_error env client self w m r w' :
  mount_store w !! self = Some m → truthy (mount_id m) = false →
  _remote_to_local_filename m = ∅ →
  Mount.start env client self w = Some (r, w') →
  ∀ i resp,
    new_events w w' !! i = Some (EvRegisterResponse resp) → rfr_exists resp = false →
    (∀ j q, j < i → new_events w w' !! j = Some (EvRegisterFile q) →
            rfq_filename q ≠ rfr_filename resp) →
    r = Raise (KeyError (rfr_filename resp)) ∧ length (new_events w w') = S i.
Proof.
  intros Em Hunset Hempty. unfold Mount.start. rewrite Em.
  rewrite (start_obj_unset env client m (trace w) Hunset).
  destruct (Mount.synchronize env client m (trace w)) as [[r0 m0] tr0] eqn:Esync.
  intros [= <- <-] i resp. unfold new_events. simpl.
  revert Esync. unfold Mount.synchronize. cbv zeta.
  set (req := {| mcq_client_id := client_id client |}).
  destruct (MountCreate (stub client) (trace w) req) as [cr|e].
  2: { intros [= <- <- <-]. rewrite drop_app_length. destruct i as [|i]; [done|].
       by destruct i. }
  destruct (Mount.MountUploadFile_call _ _ _ _ _ _) as [[r1 m1] tr1] eqn:Ecall.
  apply (MountUploadFile_call_unknown env (length (trace w))) in Ecall
    as (Hun & evs & ->).
  2: { rewrite length_app. lia. }
  2: { intros name f. by rewrite Hempty, lookup_empty. }
  assert (∀ (r' : Res string) tr',
            (r' = (match r1 with Ok _ => r' | Raise e => Raise e end)) →
            (∃ ev, (∀ resp, ev ≠ EvRegisterResponse resp) ∧
                   (tr' = (trace w ++ [EvMountCreate req (Ok cr)]) ++ evs ∨
                    (is_Some (match r1 with Ok u => Some u | Raise _ => None end) ∧
                     tr' = ((trace w ++ [EvMountCreate req (Ok cr)]) ++ evs) ++ [ev]))) →
            drop (length (trace w)) tr' !! i = Some (EvRegisterResponse resp) →
            rfr_exists resp = false →
            (∀ j q, j < i → drop (length (trace w)) tr' !! j = Some (EvRegisterFile q) →
                    rfq_filename q ≠ rfr_filename resp) →
            r' = Raise (KeyError (rfr_filename resp)) ∧
            length (drop (length (trace w)) tr') = S i) as Hgen.
  { intros r' tr' Hr' (ev & Hev & Htr') Hresp Hex Hno.
    rewrite lookup_drop in Hresp.
    assert (∀ j q, length (trace w) ≤ j → j < length (trace w) + i →
              tr' !! j = Some (EvRegisterFile q) → rfq_filename q ≠ rfr_filename resp) as Hno'.
    { intros j q Hj Hji Hq. apply (Hno (j - length (trace w)) q); [lia|].
      rewrite lookup_drop. by replace (length (trace w) + (j - length (trace w))) with j by lia. }
    set (tr1 := (trace w ++ [EvMountCreate req (Ok cr)]) ++ evs) in *.
    assert (length (trace w ++ [EvMountCreate req (Ok cr)]) ≤ length (trace w) + i) as Hi1.
    { rewrite length_app. simpl. destruct i as [|i]; [|lia]. exfalso.
      rewrite Nat.add_0_r in Hresp.
      destruct Htr' as [->|[_ ->]]; unfold tr1 in Hresp;
        rewrite <- ?app_assoc, lookup_app_r in Hresp by lia;
        by rewrite Nat.sub_diag in Hresp. }
    destruct Htr' as [->|[[u Hu] ->]].
    - destruct (Hun (length (trace w) + i) resp Hi1 Hresp Hex) as [Hr1 Hlen].
      { intros j q Hj Hji Hq. by eapply Hno'. }
      rewrite Hr1 in Hr'. split; [done|]. rewrite length_drop. lia.
    - exfalso. destruct r1 as [u'|]; [|done].
      destruct (decide (length (trace w) + i < length tr1)) as [Hlt|Hge].
      + rewrite lookup_app_l in Hresp by done.
        destruct (Hun (length (trace w) + i) resp Hi1 Hresp Hex) as [? _]; [|done].
        intros j q Hj Hji Hq. apply (Hno' j q Hj Hji). by apply lookup_app_l_Some.
      + apply lookup_lt_Some in Hresp as Hlt. rewrite length_app in Hlt. simpl in Hlt.
        rewrite lookup_app_r in Hresp by lia.
        replace (length (trace w) + i - length tr1) with 0 in Hresp by lia.
        injection Hresp as ->. by destruct (Hev resp). }
  destruct r1 as [[]|e].
  - destruct (MountDone _ _ _) as [[]|e] eqn:Edone; intros [= <- <- <-].
    + apply Hgen; [done|]. eexists. split; [|right; split; [by eexists|done]]. done.
    + apply Hgen; [done|]. eexists. split; [|right; split; [by eexists|done]]. done.
  - intros [= <- <- <-]. apply Hgen; [done|].
    exists (EvUploadFinished (Ok ())). split; [done|by left].
Qed.

Lemma unknown_name_raises_key_error_witness :
  Mount.start test_env (client_of confused_server) mount_py_in_workdir_into_root
    (module_init test_env) = Some (Raise (KeyError "/root/ghost.py"), after_confused_sync) ∧
  length (new_events (module_init test_env) after_confused_sync) = 4.
Proof.
  split; [reflexivity|].
  apply (unknown_name_raises_key_error test_env (client_of confused_server)
           mount_py_in_workdir_into_root (module_init test_env) _
           (Raise (KeyError "/root/ghost.py")) after_confused_sync
           eq_refl eq_refl eq_refl eq_refl 3
           {| rfr_filename := "/root/ghost.py"; rfr_exists := false |} eq_refl eq_refl).
  intros j q Hj. destruct j as [|[|[|j]]]; [done|done| |lia].
  by intros [= <-].
Defined.

(** * [Image.start] *)

Section MountStartFacts.

Context (env : Env).

Lemma register_next_mount_events mid pending self tr r pending' self' tr' :
  Mount._register_file_requests_next env mid pending self tr = (r, pending', self', tr') →
  ∃ evs, tr' = tr ++ evs ∧ Forall mount_event evs.
Proof.
  unfold Mount._register_file_requests_next, Mount.get_files_next.
  destruct pending as [|[f rel] rest].
  { intros [= <- <- <- <-]. exists []. by rewrite app_nil_r. }
  destruct (open_read env tr f) as [data|e]; intros [= <- <- <- <-].
  - eexists. rewrite <- app_assoc. split; [done|]. by repeat constructor.
  - eexists. split; [done|]. by repeat constructor.
Qed.

Lemma MountUploadFile_call_mount_events mid up gen self tr r self' tr' :
  Mount.MountUploadFile_call env mid up gen self tr = (r, self', tr') →
  ∃ evs, tr' = tr ++ evs ∧ Forall mount_event evs.
Proof.
  intros Hrun.
  destruct (MountUploadFile_call_invariant env mid
              (λ _ _ t, ∃ evs, t = tr ++ evs ∧ Forall mount_event evs)) with
    (up := up) (gen := gen) (self := self) (tr := tr) (r := r) (self' := self') (tr' := tr')
    as (_ & Hres); try done.
  - intros pending s t r0 pending' s' t' E (evs & -> & Hevs).
    apply register_next_mount_events in E as (evs2 & -> & Hevs2).
    exists (evs ++ evs2). rewrite app_assoc. split; [done|]. by apply Forall_app.
  - intros pending s t ev Hev (evs & -> & Hevs). exists (evs ++ [ev]).
    rewrite app_assoc. split; [done|]. apply Forall_app. split; [done|].
    constructor; [|constructor]. by destruct ev.
  - exists []. by rewrite app_nil_r.
Qed.

(** [Mount.start] touches its own Mount and the trace, nothing else; it
    never makes a Mount lose its id; it appends mount events only. *)
Lemma mount_start_spec client self w r w' :
  Mount.start env client self w = Some (r, w') →
  layer_store w' = layer_store w ∧ image_store w' = image_store w ∧
  (∀ b, b ≠ self → mount_store w' !! b = mount_store w !! b) ∧
  (∀ b, mount_has_id w b → mount_has_id w' b) ∧
  (∀ id, r = Ok id → mount_has_id w' self) ∧
  trace w' = trace w ++ new_events w w' ∧
  Forall mount_event (new_events w w').
Proof.
  intros Hrun.
  pose proof (mount_start_stores env client self w r w' Hrun) as [Hl Hi].
  pose proof (mount_start_explained env client self w r w' Hrun) as [Ht _].
  split; [done|]. split; [done|].
  unfold Mount.start in Hrun. destruct (mount_store w !! self) as [m|] eqn:Em; [|done].
  assert (self < length (mount_store w)) as Hlt by (by eapply lookup_lt_Some).
  destruct (Mount.start_obj env client m (trace w)) as [[r0 m0] tr0] eqn:Eobj.
  injection Hrun as <- <-. simpl.
  assert ((is_Some (mount_id m) → is_Some (mount_id m0)) ∧
          (∀ id, r0 = Ok id → is_Some (mount_id m0)) ∧
          ∃ evs, tr0 = trace w ++ evs ∧ Forall mount_event evs) as (Hkeep & Hok & Hevs).
  { unfold Mount.start_obj in Eobj.
    assert (∀ r1 m1 tr1, Mount.synchronize env client m (trace w) = (r1, m1, tr1) →
              (is_Some (mount_id m) → is_Some (mount_id m1)) ∧
              (∀ id, r1 = Ok id → is_Some (mount_id m1)) ∧
              ∃ evs, tr1 = trace w ++ evs ∧ Forall mount_event evs) as Hsync.
    { intros r1 m1 tr1 E. pose proof E as E'.
      apply synchronize_spec in E' as (evs0 & _ & _ & Hres).
      split; [|split].
      - destruct r1 as [id|e]; [by rewrite Hres|]. destruct Hres as [-> _]. done.
      - intros id ->. by rewrite Hres.
      - revert E. unfold Mount.synchronize. cbv zeta.
        destruct (MountCreate _ _ _) as [resp|e].
        2: { intros [= <- <- <-]. eexists. split; [done|]. by repeat constructor. }
        destruct (Mount.MountUploadFile_call _ _ _ _ _ _) as [[r2 m2] tr2] eqn:Ecall.
        apply MountUploadFile_call_mount_events in Ecall as (evs & -> & Hevs).
        destruct r2 as [[]|e].
        + destruct (MountDone _ _ _) as [[]|e]; intros [= <- <- <-];
            eexists; rewrite <- !app_assoc; (split; [done|]);
            (constructor; [done|]); apply Forall_app; split; try done; by repeat constructor.
        + intros [= <- <- <-]. eexists. rewrite <- !app_assoc. split; [done|].
          by constructor. }
    destruct (mount_id m) as [id|] eqn:Eid.
    - destruct (truthy (Some id)).
      + injection Eobj as <- <- <-. rewrite Eid. split; [done|]. split; [by eexists|].
        exists []. by rewrite app_nil_r.
      + by apply Hsync.
    - by apply Hsync. }
  split. { intros b Hb. by rewrite list_lookup_insert_ne. }
  split.
  { intros b (mb & Eb & Hs). destruct (decide (b = self)) as [->|Hne].
    - exists m0. simpl. rewrite list_lookup_insert_eq by done. split; [done|].
      apply Hkeep. congruence.
    - exists mb. simpl. by rewrite list_lookup_insert_ne. }
  split.
  { intros id Hid. exists m0. simpl. rewrite list_lookup_insert_eq by done. split; [done|].
    by eapply Hok. }
  destruct Hevs as (evs & -> & Hevs). unfold new_events. simpl. by rewrite drop_app_length.
Qed.

Lemma start_mounts_spec client mounts :
  ∀ acc w r w',
    Image.start_mounts env client mounts acc w = Some (r, w') →
    layer_store w' = layer_store w ∧ image_store w' = image_store w ∧
    (∀ b, mount_has_id w b → mount_has_id w' b) ∧
    trace w' = trace w ++ new_events w w' ∧
    Forall mount_event (new_events w w') ∧
    explained r (new_events w w') ∧
    ∀ ids, r = Ok ids →
      ∃ ids', ids = acc ++ ids' ∧ length ids' = length mounts ∧
              Forall (mount_has_id w') mounts.
Proof.
  induction mounts as [|m mounts IH]; intros acc w r w'; simpl.
  - intros [= <- <-]. rewrite new_events_refl, app_nil_r.
    split; [done|]. split; [done|]. split; [done|]. split; [done|].
    split; [constructor|]. split; [left; split; [constructor|done]|].
    intros ids [= <-]. exists []. rewrite app_nil_r. split; [done|]. split; [done|constructor].
  - destruct (Mount.start env client m w) as [[[id|e] w1]|] eqn:E; [| |done].
    + intros Hrec.
      pose proof (mount_start_explained env client m w _ w1 E) as [_ Hex1].
      apply mount_start_spec in E as (Hl1 & Hi1 & _ & Hkeep1 & Hok1 & Ht1 & Hev1).
      apply IH in Hrec as (Hl2 & Hi2 & Hkeep2 & Ht2 & Hev2 & Hex2 & Hids).
      rewrite (new_events_trans w w1 w') by done.
      split; [congruence|]. split; [congruence|]. split; [auto|].
      split; [rewrite Ht2 at 1; rewrite Ht1 at 1; by rewrite <- app_assoc|].
      split; [by apply Forall_app|].
      split; [apply explained_prepend; [by eapply explained_ok_calm|done]|].
      intros ids Hr. destruct (Hids ids Hr) as (ids' & -> & Hlen & Hall).
      exists (id :: ids'). rewrite <- app_assoc. split; [done|]. simpl.
      split; [by rewrite Hlen|]. constructor; [|done]. apply Hkeep2. by eapply Hok1.
    + intros [= <- <-].
      pose proof (mount_start_explained env client m w _ w1 E) as [_ Hex1].
      apply mount_start_spec in E as (Hl1 & Hi1 & _ & Hkeep1 & _ & Ht1 & Hev1).
      repeat split; try done. by eapply explained_raise.
Qed.

(** Mounts whose ids are cached are not synchronized again. *)
Lemma start_mounts_cached client mounts :
  ∀ acc w ids,
    Forall2 (mount_cached w) mounts ids →
    Image.start_mounts env client mounts acc w = Some (Ok (acc ++ ids), w).
Proof.
  induction mounts as [|m mounts IH]; intros acc w ids Hall.
  - apply Forall2_nil_inv_l in Hall as ->. simpl. by rewrite app_nil_r.
  - apply Forall2_cons_inv_l in Hall as (id & ids' & (obj & Eo & Hid & Hne) & Hall & ->).
    simpl.
    destruct (mount_start_memoized env client m w obj Eo) as (id' & Hid' & ->).
    { rewrite Hid. simpl. by apply negb_true_iff, String.eqb_neq. }
    assert (id' = id) as -> by congruence.
    rewrite (IH _ _ ids' Hall). by rewrite <- app_assoc.
Qed.

End MountStartFacts.

(** X14.  [Image.start] is idempotent: after a [start] that returned an id,
    any further [start] of that image, by any client, returns the same id
    and leaves the world, trace included, as it is.  The test is
    [is not None], so this holds for the empty id too. *)
Theorem image_start_idempotent env fuel client self w id w' :
  Image.start env fuel client self w = Some (Ok id, w') →
  ∀ fuel' client', Image.start env fuel' client' self w' = Some (Ok id, w').
Proof.
  intros Hrun fuel' client'.
  assert (∃ img', image_store w' !! self = Some img' ∧ image_id img' = Some id)
    as (img' & E' & Hid').
  { unfold Image.start in Hrun.
    destruct (image_store w !! self) as [img|] eqn:Ei; [|done].
    destruct (image_id img) as [id0|] eqn:Hid.
    { injection Hrun as <- <-. by exists img. }
    destruct (Layer.start fuel client (layer img) w) as [[[lid|e] w1]|]; [|done|done].
    destruct (Image.start_mounts env client (mounts img) [] w1) as [[[mids|e] w2]|];
      [|done|done].
    destruct (image_store w2 !! self) as [img2|] eqn:Ei2; [|done].
    destruct (ImageCreate _ _ _) as [resp|e]; [|done].
    injection Hrun as <- <-. eexists. simpl.
    split; [apply list_lookup_insert_eq; by eapply lookup_lt_Some|done]. }
  unfold Image.start. by rewrite E', Hid'.
Qed.

Lemma image_start_idempotent_witness :
  Image.start test_env 0 (client_of flaky_server) 0 first_image_started =
    Some (Ok "im-0", first_image_started).
Proof.
  apply (image_start_idempotent test_env 3 (client_of (server nothing_exists [])) 0
           two_images_world "im-0" first_image_started eq_refl).
Defined.

Section ImageStartShape.

Context (env : Env).

(** The three stages of a [start] of an image that is not realized. *)
Lemma image_start_stages fuel client self w img r w' :
  dag w → image_store w !! self = Some img → image_id img = None →
  Image.start env fuel client self w = Some (r, w') →
  ∃ rl w1,
    Layer.start fuel client (layer img) w = Some (rl, w1) ∧
    match rl with
    | Raise e => r = Raise e ∧ w' = w1
    | Ok lid =>
        ∃ rm w2,
          Image.start_mounts env client (mounts img) [] w1 = Some (rm, w2) ∧
          image_store w2 = image_store w ∧ cached w2 (layer img) = Some lid ∧
          match rm with
          | Raise e => r = Raise e ∧ w' = w2
          | Ok mids =>
              let request :=
                {| icq_client_id := client_id client;
                   icq_image := {| id_layer_id := Some lid; id_mount_ids := mids |} |} in
              let out := ImageCreate (stub client) (trace w2) request in
              match out with
              | Raise e => r = Raise e ∧ w' = log (EvImageCreate self request out) w2
              | Ok resp =>
                  r = Ok (icr_image_id resp) ∧
                  w' = set_image self (with_image_id (Some (icr_image_id resp)) img)
                         (log (EvImageCreate self request out) w2)
              end
          end
    end.
Proof.
  intros Hd Ei Hid. unfold Image.start. rewrite Ei, Hid.
  destruct (Layer.start fuel client (layer img) w) as [[[lid|e] w1]|] eqn:El; [| |done].
  2: { intros [= <- <-]. by eexists _, _. }
  intros Hrun. eexists (Ok lid), w1. split; [done|].
  destruct (start_counts client _ _ _ _ _ Hd El) as [_ Hc1].
  pose proof (start_world_le client _ _ _ _ _ Hd El) as (_ & Hi1 & _ & _).
  destruct (Image.start_mounts env client (mounts img) [] w1) as [[rm w2]|] eqn:Em; [|done].
  pose proof (start_mounts_spec env client _ _ _ _ _ Em) as (Hl2 & Hi2 & _).
  assert (cached w2 (layer img) = Some lid) as Hc2 by (unfold cached in *; by rewrite Hl2).
  exists rm, w2. split; [done|]. split; [congruence|]. split; [done|].
  destruct rm as [mids|e]; [|by injection Hrun as <- <-].
  rewrite Hi2, Hi1, Ei, Hc2 in Hrun. cbv zeta.
  destruct (ImageCreate _ _ _) as [resp|e]; by injection Hrun as <- <-.
Qed.

End ImageStartShape.



(** X16.  When [Image.start] raises on a DAG store, the image is left
    unrealized (no image object changes), and the last thing that happened
    explains the error: a remote call that failed, a hashing future that
    raised when it was awaited, or a read for an upload that failed, with
    that very error, or the cause of a [KeyError] of the upload generator.
    Nothing is caught on the way. *)
Theorem image_start_error_has_cause env fuel client self w e w' :
  dag w → Image.start env fuel client self w = Some (Raise e, w') →
  image_store w' = image_store w ∧
  ∃ ev, last (new_events w w') = Some ev ∧
        (failure_of ev = Some e ∨ key_error_cause ev e).
Proof.
  intros Hd Hrun.
  destruct (image_store w !! self) as [img|] eqn:Ei;
    [|by unfold Image.start in Hrun; rewrite Ei in Hrun].
  destruct (image_id img) as [id0|] eqn:Hid.
  { unfold Image.start in Hrun. by rewrite Ei, Hid in Hrun. }
  destruct (image_start_stages env fuel client self w img _ w' Hd Ei Hid Hrun)
    as (rl & w1 & El & Hrest).
  pose proof (start_world_le client _ _ _ _ _ Hd El) as Hle1.
  pose proof Hle1 as (_ & Hi1 & _ & Ht1).
  destruct rl as [lid|e1].
  2: { destruct Hrest as [[= <-] ->]. split; [done|].
       destruct (start_raise client fuel _ w e w1 Hd El) as (s & q & Hlast).
       eexists. split; [exact Hlast|]. by left. }
  destruct Hrest as (rm & w2 & Em & Hi2 & _ & Hrest).
  destruct (start_mounts_spec env client _ _ _ _ _ Em) as (_ & _ & _ & Ht2 & _ & Hex2 & _).
  destruct rm as [mids|e2].
  2: { destruct Hrest as [[= <-] ->]. split; [done|].
       destruct (explained_cause _ _ e Hex2 eq_refl) as (ev & Hlast & Hcause).
       exists ev. split; [|done].
       rewrite (new_events_trans w w1 w2) by done. by apply last_app_nonempty. }
  cbv zeta in Hrest. destruct (ImageCreate _ _ _) as [resp|e3] eqn:Eic; [by destruct Hrest|].
  destruct Hrest as [[= <-] ->]. split; [done|].
  exists (EvImageCreate self
            {| icq_client_id := client_id client;
               icq_image := {| id_layer_id := Some lid; id_mount_ids := mids |} |}
            (Raise e)).
  split; [|by left].
  rewrite (new_events_trans w w2 (log _ w2)).
  - rewrite new_events_log. apply last_snoc.
  - rewrite (new_events_trans w w1 w2) by done.
    rewrite Ht2 at 1. rewrite Ht1 at 1. by rewrite <- app_assoc.
  - by rewrite new_events_log.
Qed.

Lemma image_start_error_has_cause_witness :
  ∃ w' ev,
    Image.start test_env 3 (client_of broken_upload_server) 0 two_images_world =
      Some (Raise (RpcError "unavailable"), w') ∧
    image_store w' = image_store two_images_world ∧
    last (new_events two_images_world w') = Some ev ∧
    (failure_of ev = Some (RpcError "unavailable") ∨
     key_error_cause ev (RpcError "unavailable")).
Proof.
  eexists.
  destruct (image_start_error_has_cause test_env 3 (client_of broken_upload_server) 0
              two_images_world (RpcError "unavailable") _
              (dag_check_sound two_images_world eq_refl) eq_refl)
    as (Hi & ev & Hlast & Hcause).
  exists ev. split; [reflexivity|]. split; [exact Hi|]. split; [exact Hlast|exact Hcause].
Defined.

(** X17.  Mounts are shared, not synchronized again: when every mount of an
    unrealized image already has a non-empty cached id, [Image.start] makes
    no mount RPC, awaits no hashing job and reads no file.  Its events are
    [LayerCreate] calls
    followed by the [ImageCreate] call, the mount store is untouched, and
    the request lists exactly the cached mount ids, in the order of
    [self.mounts]. *)
Theorem image_start_reuses_cached_mounts env fuel client self w img ids r w' :
  dag w → image_store w !! self = Some img → image_id img = None →
  Forall2 (mount_cached w) (mounts img) ids →
  Image.start env fuel client self w = Some (r, w') →
  mount_store w' = mount_store w ∧
  Forall (λ ev, is_LayerCreate ev = true ∨ is_ImageCreate ev = true) (new_events w w') ∧
  ∀ ev, ev ∈ new_events w w' → is_ImageCreate ev = true →
    ∃ lid out,
      ev = EvImageCreate self
             {| icq_client_id := client_id client;
                icq_image := {| id_layer_id := Some lid; id_mount_ids := ids |} |} out ∧
      last (new_events w w') = Some ev.
Proof.
  intros Hd Ei Hid Hall Hrun.
  destruct (image_start_stages env fuel client self w img _ w' Hd Ei Hid Hrun)
    as (rl & w1 & El & Hrest).
  destruct (start_sound client fuel _ w _ w1 Hd El) as [Hle1 [_ Hev1]].
  pose proof Hle1 as (Hm1 & _ & _ & Ht1).
  assert (Forall (λ ev, is_LayerCreate ev = true ∧ is_ImageCreate ev = false)
            (new_events w w1)) as HevL.
  { eapply Forall_impl; [exact Hev1|]. by intros ev (s & q & o & -> & _). }
  assert (∀ ev, ev ∈ new_events w w1 → is_ImageCreate ev = true → False) as HnoL.
  { intros ev Hin Hic. rewrite Forall_forall in HevL. destruct (HevL ev Hin). congruence. }
  destruct rl as [lid|e1].
  { destruct Hrest as (rm & w2 & Em & _ & _ & Hrest).
    assert (Forall2 (mount_cached w1) (mounts img) ids) as Hall1.
    { eapply Forall2_impl; [exact Hall|]. intros a id (m & Em0 & ?). exists m.
      by rewrite Hm1. }
    rewrite (start_mounts_cached env client _ [] w1 ids Hall1) in Em.
    injection Em as <- <-. simpl in Hrest. cbv zeta in Hrest.
    destruct (ImageCreate _ _ _) as [resp|e3] eqn:Eic; destruct Hrest as [-> ->].
    - simpl. split; [done|].
      assert (new_events w (set_image self (with_image_id (Some (icr_image_id resp)) img)
                (log (EvImageCreate self _ (Ok resp)) w1)) =
              new_events w w1 ++ [EvImageCreate self
                {| icq_client_id := client_id client;
                   icq_image := {| id_layer_id := Some lid; id_mount_ids := ids |} |}
                (Ok resp)]) as ->.
      { apply new_events_app. simpl. rewrite Ht1 at 1. by rewrite <- app_assoc. }
      split.
      + apply Forall_app. split.
        * eapply Forall_impl; [exact HevL|]. intros ev [? _]. by left.
        * constructor; [by right|constructor].
      + intros ev Hin Hic. apply elem_of_app in Hin as [Hin|Hin]; [by destruct (HnoL ev)|].
        apply list_elem_of_singleton in Hin as ->. eexists _, _. split; [done|].
        apply last_snoc.
    - simpl. split; [done|].
      assert (new_events w (log (EvImageCreate self
                {| icq_client_id := client_id client;
                   icq_image := {| id_layer_id := Some lid; id_mount_ids := ids |} |}
                (Raise e3)) w1) =
              new_events w w1 ++ [EvImageCreate self
                {| icq_client_id := client_id client;
                   icq_image := {| id_layer_id := Some lid; id_mount_ids := ids |} |}
                (Raise e3)]) as ->.
      { apply new_events_app. simpl. rewrite Ht1 at 1. by rewrite <- app_assoc. }
      split.
      + apply Forall_app. split.
        * eapply Forall_impl; [exact HevL|]. intros ev [? _]. by left.
        * constructor; [by right|constructor].
      + intros ev Hin Hic. apply elem_of_app in Hin as [Hin|Hin]; [by destruct (HnoL ev)|].
        apply list_elem_of_singleton in Hin as ->. eexists _, _. split; [done|].
        apply last_snoc. }
  destruct Hrest as [-> ->]. split; [done|]. split.
  - eapply Forall_impl; [exact HevL|]. intros ev [? _]. by left.
  - intros ev Hin Hic. by destruct (HnoL ev).
Qed.

Lemma image_start_reuses_cached_mounts_witness :
  Image.start test_env 3 (client_of (server nothing_exists [])) 1 first_image_started =
    Some (Ok "im-0", both_images_started) ∧
  mount_store both_images_started = mount_store first_image_started ∧
  count_events is_MountCreate (new_events first_image_started both_images_started) = 0 ∧
  length (new_events first_image_started both_images_started) = 2.
Proof.
  destruct (image_start_reuses_cached_mounts test_env 3 (client_of (server nothing_exists []))
              1 first_image_started _ ["mo-0"] (Ok "im-0") both_images_started
              (dag_check_sound first_image_started eq_refl) eq_refl eq_refl)
    as (Hm & _ & _).
  - constructor; [|constructor]. eexists. split; [reflexivity|]. split; [reflexivity|done].
  - reflexivity.
  - split; [reflexivity|]. split; [exact Hm|]. split; reflexivity.
Defined.

(** * More about [Image.join] *)

Section JoinMore.

Variables (SUCCESS FAILURE TIMEOUT : Z).
Variables (client : Client) (self : addr).

Lemma extend_log ev evs w : extend evs (log ev w) = extend (ev :: evs) w.
Proof. unfold extend, log. simpl. by rewrite <- app_assoc. Qed.

Lemma extend_one ev w : log ev w = extend [ev] w.
Proof. done. Qed.

(** What a join that returned has done. *)
Lemma join_returned fuel :
  ∀ w img r w',
    image_store w !! self = Some img →
    Image.join SUCCESS FAILURE TIMEOUT fuel client self w = Some (r, w') →
    let request := {| ijq_image_id := image_id img; ijq_timeout := TIMEOUT |} in
    ∃ ps out,
      w' = extend (join_events request ps ++ [EvImageJoin request out]) w ∧
      Forall (λ p, gr_status (ijr_result p) = 0%Z) ps ∧
      join_answers client (trace w) request ps ∧
      ImageJoin (stub client) (trace w ++ join_events request ps) request = out ∧
      length ps < fuel ∧
      match out with
      | Raise e => r = Raise e
      | Ok resp =>
          gr_status (ijr_result resp) ≠ 0%Z ∧ r = join_outcome SUCCESS FAILURE resp
      end.
Proof.
  induction fuel as [|fuel IH]; intros w img r w' E Hrun request; [done|].
  rewrite (join_step SUCCESS FAILURE TIMEOUT client self fuel w img E) in Hrun.
  cbv zeta in Hrun. fold request in Hrun.
  destruct (ImageJoin (stub client) (trace w) request) as [resp|e] eqn:Eout.
  2: { injection Hrun as <- <-. exists [], (Raise e). simpl. rewrite app_nil_r.
       repeat split; try done. lia. }
  destruct (Z.eqb_spec (gr_status (ijr_result resp)) 0) as [Hz|Hnz].
  - destruct (IH (log (EvImageJoin request (Ok resp)) w) img r w' E Hrun)
      as (ps & out & -> & Hps & Hans & Hout & Hlen & Hres).
    fold request in Hans, Hout, Hres |- *.
    exists (resp :: ps), out. split; [by rewrite extend_log|].
    split; [by constructor|]. split; [done|]. split.
    { simpl in Hout |- *. by rewrite <- app_assoc in Hout. }
    split; [simpl; lia|done].
  - exists [], (Ok resp). simpl. rewrite app_nil_r.
    assert (r = join_outcome SUCCESS FAILURE resp ∧
            w' = log (EvImageJoin request (Ok resp)) w) as [-> ->].
    { unfold join_outcome. cbv zeta.
      destruct (gr_status (ijr_result resp) =? FAILURE)%Z,
               (gr_status (ijr_result resp) =? SUCCESS)%Z;
        by injection Hrun as <- <-. }
    repeat split; try done. lia.
Qed.

(** While the server reports no status, the join polls. *)
Lemma join_still_polling fuel :
  never_reports client →
  ∀ w img, image_store w !! self = Some img →
    Image.join SUCCESS FAILURE TIMEOUT fuel client self w = None.
Proof.
  intros Hnever. induction fuel as [|fuel IH]; intros w img E; [done|].
  rewrite (join_step SUCCESS FAILURE TIMEOUT client self fuel w img E). cbv zeta.
  destruct (Hnever (trace w) {| ijq_image_id := image_id img; ijq_timeout := TIMEOUT |})
    as (p & -> & ->).
  simpl. by apply (IH _ img).
Qed.

(** Status-less responses followed by a failed call. *)
Lemma join_run_error ps e :
  ∀ w img fuel,
    image_store w !! self = Some img →
    let request := {| ijq_image_id := image_id img; ijq_timeout := TIMEOUT |} in
    Forall (λ p, gr_status (ijr_result p) = 0%Z) ps →
    join_answers client (trace w) request ps →
    ImageJoin (stub client) (trace w ++ join_events request ps) request = Raise e →
    length ps < fuel →
    Image.join SUCCESS FAILURE TIMEOUT fuel client self w =
      Some (Raise e, extend (join_events request ps ++ [EvImageJoin request (Raise e)]) w).
Proof.
  induction ps as [|p ps IH]; intros w img fuel E request Hps Hans Herr Hfuel.
  - destruct fuel as [|fuel]; [simpl in Hfuel; lia|].
    rewrite (join_step SUCCESS FAILURE TIMEOUT client self fuel w img E). cbv zeta.
    fold request. simpl in Herr. rewrite app_nil_r in Herr. by rewrite Herr.
  - destruct fuel as [|fuel]; [simpl in Hfuel; lia|].
    apply Forall_cons in Hps as [Hp Hps]. destruct Hans as [Hans1 Hans].
    rewrite (join_pending SUCCESS FAILURE TIMEOUT client self fuel w img p E Hans1 Hp).
    fold request.
    rewrite (IH (log (EvImageJoin request (Ok p)) w) img fuel E Hps Hans).
    + fold request. by rewrite extend_log.
    + simpl. simpl in Herr. by rewrite <- app_assoc.
    + simpl in Hfuel. lia.
Qed.

End JoinMore.

(** X18.  What a [join] that ended has done, whatever the status codes are.
    It changed no object (it never starts the image, and sends whatever
    [image_id] the image has, [None] included); every round trip carried the
    same request; every response but the last had no status; and the last
    round trip decides the outcome: an RPC error is raised as it is, a
    response is returned only if its status is non-zero, is [SUCCESS] and is
    not [FAILURE]. *)
Theorem join_returns_on_last_response SUCCESS FAILURE TIMEOUT fuel client self w r w' :
  Image.join SUCCESS FAILURE TIMEOUT fuel client self w = Some (r, w') →
  ∃ img ps out,
    image_store w !! self = Some img ∧
    let request := {| ijq_image_id := image_id img; ijq_timeout := TIMEOUT |} in
    mount_store w' = mount_store w ∧ layer_store w' = layer_store w ∧
    image_store w' = image_store w ∧
    trace w' = trace w ++ join_events request ps ++ [EvImageJoin request out] ∧
    Forall (λ p, gr_status (ijr_result p) = 0%Z) ps ∧
    length ps < fuel ∧
    (∀ e, out = Raise e → r = Raise e) ∧
    (∀ resp, out = Ok resp →
       gr_status (ijr_result resp) ≠ 0%Z ∧ r = join_outcome SUCCESS FAILURE resp) ∧
    (∀ resp, r = Ok resp →
       out = Ok resp ∧ gr_status (ijr_result resp) = SUCCESS ∧
       SUCCESS ≠ 0%Z ∧ SUCCESS ≠ FAILURE).
Proof.
  intros Hrun.
  destruct (image_store w !! self) as [img|] eqn:E.
  2: { destruct fuel; simpl in Hrun; [done|]. by rewrite E in Hrun. }
  destruct (join_returned SUCCESS FAILURE TIMEOUT client self fuel w img r w' E Hrun)
    as (ps & out & -> & Hps & _ & _ & Hlen & Hres).
  exists img, ps, out. split; [done|]. cbv zeta.
  split; [done|]. split; [done|]. split; [done|]. split; [done|].
  split; [done|]. split; [done|].
  split; [by intros e ->|]. split; [by intros resp ->|].
  intros resp ->. destruct out as [resp'|e]; [|done].
  destruct Hres as [Hnz Hout]. unfold join_outcome in Hout. cbv zeta in Hout.
  destruct (Z.eqb_spec (gr_status (ijr_result resp')) FAILURE) as [|Hnf]; [done|].
  destruct (Z.eqb_spec (gr_status (ijr_result resp')) SUCCESS) as [Hs|]; [|done].
  injection Hout as ->. split; [done|]. split; [done|]. split; congruence.
Qed.

Lemma join_returns_on_last_response_witness :
  ∃ w' img ps out,
    Image.join 1 2 60 5 (client_of (server nothing_exists [pending; result 1 "" 42]))
      0 realized_image_world = Some (Ok (result 1 "" 42), w') ∧
    image_store realized_image_world !! 0 = Some img ∧
    trace w' = trace realized_image_world ++
      join_events {| ijq_image_id := image_id img; ijq_timeout := 60 |} ps ++
      [EvImageJoin {| ijq_image_id := image_id img; ijq_timeout := 60 |} out] ∧
    out = Ok (result 1 "" 42).
Proof.
  eexists.
  destruct (join_returns_on_last_response 1 2 60 5
              (client_of (server nothing_exists [pending; result 1 "" 42]))
              0 realized_image_world (Ok (result 1 "" 42)) _ eq_refl)
    as (img & ps & out & E & _ & _ & _ & Ht & _ & _ & _ & _ & Hok).
  exists img, ps, out. split; [reflexivity|]. split; [exact E|]. split; [exact Ht|].
  exact (proj1 (Hok _ eq_refl)).
Defined.

(** X19.  [join] has no bound of its own: while the server answers every
    [ImageJoin] without a status, the loop does not end, however many polls
    it is given. *)
Theorem join_polls_while_pending SUCCESS FAILURE TIMEOUT client self w img :
  never_reports client → image_store w !! self = Some img →
  ∀ fuel, Image.join SUCCESS FAILURE TIMEOUT fuel client self w = None.
Proof. intros Hnever E fuel. by eapply join_still_polling. Qed.

Lemma join_polls_while_pending_witness :
  Image.join 1 2 60 1000 (client_of patient_server) 0 realized_image_world = None.
Proof.
  apply (join_polls_while_pending 1 2 60 (client_of patient_server) 0 realized_image_world
           _ (λ _ _, ex_intro _ pending (conj eq_refl eq_refl)) eq_refl 1000).
Defined.

(** X20.  [join] has no handler of its own.  When the call that it makes,
    [retry(client.stub.ImageJoin)(request, ...)], raises (that is, when
    [retry] has given up with an error), after any number of status-less
    responses, [join] raises that same error, makes no further call, and
    changes no object. *)
Theorem join_does_not_catch_call_errors SUCCESS FAILURE TIMEOUT client self w img ps e fuel :
  image_store w !! self = Some img →
  let request := {| ijq_image_id := image_id img; ijq_timeout := TIMEOUT |} in
  Forall (λ p, gr_status (ijr_result p) = 0%Z) ps →
  join_answers client (trace w) request ps →
  ImageJoin (stub client) (trace w ++ join_events request ps) request = Raise e →
  length ps < fuel →
  ∃ w',
    Image.join SUCCESS FAILURE TIMEOUT fuel client self w = Some (Raise e, w') ∧
    new_events w w' = join_events request ps ++ [EvImageJoin request (Raise e)] ∧
    mount_store w' = mount_store w ∧ layer_store w' = layer_store w ∧
    image_store w' = image_store w.
Proof.
  intros E request Hps Hans Herr Hfuel.
  exists (extend (join_events request ps ++ [EvImageJoin request (Raise e)]) w).
  split; [by apply join_run_error|].
  by rewrite (new_events_app w (join_events request ps ++ [EvImageJoin request (Raise e)])).
Qed.

Lemma join_does_not_catch_call_errors_witness :
  ∃ w',
    Image.join 1 2 60 2 (client_of (server nothing_exists [pending])) 0 realized_image_world =
      Some (Raise (RpcError "unavailable"), w') ∧
    image_store w' = image_store realized_image_world.
Proof.
  destruct (join_does_not_catch_call_errors 1 2 60
              (client_of (server nothing_exists [pending])) 0
              realized_image_world _ [pending] (RpcError "unavailable") 2 eq_refl)
    as (w' & Hrun & _ & _ & _ & Hi).
  - by repeat constructor.
  - by split.
  - reflexivity.
  - simpl. lia.
  - exists w'. split; [exact Hrun|exact Hi].
Defined.

(** * Images that can be started: references that are not dangling *)

Lemma well_formed_check_sound w : well_formed_check w = true → well_formed w.
Proof.
  unfold well_formed_check. intros [[Hd Hm]%andb_prop Hi]%andb_prop.
  split; [by apply dag_check_sound|]. split; [by apply Nat.ltb_lt|].
  intros a img E. rewrite forallb_forall in Hi.
  specialize (Hi img (proj1 (list_elem_of_In _ _) (list_elem_of_lookup_2 _ _ _ E))).
  apply andb_prop in Hi as [Hl Hms]. split; [by apply Nat.ltb_lt|].
  apply Forall_forall. intros m Hin. rewrite forallb_forall in Hms.
  apply Nat.ltb_lt, Hms. by apply list_elem_of_In.
Defined.

(** A step that keeps the images, and does not shrink the stores, keeps the
    world well formed. *)
Lemma well_formed_step w w' :
  well_formed w → dag w' →
  length (mount_store w) ≤ length (mount_store w') →
  length (layer_store w) ≤ length (layer_store w') →
  (∀ a img', image_store w' !! a = Some img' →
     ∃ img, image_store w !! a = Some img ∧ layer img' = layer img ∧
            mounts img' = mounts img) →
  well_formed w'.
Proof.
  intros (Hd & Hm & Hi) Hd' Hlm Hll Himg. split; [done|]. split; [lia|].
  intros a img' E'. destruct (Himg a img' E') as (img & E & -> & ->).
  destruct (Hi a img E) as [Hl Hms]. split; [lia|].
  eapply Forall_impl; [exact Hms|]. simpl. intros m ?. lia.
Qed.

Section ImageTotal.

Context (env : Env).

Lemma mount_start_length client self w r w' :
  Mount.start env client self w = Some (r, w') →
  length (mount_store w') = length (mount_store w).
Proof.
  unfold Mount.start. destruct (mount_store w !! self) as [m|]; [|done].
  destruct (Mount.start_obj env client m (trace w)) as [[r0 m0] tr0].
  intros [= <- <-]. simpl. apply length_insert.
Qed.

Lemma mount_start_total client self w :
  self < length (mount_store w) → is_Some (Mount.start env client self w).
Proof.
  intros Hlt. unfold Mount.start.
  destruct (lookup_lt_is_Some_2 _ _ Hlt) as [m ->].
  destruct (Mount.start_obj env client m (trace w)) as [[r0 m0] tr0]. by eexists.
Qed.

Lemma start_mounts_length client mounts : ∀ acc w r w',
  Image.start_mounts env client mounts acc w = Some (r, w') →
  length (mount_store w') = length (mount_store w).
Proof.
  induction mounts as [|a mounts IH]; intros acc w r w'; simpl.
  - by intros [= <- <-].
  - destruct (Mount.start env client a w) as [[[id|e] w1]|] eqn:Em; [| |done].
    + intros Hrun. rewrite (IH _ _ _ _ Hrun). by eapply mount_start_length.
    + intros [= <- <-]. by eapply mount_start_length.
Qed.

Lemma start_mounts_total client mounts : ∀ acc w,
  Forall (λ m, m < length (mount_store w)) mounts →
  is_Some (Image.start_mounts env client mounts acc w).
Proof.
  induction mounts as [|a mounts IH]; intros acc w Hall; simpl; [by eexists|].
  apply Forall_cons in Hall as [Ha Hall].
  destruct (mount_start_total client a w Ha) as [[[id|e] w1] Em]; rewrite Em; [|by eexists].
  apply IH. rewrite (mount_start_length _ _ _ _ _ Em). done.
Qed.

(** [Image.start] keeps the world well formed. *)
Lemma image_start_well_formed fuel client self w r w' :
  well_formed w → Image.start env fuel client self w = Some (r, w') → well_formed w'.
Proof.
  intros Hwf Hrun. pose proof Hwf as (Hd & _ & _).
  destruct (image_store w !! self) as [img|] eqn:Ei;
    [|by unfold Image.start in Hrun; rewrite Ei in Hrun].
  destruct (image_id img) as [id0|] eqn:Hid.
  { unfold Image.start in Hrun. rewrite Ei, Hid in Hrun. by injection Hrun as <- <-. }
  destruct (image_start_stages env fuel client self w img _ w' Hd Ei Hid Hrun)
    as (rl & w1 & El & Hrest).
  pose proof (start_world_le client _ _ _ _ _ Hd El) as Hle1.
  pose proof Hle1 as (Hm1 & Hi1 & Hl1 & _).
  assert (length (layer_store w) ≤ length (layer_store w1)) as Hlen1.
  { destruct (decide (length (layer_store w) = 0)) as [->|Hne]; [lia|].
    pose proof (world_le_lookup_lt w w1 (length (layer_store w) - 1) Hle1). lia. }
  assert (well_formed w1) as Hwf1.
  { apply (well_formed_step w); [done|by eapply world_le_dag|by rewrite Hm1|done|].
    intros a img' E'. exists img'. by rewrite <- Hi1. }
  destruct rl as [lid|e1]; [|by destruct Hrest as [_ ->]].
  destruct Hrest as (rm & w2 & Em & Hi2 & _ & Hrest).
  destruct (start_mounts_spec env client _ _ _ _ _ Em) as (Hl2 & Hi2' & _).
  assert (well_formed w2) as Hwf2.
  { apply (well_formed_step w1); [done| |by rewrite (start_mounts_length _ _ _ _ _ _ Em)
                                     |by rewrite Hl2|].
    - intros a l. rewrite Hl2. apply Hwf1.
    - intros a img' E'. exists img'. by rewrite <- Hi2'. }
  destruct rm as [mids|e2]; [|by destruct Hrest as [_ ->]].
  cbv zeta in Hrest. destruct (ImageCreate _ _ _) as [resp|e3]; destruct Hrest as [_ ->].
  - apply (well_formed_step w2); [done|apply Hwf2|done|done|].
    intros a img'. simpl. intros E'.
    apply list_lookup_insert_Some in E' as [(-> & <- & Hlt)|[Hne E']].
    + exists img. by rewrite Hi2.
    + by exists img'.
  - apply (well_formed_step w2); [done|apply Hwf2|done|done|].
    intros a img' E'. by exists img'.
Qed.

Lemma image_start_total fuel client self w img :
  well_formed w → image_store w !! self = Some img → layer img < fuel →
  is_Some (Image.start env fuel client self w).
Proof.
  intros (Hd & Hm & Hi) Ei Hfuel. destruct (Hi self img Ei) as [Hl Hms].
  unfold Image.start. rewrite Ei. destruct (image_id img); [by eexists|].
  destruct (start_total client fuel (layer img) w Hd Hl Hfuel) as [[[lid|e] w1] El];
    rewrite El; [|by eexists].
  pose proof (start_world_le client _ _ _ _ _ Hd El) as (Hm1 & Hi1 & _).
  destruct (start_mounts_total client (mounts img) [] w1) as [[[mids|e] w2] Em].
  { by rewrite Hm1. }
  2: { rewrite Em. by eexists. }
  rewrite Em.
  destruct (start_mounts_spec env client _ _ _ _ _ Em) as (_ & Hi2 & _).
  rewrite Hi2, Hi1, Ei. destruct (ImageCreate _ _ _); by eexists.
Qed.

Lemma image_start_fuel_le fuel fuel' client self w res :
  fuel ≤ fuel' → Image.start env fuel client self w = Some res →
  Image.start env fuel' client self w = Some res.
Proof.
  intros Hle. unfold Image.start.
  destruct (image_store w !! self) as [img|]; [|done].
  destruct (image_id img); [done|].
  destruct (Layer.start fuel client (layer img) w) as [res1|] eqn:El; [|done].
  by rewrite (start_fuel_le client fuel fuel' _ _ res1 Hle El).
Qed.

End ImageTotal.

(** X21.  In a world without dangling references [Image.start] returns:
    a recursion bound above the address of the image's layer is enough, the
    outcome (the id or the error, and the world) is the same for every such
    bound, and the world it leaves is again without dangling references, so
    that the next [start] returns too. *)
Theorem image_start_returns env client self w img :
  well_formed w → image_store w !! self = Some img →
  ∃ r w',
    (∀ fuel, layer img < fuel → Image.start env fuel client self w = Some (r, w')) ∧
    well_formed w'.
Proof.
  intros Hwf Ei.
  destruct (image_start_total env (S (layer img)) client self w img Hwf Ei ltac:(lia))
    as [[r w'] Hrun].
  exists r, w'. split.
  - intros fuel Hfuel. eapply image_start_fuel_le; [|exact Hrun]. lia.
  - by eapply image_start_well_formed.
Qed.

Lemma image_start_returns_witness :
  ∃ r w',
    (∀ fuel, 1 < fuel →
       Image.start test_env fuel (client_of flaky_server) 1 two_images_world = Some (r, w')) ∧
    well_formed w'.
Proof.
  apply (image_start_returns test_env (client_of flaky_server) 1 two_images_world _
           (well_formed_check_sound two_images_world eq_refl) eq_refl).
Defined.

(** * The builders, step by step *)

Section BuilderSpecs.

Context (env : Env).

(** A new image on new layers whose bases exist. *)
Lemma well_formed_extend w layers img :
  well_formed w →
  dag {| mount_store := mount_store w; layer_store := layer_store w ++ layers;
         image_store := image_store w; trace := trace w |} →
  layer img < length (layer_store w ++ layers) →
  Forall (λ m, m < length (mount_store w)) (mounts img) →
  well_formed {| mount_store := mount_store w; layer_store := layer_store w ++ layers;
                 image_store := image_store w ++ [img]; trace := trace w |}.
Proof.
  intros (Hd & Hm & Hi) Hd' Hl Hms. split; [exact Hd'|]. split; [done|].
  simpl. intros a img' E'.
  destruct (decide (a < length (image_store w))) as [Hlt|Hge].
  - rewrite lookup_app_l in E' by done. destruct (Hi a img' E') as [Hl' Hms'].
    split; [|done]. rewrite length_app. lia.
  - rewrite lookup_app_r in E' by lia.
    destruct (a - length (image_store w)) as [|n]; [|done]. by injection E' as <-.
Qed.

Lemma module_init_well_formed : well_formed (module_init env).
Proof.
  split; [|split].
  - intros a l. unfold module_init. simpl. destruct a as [|a]; [|done].
    intros [= <-]. constructor.
  - unfold module_init, mount_py_in_workdir_into_root. simpl. lia.
  - intros a img. unfold module_init. simpl. destruct a as [|a]; [|done].
    intros [= <-]. simpl. split; [lia|]. repeat constructor.
Qed.

Lemma module_init_default_mount :
  ∃ m, mount_store (module_init env) !! mount_py_in_workdir_into_root = Some m ∧
       default_mount m ∧ mount_id m = None.
Proof. eexists. split; [reflexivity|]. by repeat split. Qed.

End BuilderSpecs.

(** X22.  The import leaves a world without dangling references, and the
    builders keep it so: every image that is built from [debian_slim] by any
    chain of [add_python_packages] and [run_commands] refers to layers that
    form a DAG and to a Mount that exists, and so it can be started. *)
Theorem builders_keep_well_formed env :
  well_formed (module_init env) ∧
  ∀ self w new w',
    well_formed w →
    (∀ python_packages,
        DebianSlim.add_python_packages env self python_packages w = Some (new, w') →
        well_formed w') ∧
    (∀ commands,
        DebianSlim.run_commands env self commands w = Some (new, w') →
        well_formed w').
Proof.
  split; [apply module_init_well_formed|].
  intros self w new w' Hwf. pose proof Hwf as (Hd & Hm & Hi). split.
  - intros pkgs Hrun.
    destruct (image_store w !! self) as [receiver|] eqn:E;
      [|by unfold DebianSlim.add_python_packages in Hrun; rewrite E in Hrun].
    destruct (python_version receiver) as [version|] eqn:Hv;
      [|by unfold DebianSlim.add_python_packages in Hrun; rewrite E, Hv in Hrun].
    rewrite (add_python_packages_spec env self pkgs w receiver version E Hv) in Hrun.
    injection Hrun as <- <-. destruct (Hi self receiver E) as [Hl _].
    apply well_formed_extend; [done| |simpl; rewrite length_app; simpl; lia
                               |simpl; by repeat constructor].
    intros a l. simpl. intros El.
    destruct (decide (a < length (layer_store w))) as [Hlt|Hge].
    { rewrite lookup_app_l in El by done. by apply Hd. }
    rewrite lookup_app_r in El by lia.
    destruct (a - length (layer_store w)) as [|[|n]] eqn:Ea; simpl in El; [| |done].
    + injection El as <-. constructor.
    + injection El as <-. simpl. repeat constructor; simpl; lia.
  - intros cmds Hrun.
    destruct (image_store w !! self) as [receiver|] eqn:E;
      [|by unfold DebianSlim.run_commands in Hrun; rewrite E in Hrun].
    rewrite (run_commands_spec env self cmds w receiver E) in Hrun.
    injection Hrun as <- <-. destruct (Hi self receiver E) as [Hl _].
    apply well_formed_extend; [done| |simpl; rewrite length_app; simpl; lia
                               |simpl; by repeat constructor].
    intros a l. simpl. intros El.
    destruct (decide (a < length (layer_store w))) as [Hlt|Hge].
    { rewrite lookup_app_l in El by done. by apply Hd. }
    rewrite lookup_app_r in El by lia.
    destruct (a - length (layer_store w)) as [|n] eqn:Ea; simpl in El; [|done].
    injection El as <-. simpl. repeat constructor; simpl; lia.
Qed.

Lemma builders_keep_well_formed_witness :
  well_formed two_images_world ∧ well_formed old_python_numpy.
Proof.
  split.
  - apply (proj2 (proj2 (builders_keep_well_formed test_env) debian_slim
                    (module_init test_env) 1 two_images_world
                    (well_formed_check_sound (module_init test_env) eq_refl))
             ["apt-get update"]).
    reflexivity.
  - apply (proj1 (proj2 (builders_keep_well_formed test_env) 1 old_python_world 2
                    old_python_numpy (well_formed_check_sound old_python_world eq_refl))
             ["numpy"]).
    reflexivity.
Defined.

(** X23.  The builders forget the Python version of the image they extend.
    [add_python_packages] tags its builder layer with the receiver's
    version, but the image it returns is constructed without one and so
    takes the interpreter's: in a chain of two calls the first builder layer
    is for the receiver's version, the second for the version of the
    running interpreter, on top of the layers of the first. *)
Theorem chained_builders_use_interpreter_version
    env self w receiver version pkgs1 new1 w1 pkgs2 new2 w2 :
  image_store w !! self = Some receiver → python_version receiver = Some version →
  DebianSlim.add_python_packages env self pkgs1 w = Some (new1, w1) →
  DebianSlim.add_python_packages env new1 pkgs2 w1 = Some (new2, w2) →
  ∃ img1 img2 l1 l2 b1 b2 lb1 lb2,
    image_store w2 !! new1 = Some img1 ∧ image_store w2 !! new2 = Some img2 ∧
    python_version img1 = Some (sys_version env) ∧
    python_version img2 = Some (sys_version env) ∧
    layer_store w2 !! layer img1 = Some l1 ∧ layer_store w2 !! layer img2 = Some l2 ∧
    base_layers l1 = [("base", layer receiver); ("builder", b1)] ∧
    base_layers l2 = [("base", layer img1); ("builder", b2)] ∧
    layer_store w2 !! b1 = Some lb1 ∧ layer_store w2 !! b2 = Some lb2 ∧
    tag lb1 = Some ("python-" +:+ version +:+ "-slim-buster-builder") ∧
    tag lb2 = Some ("python-" +:+ sys_version env +:+ "-slim-buster-builder").
Proof.
  intros E Hv Hrun1 Hrun2.
  rewrite (add_python_packages_spec env self pkgs1 w receiver version E Hv) in Hrun1.
  injection Hrun1 as <- <-.
  erewrite add_python_packages_spec in Hrun2;
    [|simpl; apply lookup_snoc_new|reflexivity].
  injection Hrun2 as <- <-. simpl.
  set (n := length (layer_store w)). set (k := length (image_store w)).
  assert (length (layer_store w ++
            [new_layer (Some ("python-" +:+ version +:+ "-slim-buster-builder")) [] [];
             new_layer None [("base", layer receiver); ("builder", n)]
               [ "FROM builder as builder-vehicle";
                 "RUN pip wheel " +:+ String.concat " " pkgs1 +:+ " -w /tmp/wheels";
                 "FROM base";
                 "COPY --from=builder-vehicle /tmp/wheels /tmp/wheels";
                 "RUN pip install /tmp/wheels/*";
                 "RUN rm -rf /tmp/wheels" ]]) = n + 2) as Hlen
    by (rewrite length_app; done).
  rewrite Hlen.
  assert (length (image_store w ++
            [{| layer := S n; mounts := [mount_py_in_workdir_into_root];
                image_id := None; python_version := Some (sys_version env) |}]) = k + 1)
    as Hlen' by (rewrite length_app; done).
  rewrite Hlen'.
  eexists _, _, _, _, _, _, _, _.
  split. { apply lookup_app_l_Some, lookup_snoc_new. }
  split. { rewrite <- Hlen'. apply lookup_snoc_new. }
  split; [done|]. split; [done|]. simpl.
  split.
  { apply lookup_app_l_Some. rewrite lookup_app_r by (fold n; lia).
    fold n. by replace (S n - n) with 1 by lia. }
  split.
  { rewrite lookup_app_r by (rewrite Hlen; lia). rewrite Hlen.
    by replace (S (n + 2) - (n + 2)) with 1 by lia. }
  split; [done|]. split; [done|].
  split.
  { apply lookup_app_l_Some. rewrite lookup_app_r by (fold n; lia).
    fold n. by rewrite Nat.sub_diag. }
  split.
  { rewrite lookup_app_r by (rewrite Hlen; lia). rewrite Hlen. by rewrite Nat.sub_diag. }
  done.
Qed.

Lemma chained_builders_use_interpreter_version_witness :
  ∃ img1 img2 l1 l2 b1 b2 lb1 lb2,
    image_store old_python_numpy_scipy !! 2 = Some img1 ∧
    image_store old_python_numpy_scipy !! 3 = Some img2 ∧
    python_version img1 = Some "3.9.7" ∧ python_version img2 = Some "3.9.7" ∧
    layer_store old_python_numpy_scipy !! layer img1 = Some l1 ∧
    layer_store old_python_numpy_scipy !! layer img2 = Some l2 ∧
    base_layers l1 = [("base", 1); ("builder", b1)] ∧
    base_layers l2 = [("base", layer img1); ("builder", b2)] ∧
    layer_store old_python_numpy_scipy !! b1 = Some lb1 ∧
    layer_store old_python_numpy_scipy !! b2 = Some lb2 ∧
    tag lb1 = Some ("python-" +:+ "3.7.12" +:+ "-slim-buster-builder") ∧
    tag lb2 = Some ("python-" +:+ "3.9.7" +:+ "-slim-buster-builder").
Proof.
  apply (chained_builders_use_interpreter_version test_env 1 old_python_world _ "3.7.12"
           ["numpy"] 2 old_python_numpy ["scipy"] 3 old_python_numpy_scipy
           eq_refl eq_refl eq_refl eq_refl).
Defined.


(** * Builders and [start] together *)

Lemma layer_start_S fuel client self w :
  Layer.start (S fuel) client self w =
  match layer_store w !! self with
  | None => None
  | Some l =>
      match layer_id l with
      | Some id => Some (Ok id, w)
      | None =>
          match Layer.start_base_layers (Layer.start fuel client) (base_layers l) [] w with
          | None => None
          | Some (Raise e, w1) => Some (Raise e, w1)
          | Some (Ok base_layers, w1) =>
              match layer_store w1 !! self with
              | None => None
              | Some l1 =>
                  let request :=
                    {| lcq_client_id := client_id client;
                       lcq_layer := Layer.layer_definition l1 base_layers |} in
                  let out := LayerCreate (stub client) (trace w1) request in
                  let w2 := log (EvLayerCreate self request out) w1 in
                  match out with
                  | Raise e => Some (Raise e, w2)
                  | Ok response =>
                      Some (Ok (lcr_layer_id response),
                            set_layer self (with_layer_id (Some (lcr_layer_id response)) l1) w2)
                  end
              end
          end
      end
  end.
Proof. done. Qed.

(** X24.  Extending a started image is cheap.  After [run_commands] on an
    image whose layer is realized, in a world where the default Mount is
    synchronized, [Image.start] of the new image makes exactly one
    [LayerCreate] (for the new layer, with the commands ['FROM base'] and
    one ['RUN ...'] per command, and the cached id of the receiver's layer
    as its ['base']) and, if that succeeds, one [ImageCreate] with the new
    layer id and the cached mount id; no mount RPC is made and no file is
    read. *)
Theorem extended_image_costs_one_layer
    env client self w receiver base_id mid commands new w1 fuel :
  image_store w !! self = Some receiver →
  cached w (layer receiver) = Some base_id →
  mount_cached w mount_py_in_workdir_into_root mid →
  DebianSlim.run_commands env self commands w = Some (new, w1) →
  2 ≤ fuel →
  let la := length (layer_store w) in
  let request := {| lcq_client_id := client_id client;
                    lcq_layer := run_commands_layer base_id commands |} in
  let out := LayerCreate (stub client) (trace w) request in
  ∃ r w',
    Image.start env fuel client new w1 = Some (r, w') ∧
    mount_store w' = mount_store w ∧
    match out with
    | Raise e => r = Raise e ∧ new_events w1 w' = [EvLayerCreate la request out]
    | Ok resp =>
        ∃ out_i,
          new_events w1 w' =
            [EvLayerCreate la request out;
             EvImageCreate new
               {| icq_client_id := client_id client;
                  icq_image := {| id_layer_id := Some (lcr_layer_id resp);
                                  id_mount_ids := [mid] |} |} out_i] ∧
          r = match out_i with Ok ri => Ok (icr_image_id ri) | Raise e => Raise e end
    end.
Proof.
  intros E Hc Hmc Hrun Hfuel la request out.
  rewrite (run_commands_spec env self commands w receiver E) in Hrun.
  injection Hrun as <- <-.
  destruct fuel as [|[|fuel]]; [lia|lia|].
  unfold cached in Hc. destruct (layer_store w !! layer receiver) as [l0|] eqn:El0; [|done].
  simpl in Hc.
  unfold Image.start. cbn [image_store]. rewrite lookup_snoc_new. cbn [image_id layer].
  rewrite layer_start_S. cbn [layer_store]. rewrite lookup_snoc_new.
  cbn [new_layer layer_id base_layers]. rewrite start_base_layers_cons.
  rewrite layer_start_S. cbn [layer_store]. rewrite (lookup_snoc_old _ _ _ _ El0), Hc.
  cbn [Layer.start_base_layers]. cbn [layer_store]. rewrite lookup_snoc_new.
  cbv zeta. cbn [trace app].
  change (Layer.layer_definition _ _) with (run_commands_layer base_id commands).
  fold request. fold out. fold la. clearbody out.
  destruct out as [resp|e].
  2: { eexists _, _. split; [reflexivity|]. split; [done|]. split; [done|].
       apply new_events_log. }
  match goal with
  | |- context [Image.start_mounts env client ?ms [] ?w2] =>
      rewrite (start_mounts_cached env client ms [] w2 [mid])
  end.
  2: { constructor; [|constructor]. destruct Hmc as (m & Em & Hid & Hne). by exists m. }
  unfold cached, set_layer, log. cbn [mount_store layer_store image_store trace].
  rewrite lookup_snoc_new. cbn [layer]. fold la.
  rewrite list_lookup_insert_eq by (rewrite length_app; simpl; lia).
  cbn [mbind option_bind with_layer_id layer_id app].
  destruct (ImageCreate _ _ _) as [ri|e] eqn:Ei.
  - eexists _, _. split; [reflexivity|]. split; [done|]. exists (Ok ri).
    split; [|done]. apply new_events_app. simpl. by rewrite <- app_assoc.
  - eexists _, _. split; [reflexivity|]. split; [done|]. exists (Raise e).
    split; [|done]. apply new_events_app. simpl. by rewrite <- app_assoc.
Qed.

Lemma extended_image_costs_one_layer_witness :
  ∃ r w',
    Image.start test_env 2 (client_of (server nothing_exists [])) 2 extended_world =
      Some (r, w') ∧
    mount_store w' = mount_store first_image_started ∧
    length (new_events extended_world w') = 2.
Proof.
  pose proof (extended_image_costs_one_layer test_env (client_of (server nothing_exists []))
                debian_slim first_image_started _ "la-0" "mo-0" ["make"] 2 extended_world 2
                eq_refl eq_refl) as H.
  cbv zeta in H.
  destruct H as (r & w' & Hrun & Hm & Hrest).
  - eexists. split; [reflexivity|]. split; [reflexivity|done].
  - reflexivity.
  - lia.
  - exists r, w'. split; [exact Hrun|]. split; [exact Hm|].
    change (LayerCreate _ _ _) with (@Ok LayerCreateResponse {| lcr_layer_id := "la-1" |})
      in Hrest.
    destruct Hrest as (out_i & Hev & _). by rewrite Hev.
Defined.


(** * The default mount *)

Lemma take_while_drop {A} (p : A → bool) (l : list A) :
  l = take_while p l ++ drop (length (take_while p l)) l.
Proof.
  induction l as [|x l IH]; [done|]. simpl. destruct (p x); [|done]. simpl. by rewrite <- IH.
Qed.

Lemma existsb_take_while_head {A} (p q : A → bool) (l : list A) :
  existsb q (take_while p l) = true → ∃ x l', l = x :: l' ∧ p x = true.
Proof.
  destruct l as [|x l]; [done|]. simpl. destruct (p x) eqn:E; [|done]. intros _. by exists x, l.
Qed.

Lemma string_of_list_ascii_inj l1 l2 :
  string_of_list_ascii l1 = string_of_list_ascii l2 → l1 = l2.
Proof.
  intros H. rewrite <- (list_ascii_of_string_of_list_ascii l1),
    <- (list_ascii_of_string_of_list_ascii l2). by rewrite H.
Qed.

Lemma splitext_ext_py filename : splitext_ext filename = ".py" → py_file filename.
Proof.
  unfold splitext_ext, py_file. cbv zeta.
  set (r := rev (list_ascii_of_string filename)).
  set (suffix := take_while _ r).
  pose proof (take_while_drop (λ c, negb (Ascii.eqb c "." || Ascii.eqb c "/")) r) as Hr.
  fold suffix in Hr.
  destruct (drop (length suffix) r) as [|c before] eqn:Ed; [done|].
  destruct (Ascii.eqb c "." && _) eqn:Hc; [|done].
  intros Hs. apply andb_prop in Hc as [Hdot Hex].
  apply (string_of_list_ascii_inj _ ["."; "p"; "y"]%char) in Hs.
  injection Hs as Hs.
  apply existsb_take_while_head in Hex as (x & before' & -> & Hx).
  apply Ascii.eqb_eq in Hdot as ->.
  assert (suffix = ["y"; "p"]%char) as Hsuf.
  { rewrite <- (rev_involutive suffix), Hs. done. }
  rewrite Hsuf in Hr.
  exists (rev before'), x. split.
  - rewrite <- (rev_involutive (list_ascii_of_string filename)). fold r. rewrite Hr.
    simpl. by rewrite <- !app_assoc.
  - intros ->. done.
Qed.

(** X25.  The Mount that the import creates uploads Python files only:
    whenever it is synchronized, every file it registers is a file of the
    walk of the working directory whose name ends in [.py], with the dot
    not at the start of the file name (a hidden file named [.py] is not
    taken), and is registered under [/root] with its relative name. *)
Theorem default_mount_registers_py_files env client w m r w' :
  mount_store w !! mount_py_in_workdir_into_root = Some m → default_mount m →
  Mount.start env client mount_py_in_workdir_into_root w = Some (r, w') →
  ∀ i q, new_events w w' !! i = Some (EvRegisterFile q) →
    ∃ f rel,
      (f, rel) ∈ walk env "." ∧ py_file f ∧
      rfq_filename q = os_path_join "/root" rel.
Proof.
  intros Em (Hl & Hr & Hc) Hrun i q Hi.
  destruct (mount_start_cases env client _ w m r w' Em Hrun) as [Hnil|(m' & Hsync & _)].
  { by rewrite Hnil in Hi. }
  apply synchronize_registrations in Hsync as (evs & Htr & Hcases). cbv zeta in Hcases.
  rewrite (new_events_app w evs w' Htr) in Hi.
  destruct Hcases as [(e & ->)|(resp & _ & _ & Hafter)].
  { by destruct i as [|[|i]]. }
  destruct (Hafter i q Hi) as (f & rel & data & Hin & Hname & _).
  apply elem_of_get_files in Hin as [Hin Hcond].
  rewrite Hl in Hin. rewrite Hr in Hname. rewrite Hc in Hcond.
  exists f, rel. split; [done|]. split; [|done].
  apply splitext_ext_py. by apply String.eqb_eq.
Qed.

Lemma default_mount_registers_py_files_witness :
  ∃ f rel,
    (f, rel) ∈ walk test_env "." ∧ py_file f ∧
    "/root/pkg/b.py" = os_path_join "/root" rel.
Proof.
  apply (default_mount_registers_py_files test_env (client_of (server nothing_exists []))
           (module_init test_env) _ (Ok "mo-0") synced_world eq_refl
           (conj eq_refl (conj eq_refl (λ _, eq_refl))) eq_refl 7
           {| rfq_filename := "/root/pkg/b.py"; rfq_sha256_hex := "sha256(pass)";
              rfq_mount_id := "mo-0" |} eq_refl).
Defined.

(** * [start] and [join] together *)

Lemma image_start_caches env fuel client self w id w' :
  Image.start env fuel client self w = Some (Ok id, w') →
  ∃ img', image_store w' !! self = Some img' ∧ image_id img' = Some id.
Proof.
  unfold Image.start. intros Hrun.
  destruct (image_store w !! self) as [img|] eqn:Ei; [|done].
  destruct (image_id img) as [id0|] eqn:Hid.
  { injection Hrun as <- <-. by exists img. }
  destruct (Layer.start fuel client (layer img) w) as [[[lid|e] w1]|]; [|done|done].
  destruct (Image.start_mounts env client (mounts img) [] w1) as [[[mids|e] w2]|];
    [|done|done].
  destruct (image_store w2 !! self) as [img2|] eqn:Ei2; [|done].
  destruct (ImageCreate _ _ _) as [resp|e]; [|done].
  injection Hrun as <- <-. eexists. simpl.
  split; [apply list_lookup_insert_eq; by eapply lookup_lt_Some|done].
Qed.

(** X26.  [join] waits for the image that [start] created.  After a
    [start] that returned an id, every round trip of a [join] of that image,
    by any client, asks for that id; and the [join], however it ends, leaves
    the image started: a later [start] returns the same id without any
    RPC. *)
Theorem join_after_start_asks_for_started_id
    env SUCCESS FAILURE TIMEOUT fuel client self w id w1 fuel' client' r w2 :
  Image.start env fuel client self w = Some (Ok id, w1) →
  Image.join SUCCESS FAILURE TIMEOUT fuel' client' self w1 = Some (r, w2) →
  new_events w1 w2 ≠ [] ∧
  Forall (λ ev, ∃ out,
            ev = EvImageJoin {| ijq_image_id := Some id; ijq_timeout := TIMEOUT |} out)
    (new_events w1 w2) ∧
  ∀ fuel'' client'', Image.start env fuel'' client'' self w2 = Some (Ok id, w2).
Proof.
  intros Hstart Hjoin.
  destruct (image_start_caches env fuel client self w id w1 Hstart) as (img' & E' & Hid').
  destruct (join_returned SUCCESS FAILURE TIMEOUT client' self fuel' w1 img' r w2 E' Hjoin)
    as (ps & out & -> & _).
  rewrite Hid'.
  rewrite (new_events_app w1
    (join_events {| ijq_image_id := Some id; ijq_timeout := TIMEOUT |} ps ++
     [EvImageJoin {| ijq_image_id := Some id; ijq_timeout := TIMEOUT |} out])) by done.
  split; [intros Hnil; by apply app_eq_nil in Hnil as [_ ?]|]. split.
  - apply Forall_app. split; [|by repeat econstructor].
    unfold join_events. apply Forall_forall. intros ev Hin.
    apply list_elem_of_fmap in Hin as (p & -> & _). by eexists.
  - intros fuel'' client''. unfold Image.start, extend. simpl. by rewrite E', Hid'.
Qed.

Lemma join_after_start_asks_for_started_id_witness :
  ∃ w2,
    Image.join 1 2 60 3 (client_of (server nothing_exists [pending; result 1 "" 0])) 0
      first_image_started = Some (Ok (result 1 "" 0), w2) ∧
    Forall (λ ev, ∃ out,
              ev = EvImageJoin {| ijq_image_id := Some "im-0"; ijq_timeout := 60 |} out)
      (new_events first_image_started w2) ∧
    Image.start test_env 0 (client_of flaky_server) 0 w2 = Some (Ok "im-0", w2).
Proof.
  eexists.
  destruct (join_after_start_asks_for_started_id test_env 1 2 60 3
              (client_of (server nothing_exists [])) 0 two_images_world "im-0"
              first_image_started 3
              (client_of (server nothing_exists [pending; result 1 "" 0]))
              (Ok (result 1 "" 0)) _ eq_refl eq_refl)
    as (_ & Hall & Hagain).
  split; [reflexivity|]. split; [exact Hall|]. apply Hagain.
Defined.
